(** * free-style: a shallow embedding of [src/free-style.ts]

    The development follows the source file top to bottom: the string
    primitives the code relies on, the chained hash, the property compiler,
    the selector interpolator, the reference-counted cache, the node
    hierarchy and the recursive registration of a style tree.

    Modelling conventions.
    - A JavaScript string is a [string]: a sequence of UTF-16 code units
      restricted to the range 0..255 (Latin-1), on which [toLowerCase],
      [trim] and the default ordering of [sort] are given exactly.  The hash
      itself is stated over arbitrary lists of code units.
    - A JavaScript number that is an integer is a [Z]; the code never
      produces any other number.  Bit operators convert through [ToInt32] /
      [ToUint32] as the language does, and [+] is exact.
    - An object used as a dictionary whose iteration order is observable
      ([Cache._cache], a user style object) is an association list in
      insertion order; one whose order is never observed
      ([Cache._cacheCount]) is a [gmap].  Reading [obj[key]] finds an own
      property or else a property inherited from [Object.prototype]
      ([JS.inherited]); the cache reads both of its objects that way.  The
      association list stands for the own properties whose key is not an
      integer index (a string of digits), which an object lists first
      whenever they were set; the node ids built by the constructors start
      with a letter, and what is stated of the order of an arbitrary cache
      says so of the ids ([JS.digitsOnly]).
    - [emitChange] is the list of changes a call returns: listeners observe
      the cache and do not call back into it.
    - A reference to a node that lives in a container is the path of cache
      keys leading to it from the container the registration started on. *)

From Stdlib Require Import ZArith Ascii String DecimalString List Lia Permutation.
From stdpp Require Import base option gmap strings list sorting.

#[local] Open Scope Z_scope.
#[local] Set Warnings "-register-all".

(** ** JavaScript string primitives *)

Module JS.

(** [str.charCodeAt(i)] for every [i], in order. *)
Definition charCode (c : ascii) : Z := Z.of_N (N_of_ascii c).

Fixpoint charCodes (s : string) : list Z :=
  match s with
  | EmptyString => []
  | String c s' => charCode c :: charCodes s'
  end.

Definition fromCharCode (n : Z) : ascii := ascii_of_N (Z.to_N n).

(** The character class [[A-Z]]. *)
Definition isUpperAZ (c : ascii) : bool :=
  (65 <=? charCode c) && (charCode c <=? 90).

(** [String.prototype.toLowerCase] on Latin-1: the letters A-Z and the
    accented capitals U+00C0..U+00DE (U+00D7 excepted) move up by 32. *)
Definition toLowerCaseChar (c : ascii) : ascii :=
  let n := charCode c in
  if ((65 <=? n) && (n <=? 90))
     || ((192 <=? n) && (n <=? 214))
     || ((216 <=? n) && (n <=? 222))
  then fromCharCode (n + 32) else c.

Fixpoint toLowerCase (s : string) : string :=
  match s with
  | EmptyString => EmptyString
  | String c s' => String (toLowerCaseChar c) (toLowerCase s')
  end.

(** White space and line terminators stripped by [trim], within Latin-1:
    TAB, LF, VT, FF, CR, SPACE and NBSP. *)
Definition isWhiteSpace (c : ascii) : bool :=
  let n := charCode c in
  ((9 <=? n) && (n <=? 13)) || (n =? 32) || (n =? 160).

Fixpoint trimStart (s : string) : string :=
  match s with
  | EmptyString => EmptyString
  | String c s' => if isWhiteSpace c then trimStart s' else s
  end.

Fixpoint trimEnd (s : string) : string :=
  match s with
  | EmptyString => EmptyString
  | String c s' =>
      match trimEnd s' with
      | EmptyString => if isWhiteSpace c then EmptyString else String c EmptyString
      | t => String c t
      end
  end.

Definition trim (s : string) : string := trimEnd (trimStart s).

(** [str.charAt(0) === c]. *)
Definition charAt0_is (c : ascii) (s : string) : bool :=
  match s with
  | String c' _ => Ascii.eqb c' c
  | EmptyString => false
  end.

(** [str.indexOf(c) > -1]. *)
Fixpoint includesChar (c : ascii) (s : string) : bool :=
  match s with
  | EmptyString => false
  | String c' s' => Ascii.eqb c' c || includesChar c s'
  end.

(** The expansion of a replacement string given to [replace] when the
    pattern has no capture group: [$$] is a dollar sign, [$&] the matched
    text, [$`] the text before the match, [$'] the text after it; any
    other character, a lone [$] included, stands for itself. *)
Fixpoint GetSubstitution (matched before after replacement : string) : string :=
  match replacement with
  | EmptyString => EmptyString
  | String c r =>
      if Ascii.eqb c "$" then
        match r with
        | String d r' =>
            if Ascii.eqb d "$" then String "$" (GetSubstitution matched before after r')
            else if Ascii.eqb d "&" then matched +:+ GetSubstitution matched before after r'
            else if Ascii.eqb d "`" then before +:+ GetSubstitution matched before after r'
            else if Ascii.eqb d "'" then after +:+ GetSubstitution matched before after r'
            else String c (GetSubstitution matched before after r)
        | EmptyString => String c EmptyString
        end
      else String c (GetSubstitution matched before after r)
  end.

(** [str.replace(/c/g, replacement)] for a one-character pattern [c];
    [before] is the text already scanned. *)
Fixpoint replaceAllChar (c : ascii) (replacement before s : string) : string :=
  match s with
  | EmptyString => EmptyString
  | String c' s' =>
      if Ascii.eqb c' c
      then GetSubstitution (String c EmptyString) before s' replacement
             +:+ replaceAllChar c replacement (before +:+ String c' EmptyString) s'
      else String c' (replaceAllChar c replacement (before +:+ String c' EmptyString) s')
  end.

(** [arr.join('')]. *)
Definition join (l : list string) : string :=
  fold_right String.append EmptyString l.

(** [arr.join(sep)]. *)
Fixpoint joinWith (sep : string) (l : list string) : string :=
  match l with
  | [] => EmptyString
  | [x] => x
  | x :: l' => x +:+ sep +:+ joinWith sep l'
  end.

(** [arr.sort()] on an array of strings: ascending code-unit order. *)
Fixpoint insertSorted (x : string) (l : list string) : list string :=
  match l with
  | [] => [x]
  | y :: l' => if String.leb x y then x :: l else y :: insertSorted x l'
  end.

Definition sort (l : list string) : list string :=
  fold_right insertSorted [] l.

(** Conversions to 32-bit integers used by the bit operators. *)
Definition ToInt32 (v : Z) : Z := (v + 2 ^ 31) mod 2 ^ 32 - 2 ^ 31.
Definition ToUint32 (v : Z) : Z := v mod 2 ^ 32.

(** [a ^ b], [a << k] and [a >>> 0]. *)
Definition bitXor (a b : Z) : Z := ToInt32 (Z.lxor (ToInt32 a) (ToInt32 b)).
Definition shiftLeft (a k : Z) : Z := ToInt32 (Z.shiftl (ToInt32 a) k).

(** [n.toString(32)] for an integer [n]. *)
Definition digit32 (d : Z) : ascii :=
  if d <? 10 then fromCharCode (48 + d) else fromCharCode (87 + d).

Fixpoint digits32 (fuel : nat) (n : Z) (acc : string) : string :=
  match fuel with
  | O => acc
  | S fuel' =>
      if n <? 32 then String (digit32 n) acc
      else digits32 fuel' (n / 32) (String (digit32 (n mod 32)) acc)
  end.

Definition toString32 (n : Z) : string :=
  if n <? 0
  then String "-" (digits32 (S (Z.to_nat (Z.log2 (- n)))) (- n) EmptyString)
  else digits32 (S (Z.to_nat (Z.log2 n))) n EmptyString.

(** [`${n}`] for an integer [n] below 10^21 in absolute value, where the
    decimal digits are written out. *)
Definition numberToString (n : Z) : string :=
  NilZero.string_of_int (Z.to_int n).

(** The properties every object created by [{}] inherits from
    [Object.prototype]: [obj[key]] is the inherited function (for
    [__proto__], the prototype itself) when [obj] has no own property
    [key]. *)
Definition prototypeKeys : list string :=
  ["constructor"; "hasOwnProperty"; "isPrototypeOf"; "propertyIsEnumerable";
   "toLocaleString"; "toString"; "valueOf"; "__proto__";
   "__defineGetter__"; "__defineSetter__"; "__lookupGetter__"; "__lookupSetter__"].

Definition inherited (key : string) : bool :=
  existsb (String.eqb key) prototypeKeys.

(** A key made of decimal digits only; every integer index is one. *)
Fixpoint allDigits (key : string) : bool :=
  match key with
  | EmptyString => true
  | String c key' =>
      (48 <=? charCode c) && (charCode c <=? 57) && allDigits key'
  end.

Definition digitsOnly (key : string) : bool :=
  match key with
  | EmptyString => false
  | _ => allDigits key
  end.

End JS.

(** ** Hashing *)

(** [hash(str, seed)], over the code units of [str]. *)
Definition hash_step (value code : Z) : Z :=
  let value := JS.bitXor value code in
  value + (JS.shiftLeft value 1 + JS.shiftLeft value 4 + JS.shiftLeft value 7
           + JS.shiftLeft value 8 + JS.shiftLeft value 24).

Definition hash_seed (seed : option Z) : Z :=
  match seed with
  | Some s => if s =? 0 then 0x811c9dc5 else s
  | None => 0x811c9dc5
  end.

Definition hash_codes (codes : list Z) (seed : option Z) : Z :=
  JS.ToUint32 (fold_left hash_step codes (hash_seed seed)).

Definition hash (str : string) (seed : option Z) : Z :=
  hash_codes (JS.charCodes str) seed.

Definition hashToString (hash : Z) : string := JS.toString32 hash.

Definition hashString (str : string) : string := hashToString (hash str None).


(** ** Property compiler *)

(** [PropertyValue = void | number | string | string[] | number[]];
    [PVoid] stands for the two values with [value == null]. *)
Inductive PropertyValue : Type :=
| PVoid
| PNumber (n : Z)
| PString (s : string)
| PStrings (l : list string)
| PNumbers (l : list Z).

(** A value of a user style object: a property value or a nested style
    object; a style object lists its entries in insertion order. *)
Inductive StyleValue : Type :=
| Prop_ (v : PropertyValue)
| Nest (styles : list (string * StyleValue)).

Definition UserStyles : Type := list (string * StyleValue).

Definition Properties : Type := list (string * PropertyValue).
Definition NestedStyles : Type := list (string * UserStyles).

Record ParsedUserStyles : Type := mkParsed {
  properties : Properties;
  nestedStyles : NestedStyles
}.

(** [Object.keys(styles)] and [styles[key]]. *)
Definition Object_keys {A : Type} (o : list (string * A)) : list string := map fst o.

Fixpoint Object_get {A : Type} (o : list (string * A)) (key : string) : option A :=
  match o with
  | [] => None
  | (k, v) :: o' => if String.eqb k key then Some v else Object_get o' key
  end.

(** [.replace(/([A-Z])/g, '-$1')]. *)
Fixpoint insertHyphens (propertyName : string) : string :=
  match propertyName with
  | EmptyString => EmptyString
  | String c s' =>
      if JS.isUpperAZ c then String "-" (String c (insertHyphens s'))
      else String c (insertHyphens s')
  end.

(** [.replace(/^ms-/, '-ms-')]. *)
Definition prefixMs (s : string) : string :=
  if String.prefix "ms-" s then String "-" s else s.

Definition hyphenate (propertyName : string) : string :=
  JS.toLowerCase (prefixMs (insertHyphens propertyName)).

Definition isAtRule (propertyName : string) : bool :=
  JS.charAt0_is "@" propertyName.

Definition isNestedStyle (value : option StyleValue) : bool :=
  match value with
  | Some (Nest _) => true
  | _ => false
  end.

(** The value given to a template string: a string, or a number. *)
Inductive Scalar : Type :=
| SVoid
| SNumber (n : Z)
| SString (s : string).

Definition styleStringToString (name : string) (value : Scalar) : string :=
  match value with
  | SVoid => EmptyString
  | SNumber n => name +:+ ":" +:+ JS.numberToString n +:+ ";"
  | SString s => name +:+ ":" +:+ s +:+ ";"
  end.

Definition styleToString (name : string) (value : PropertyValue) : string :=
  match value with
  | PStrings l => JS.join (map (fun value => styleStringToString name (SString value)) l)
  | PNumbers l => JS.join (map (fun value => styleStringToString name (SNumber value)) l)
  | PVoid => styleStringToString name SVoid
  | PNumber n => styleStringToString name (SNumber n)
  | PString s => styleStringToString name (SString s)
  end.

(** The two readings of [styles[key]], of type [any]: a nested style
    object where [isNestedStyle] holds, a property value elsewhere
    ([undefined] is [PVoid]). *)
Definition asUserStyles (value : option StyleValue) : UserStyles :=
  match value with
  | Some (Nest styles) => styles
  | _ => []
  end.

Definition asPropertyValue (value : option StyleValue) : PropertyValue :=
  match value with
  | Some (Prop_ v) => v
  | _ => PVoid
  end.

(** One turn of the loop of [parseUserStyles]. *)
Definition parseEntry (styles : UserStyles) (acc : ParsedUserStyles) (key : string)
  : ParsedUserStyles :=
  let value := Object_get styles key in
  if isNestedStyle value then
    mkParsed (properties acc) (nestedStyles acc ++ [(JS.trim key, asUserStyles value)])
  else
    mkParsed (properties acc ++ [(hyphenate (JS.trim key), asPropertyValue value)])
             (nestedStyles acc).

Definition parseUserStyles (styles : UserStyles) : ParsedUserStyles :=
  fold_left (parseEntry styles) (JS.sort (Object_keys styles)) (mkParsed [] []).

Definition stringifyProperties (properties : Properties) : string :=
  JS.join (map (fun p => styleToString (fst p) (snd p)) properties).

(** ** Selector interpolation *)

Definition interpolate (selector parentSelector : string) : string :=
  if JS.includesChar "&" selector
  then JS.replaceAllChar "&" parentSelector EmptyString selector
  else parentSelector +:+ " " +:+ selector.


(** ** The reference-counted cache *)

(** [ICacheable]: the [id] of a cacheable object. *)
Class ICacheable (T : Type) : Type := cache_id : T -> string.

(** [obj[key] = value]: an existing key keeps its place, a new one goes
    last (among the keys that are not integer indices). *)
Fixpoint Object_set {A : Type} (o : list (string * A)) (key : string) (value : A)
  : list (string * A) :=
  match o with
  | [] => [(key, value)]
  | (k, v) :: o' =>
      if String.eqb k key then (k, value) :: o' else (k, v) :: Object_set o' key value
  end.

(** [delete obj[key]]. *)
Fixpoint Object_delete {A : Type} (o : list (string * A)) (key : string)
  : list (string * A) :=
  match o with
  | [] => []
  | (k, v) :: o' =>
      if String.eqb k key then Object_delete o' key else (k, v) :: Object_delete o' key
  end.

Record Cache (T : Type) : Type := mkCache {
  _cache : list (string * T);
  _cacheCount : gmap string nat
}.
Arguments mkCache {T} _ _.
Arguments _cache {T} _.
Arguments _cacheCount {T} _.

(** A call of [emitChange(type, style)]. *)
Definition Change (T : Type) : Type := (string * T)%type.

Section CacheOps.
Context {T : Type} `{ICacheable T}.

Definition Cache_new : Cache T := mkCache [] ∅.

Definition Cache_values (c : Cache T) : list T := map snd (_cache c).

(** [this._cacheCount[style.id] || 0]: the number stored under the id, 0
    when there is none and the id names no inherited property.  For an id
    that names one, and has no count of its own, the value read is the
    inherited function, which is no number: [None]. *)
Definition Cache_count (c : Cache T) (style : T) : option nat :=
  match _cacheCount c !! cache_id style with
  | Some count => Some count
  | None => if JS.inherited (cache_id style) then None else Some 0%nat
  end.

(** [this.count(style) > 0], false of a value that is no number. *)
Definition Cache_has (c : Cache T) (style : T) : bool :=
  match Cache_count c style with
  | Some count => (0 <? count)%nat
  | None => false
  end.

(** [add] returns what [this._cache[style.id]] holds in the end, the cache
    after the call and the changes emitted, in order.  The value returned
    is the stored instance, or no instance at all ([None]): [undefined], or
    the inherited property of that name.  When the count read is no number,
    [count + 1] is a text, which is written to [_cacheCount] but never read
    as a count ([count === 0] and [count > 0] are false of it, as of the
    inherited function): [_cacheCount] keeps the numbers only. *)
Definition Cache_add (c : Cache T) (style : T) : option T * Cache T * list (Change T) :=
  match Cache_count c style with
  | None => (Object_get (_cache c) (cache_id style), c, [])
  | Some count =>
      let c1 := mkCache (_cache c) (<[cache_id style := (count + 1)%nat]> (_cacheCount c)) in
      if (count =? 0)%nat then
        let c2 := mkCache (Object_set (_cache c1) (cache_id style) style) (_cacheCount c1) in
        (Object_get (_cache c2) (cache_id style), c2, [("add"%string, style)])
      else
        (Object_get (_cache c1) (cache_id style), c1, [])
  end.

(** [remove] reads [this._cacheCount[style.id]] without a default:
    [count > 0] is false of [undefined] and of an inherited function. *)
Definition Cache_remove (c : Cache T) (style : T) : Cache T * list (Change T) :=
  match _cacheCount c !! cache_id style with
  | Some (S n as count) =>
      let c1 := mkCache (_cache c) (<[cache_id style := (count - 1)%nat]> (_cacheCount c)) in
      if (count =? 1)%nat then
        (mkCache (Object_delete (_cache c1) (cache_id style)) (_cacheCount c1),
         [("remove"%string, style)])
      else (c1, [])
  | _ => (c, [])
  end.

End CacheOps.

(** ** The node hierarchy *)

Record Selector : Type := mkSelector {
  Selector_id : string;
  selector : string
}.

Definition new_Selector (selector : string) : Selector :=
  mkSelector ("s" +:+ hashString selector) selector.

#[export] Instance Selector_cacheable : ICacheable Selector := Selector_id.

(** A [Style] is a cache of selectors with an [id] and its declarations. *)
Record Style : Type := mkStyle {
  Style_id : string;
  style : string;
  Style_cache : Cache Selector
}.

Definition new_Style (style : string) : Style :=
  mkStyle ("n" +:+ hashString style) style Cache_new.

(** What a container holds, [Style | Container]: a style, or an at-rule,
    itself a container of such items. *)
Inductive Item : Type :=
| IStyle (s : Style)
| IAtRule (id : string) (rule : string) (cache : Cache Item).

Definition Container : Type := Cache Item.

Definition new_AtRule (rule : string) : Item :=
  IAtRule ("a" +:+ hashString rule) rule (mkCache [] ∅).

Definition Item_id (x : Item) : string :=
  match x with
  | IStyle s => Style_id s
  | IAtRule id _ _ => id
  end.

#[export] Instance Item_cacheable : ICacheable Item := Item_id.

Definition Style_getStyles (s : Style) : string :=
  match style s with
  | EmptyString => EmptyString
  | style =>
      JS.joinWith "," (map selector (Cache_values (Style_cache s)))
        +:+ "{" +:+ style +:+ "}"
  end.

Fixpoint Item_getStyles (x : Item) : string :=
  match x with
  | IStyle s => Style_getStyles s
  | IAtRule _ rule cache =>
      rule +:+ "{" +:+ JS.join (map (fun p => Item_getStyles (snd p)) (_cache cache)) +:+ "}"
  end.

Definition Container_getStyles (c : Container) : string :=
  JS.join (map Item_getStyles (Cache_values c)).

(** ** Registration *)

(** A reference to a container: the keys of the at-rules to go through. *)
Definition Ref : Type := list string.

(** A reference to a style: its container and its key there. *)
Definition StyleRef : Type := (Ref * string)%type.

(** Run [f] on the container [r] refers to, in place. *)
Fixpoint Container_at (r : Ref) (f : Container -> option Container) (root : Container)
  : option Container :=
  match r with
  | [] => f root
  | key :: r' =>
      match Object_get (_cache root) key with
      | Some (IAtRule id rule cache) =>
          match Container_at r' f cache with
          | Some cache' =>
              Some (mkCache (Object_set (_cache root) key (IAtRule id rule cache'))
                            (_cacheCount root))
          | None => None
          end
      | _ => None
      end
  end.

(** [container.add(new Style(styleString))]: the reference to the stored
    style.  The cast of the result is unchecked in the source; here the call
    fails when the object stored under the id is not a style. *)
Definition Container_addStyle (container : Ref) (s : Style) (root : Container)
  : option (StyleRef * Container) :=
  match Container_at container
          (fun c => match Cache_add c (IStyle s) with
                    | (Some (IStyle _), c', _) => Some c'
                    | _ => None
                    end) root with
  | Some root' => Some ((container, Style_id s), root')
  | None => None
  end.

(** [container.add(new AtRule(name))], likewise. *)
Definition Container_addAtRule (container : Ref) (a : Item) (root : Container)
  : option (Ref * Container) :=
  match Container_at container
          (fun c => match Cache_add c a with
                    | (Some (IAtRule _ _ _), c', _) => Some c'
                    | _ => None
                    end) root with
  | Some root' => Some (container ++ [Item_id a], root')
  | None => None
  end.

(** [style.add(new Selector(...))] on the style [r] refers to. *)
Definition Style_addSelector (r : StyleRef) (sel : Selector) (root : Container)
  : option Container :=
  Container_at (fst r)
    (fun c => match Object_get (_cache c) (snd r) with
              | Some (IStyle s) =>
                  let s' := mkStyle (Style_id s) (style s)
                                    (snd (fst (Cache_add (Style_cache s) sel))) in
                  Some (mkCache (Object_set (_cache c) (snd r) (IStyle s')) (_cacheCount c))
              | _ => None
              end) root.

(** The variables [stylize] closes over, with the container tree. *)
Record RegState : Type := mkRegState {
  heap : Container;
  styleInstances : list (string * StyleRef);
  currentHash : Z
}.

Fixpoint depthValue (v : StyleValue) : nat :=
  match v with
  | Prop_ _ => O
  | Nest styles => S (list_max (map (fun p => depthValue (snd p)) styles))
  end.

Definition depth (styles : UserStyles) : nat := depthValue (Nest styles).

(** The body of the loop of [stylize] over the nested styles; its first
    argument is [stylize] itself. *)
Definition stylizeNested
  (stylize : Ref -> UserStyles -> string -> RegState -> option RegState)
  (container : Ref) (selector : string)
  (acc : option RegState) (entry : string * UserStyles) : option RegState :=
  match acc with
  | None => None
  | Some st =>
      let name := fst entry in
      let value := snd entry in
      if isAtRule name then
        match Container_addAtRule container (new_AtRule name) (heap st) with
        | None => None
        | Some (atRule, heap2) =>
            stylize atRule value selector
              (mkRegState heap2 (styleInstances st) (currentHash st))
        end
      else stylize container value (interpolate name selector) st
  end.

(** [stylize(container, styles, selector)]; [fuel] bounds the nesting. *)
Fixpoint stylize (fuel : nat) (container : Ref) (styles : UserStyles) (selector : string)
  (st : RegState) : option RegState :=
  match fuel with
  | O => None
  | S fuel' =>
      let parsed := parseUserStyles styles in
      let styleString := stringifyProperties (properties parsed) in
      match Container_addStyle container (new_Style styleString) (heap st) with
      | None => None
      | Some (style, heap1) =>
          let st1 :=
            mkRegState heap1 (styleInstances st ++ [(selector, style)])
              (hash styleString (Some (hash selector (Some (currentHash st))))) in
          fold_left (stylizeNested (stylize fuel') container selector)
                    (nestedStyles parsed) (Some st1)
      end
  end.

(** The closing loop of [registerUserStyles]. *)
Definition addSelectors (currentSelector : string) (instances : list (string * StyleRef))
  (root : Container) : option Container :=
  fold_left
    (fun acc entry =>
       match acc with
       | None => None
       | Some h =>
           Style_addSelector (snd entry)
             (new_Selector (interpolate (fst entry) currentSelector)) h
       end)
    instances (Some root).

Definition registerUserStyles (container : Container) (styles : UserStyles)
  : option (string * Container) :=
  match stylize (depth styles) [] styles "&" (mkRegState container [] 0) with
  | None => None
  | Some st =>
      let currentClassName := hashToString (currentHash st) in
      let currentSelector := "." +:+ currentClassName in
      match addSelectors currentSelector (styleInstances st) (heap st) with
      | None => None
      | Some heap' => Some (currentClassName, heap')
      end
  end.

(** [create()] and [registerStyle] of the [FreeStyle] root; the module
    counter [id] is given and returned. *)
Record FreeStyle : Type := mkFreeStyle {
  FreeStyle_id : string;
  FreeStyle_container : Container
}.

Definition create (id : Z) : FreeStyle * Z :=
  (mkFreeStyle (hashToString (id + 1)) (mkCache [] ∅), id + 1).

Definition registerStyle (this : FreeStyle) (styles : UserStyles)
  : option (string * FreeStyle) :=
  match registerUserStyles (FreeStyle_container this) styles with
  | Some (className, c) => Some (className, mkFreeStyle (FreeStyle_id this) c)
  | None => None
  end.

Definition getStyles (this : FreeStyle) : string :=
  Container_getStyles (FreeStyle_container this).

(** * Specifications and reasoning devices

    Definitions that follow the words of the specification ([fold32],
    [hyphenate_spec]), the invariants of the cache and of the container
    tree, and the list of elementary operations a registration performs,
    used to reason about [registerUserStyles]. *)

(** The step of the hash as the specification words it: XOR the code unit
    into the 32-bit accumulator, then add the copies of the accumulator
    shifted left by 1, 4, 7, 8 and 24, on 32 bits. *)
Definition fold32 (acc code : Z) : Z :=
  let x := Z.lxor acc code in
  (x + (Z.shiftl x 1 + Z.shiftl x 4 + Z.shiftl x 7 + Z.shiftl x 8 + Z.shiftl x 24))
    mod 2 ^ 32.

(** Base 32: the digits [0-9a-v] and the number a string of digits
    denotes, most significant digit first. *)
Definition isDigit32 (c : ascii) : bool :=
  let n := JS.charCode c in
  ((48 <=? n) && (n <=? 57)) || ((97 <=? n) && (n <=? 118)).

Definition digitValue32 (c : ascii) : Z :=
  let n := JS.charCode c in if n <=? 57 then n - 48 else n - 87.

Fixpoint valueOf32 (s : string) (acc : Z) : Z :=
  match s with
  | EmptyString => acc
  | String c s' => valueOf32 s' (acc * 32 + digitValue32 c)
  end.

Fixpoint allChars (P : ascii -> bool) (s : string) : bool :=
  match s with
  | EmptyString => true
  | String c s' => P c && allChars P s'
  end.

(** Congruence modulo 2^32. *)
Definition eq32 (a b : Z) : Prop := exists k, a = b + k * 2 ^ 32.

(** Hyphenation as the specification words it: one pass that puts a hyphen
    before each capital letter and lower-cases, then the [ms] prefix. *)
Fixpoint hyphenCase (key : string) : string :=
  match key with
  | EmptyString => EmptyString
  | String c key' =>
      if JS.isUpperAZ c
      then String "-" (String (JS.toLowerCaseChar c) (hyphenCase key'))
      else String (JS.toLowerCaseChar c) (hyphenCase key')
  end.

Definition hyphenate_spec (key : string) : string :=
  if String.prefix "ms-" (hyphenCase key)
  then String "-" (hyphenCase key) else hyphenCase key.

(** What one sorted key contributes to either list of [parseUserStyles]. *)
Definition propertyOf (styles : UserStyles) (key : string) : Properties :=
  match Object_get styles key with
  | Some (Nest _) => []
  | Some (Prop_ value) => [(hyphenate (JS.trim key), value)]
  | None => [(hyphenate (JS.trim key), PVoid)]
  end.

Definition nestedOf (styles : UserStyles) (key : string) : NestedStyles :=
  match Object_get styles key with
  | Some (Nest value) => [(JS.trim key, value)]
  | _ => []
  end.

(** A call of [add] or [remove] on a cache. *)
Inductive CacheCall (T : Type) : Type :=
| CallAdd (style : T)
| CallRemove (style : T).
Arguments CallAdd {T} _.
Arguments CallRemove {T} _.

Section CacheCalls.
Context {T : Type} `{ICacheable T}.

Definition Cache_call (c : Cache T) (call : CacheCall T) : Cache T * list (Change T) :=
  match call with
  | CallAdd style => (snd (fst (Cache_add c style)), snd (Cache_add c style))
  | CallRemove style => Cache_remove c style
  end.

(** The cache a sequence of calls leaves, started on [c]. *)
Definition Cache_calls (calls : list (CacheCall T)) (c : Cache T) : Cache T :=
  fold_left (fun c call => fst (Cache_call c call)) calls c.

(** An entry is stored under its own id exactly when its count is positive,
    and at most once. *)
Record Cache_inv (c : Cache T) : Prop := mkCacheInv {
  inv_present : forall k, is_Some (Object_get (_cache c) k)
                          <-> (0 < default 0%nat (_cacheCount c !! k))%nat;
  inv_key : forall k x, Object_get (_cache c) k = Some x -> cache_id x = k;
  inv_nodup : NoDup (Object_keys (_cache c))
}.

End CacheCalls.

(** The container [r] refers to. *)
Fixpoint resolve (r : Ref) (root : Container) : option Container :=
  match r with
  | [] => Some root
  | key :: r' =>
      match Object_get (_cache root) key with
      | Some (IAtRule _ _ cache) => resolve r' cache
      | _ => None
      end
  end.

(** The mutations a registration performs, in order. *)
Inductive Op : Type :=
| OStyle (container : Ref) (styleString : string)
| OAtRule (container : Ref) (name : string)
| OSelector (style : StyleRef) (selector : string).

Definition exec (o : Op) (h : Container) : option Container :=
  match o with
  | OStyle p s => option_map snd (Container_addStyle p (new_Style s) h)
  | OAtRule p name => option_map snd (Container_addAtRule p (new_AtRule name) h)
  | OSelector r sel => Style_addSelector r (new_Selector sel) h
  end.

Definition run (ops : list Op) (h : Container) : option Container :=
  fold_left (fun acc o => match acc with Some h' => exec o h' | None => None end)
            ops (Some h).

(** The normalized content of a style tree: per layer, the compiled
    properties in sorted key order and the nested layers in sorted key
    order. *)
Inductive Layer : Type :=
| mkLayer (declarations : Properties) (children : list (string * Layer)).

Fixpoint normalize_fuel (fuel : nat) (styles : UserStyles) : Layer :=
  match fuel with
  | O => mkLayer [] []
  | S fuel' =>
      let parsed := parseUserStyles styles in
      mkLayer (properties parsed)
              (map (fun e => (fst e, normalize_fuel fuel' (snd e))) (nestedStyles parsed))
  end.

Definition normalize (styles : UserStyles) : Layer :=
  normalize_fuel (depth styles) styles.

(** The same style tree up to the order of the keys, at every level. *)
Inductive reordered : UserStyles -> UserStyles -> Prop :=
| reordered_intro (A B : UserStyles) :
    Object_keys A ≡ₚ Object_keys B ->
    (forall k v, Object_get A k = Some (Prop_ v) -> Object_get B k = Some (Prop_ v)) ->
    (forall k a, Object_get A k = Some (Nest a) ->
                 exists b, Object_get B k = Some (Nest b) /\ reordered a b) ->
    reordered A B.

(** The code-unit order of [sort], as a relation. *)
Definition leS (a b : string) : Prop := String.leb a b = true.

(** What [stylize] does on a layer, read off the normalized content. *)
Fixpoint layerOps (p : Ref) (L : Layer) : list Op :=
  match L with
  | mkLayer declarations children =>
      OStyle p (stringifyProperties declarations)
      :: flat_map
           (fun e =>
              if isAtRule (fst e)
              then OAtRule p (fst e)
                     :: layerOps (p ++ [Item_id (new_AtRule (fst e))]) (snd e)
              else layerOps p (snd e))
           children
  end.

Fixpoint layerInstances (p : Ref) (L : Layer) (selector : string)
  : list (string * StyleRef) :=
  match L with
  | mkLayer declarations children =>
      (selector, (p, Style_id (new_Style (stringifyProperties declarations))))
      :: flat_map
           (fun e =>
              if isAtRule (fst e)
              then layerInstances (p ++ [Item_id (new_AtRule (fst e))]) (snd e) selector
              else layerInstances p (snd e) (interpolate (fst e) selector))
           children
  end.

Fixpoint layerHash (L : Layer) (selector : string) (h : Z) : Z :=
  match L with
  | mkLayer declarations children =>
      fold_left
        (fun h e =>
           layerHash (snd e)
             (if isAtRule (fst e) then selector else interpolate (fst e) selector) h)
        children
        (hash (stringifyProperties declarations) (Some (hash selector (Some h))))
  end.

Definition selectorOps (currentSelector : string) (instances : list (string * StyleRef))
  : list Op :=
  map (fun e => OSelector (snd e) (interpolate (fst e) currentSelector)) instances.

Definition layerClassName (L : Layer) : string :=
  hashToString (layerHash L "&" 0).

Definition registrationOps (L : Layer) : list Op :=
  layerOps [] L
  ++ selectorOps ("." +:+ layerClassName L) (layerInstances [] L "&").

(** The state [stylize] reaches, from the operations of the layer. *)
Definition commit (L : Layer) (p : Ref) (selector : string) (st : RegState)
  : option RegState :=
  match run (layerOps p L) (heap st) with
  | Some h =>
      Some (mkRegState h (styleInstances st ++ layerInstances p L selector)
                       (layerHash L selector (currentHash st)))
  | None => None
  end.

(** A nested entry, normalized. *)
Definition normalizeEntry (fuel : nat) (e : string * UserStyles) : string * Layer :=
  (fst e, normalize_fuel fuel (snd e)).

(** The operations, instances and hash of the children of a layer. *)
Definition childOps (p : Ref) (e : string * Layer) : list Op :=
  if isAtRule (fst e)
  then OAtRule p (fst e) :: layerOps (p ++ [Item_id (new_AtRule (fst e))]) (snd e)
  else layerOps p (snd e).

Definition childInstances (p : Ref) (selector : string) (e : string * Layer)
  : list (string * StyleRef) :=
  if isAtRule (fst e)
  then layerInstances (p ++ [Item_id (new_AtRule (fst e))]) (snd e) selector
  else layerInstances p (snd e) (interpolate (fst e) selector).

Definition childHash (selector : string) (h : Z) (e : string * Layer) : Z :=
  layerHash (snd e) (if isAtRule (fst e) then selector else interpolate (fst e) selector) h.

(** The number [_cacheCount] holds for [k], 0 when it holds none. *)
Definition count_of {T : Type} (c : Cache T) (k : string) : nat :=
  default 0%nat (_cacheCount c !! k).

(** The id of a node is the tag of its class followed by the hash of its
    content. *)
Definition tag_ok (x : Item) : Prop :=
  match x with
  | IStyle s => Style_id s = "n" +:+ hashString (style s)
  | IAtRule id rule _ => id = "a" +:+ hashString rule
  end.

(** A well-formed container, one level and all the way down. *)
Definition wf1 (c : Container) : Prop :=
  Cache_inv c /\ forall k x, Object_get (_cache c) k = Some x -> tag_ok x.

Definition wf (root : Container) : Prop :=
  forall r c, resolve r root = Some c -> wf1 c.

(** Growth: counts only go up and stored nodes stay. *)
Definition item_le (x x' : Item) : Prop :=
  match x, x' with
  | IStyle s, IStyle s' =>
      forall k, (count_of (Style_cache s) k <= count_of (Style_cache s') k)%nat
  | IAtRule _ _ _, IAtRule _ _ _ => True
  | _, _ => False
  end.

Definition le1 (c c' : Container) : Prop :=
  (forall k, (count_of c k <= count_of c' k)%nat)
  /\ (forall k x, Object_get (_cache c) k = Some x ->
                  exists x', Object_get (_cache c') k = Some x' /\ item_le x x').

Definition le (h h' : Container) : Prop :=
  forall r c, resolve r h = Some c -> exists c', resolve r h' = Some c' /\ le1 c c'.

(** What a step on one container must satisfy for the tree to stay
    well-formed and to grow. *)
Record local_step (c c' : Container) : Prop := mkLocalStep {
  ls_wf : wf1 c';
  ls_le : le1 c c';
  ls_new : forall k id rule ch,
      Object_get (_cache c') k = Some (IAtRule id rule ch) ->
      Object_get (_cache c) k = Some (IAtRule id rule ch) \/ ch = mkCache [] ∅;
  ls_keep : forall k id rule ch,
      Object_get (_cache c) k = Some (IAtRule id rule ch) ->
      Object_get (_cache c') k = Some (IAtRule id rule ch)
}.

(** The three steps of a registration, on the container they touch. *)
Definition stepStyle (s : Style) (c : Container) : option Container :=
  match Cache_add c (IStyle s) with
  | (Some (IStyle _), c', _) => Some c'
  | _ => None
  end.

Definition stepAtRule (a : Item) (c : Container) : option Container :=
  match Cache_add c a with
  | (Some (IAtRule _ _ _), c', _) => Some c'
  | _ => None
  end.

Definition stepSelector (key : string) (sel : Selector) (c : Container) : option Container :=
  match Object_get (_cache c) key with
  | Some (IStyle s) =>
      let s' := mkStyle (Style_id s) (style s) (snd (fst (Cache_add (Style_cache s) sel))) in
      Some (mkCache (Object_set (_cache c) key (IStyle s')) (_cacheCount c))
  | _ => None
  end.

(** The node is stored and counted: the operation has been performed. *)
Definition performed (o : Op) (h : Container) : Prop :=
  match o with
  | OStyle p s =>
      exists c x, resolve p h = Some c
        /\ (0 < count_of c (Style_id (new_Style s)))%nat
        /\ Object_get (_cache c) (Style_id (new_Style s)) = Some (IStyle x)
  | OAtRule p name =>
      exists c id rule ch, resolve p h = Some c
        /\ (0 < count_of c (Item_id (new_AtRule name)))%nat
        /\ Object_get (_cache c) (Item_id (new_AtRule name)) = Some (IAtRule id rule ch)
  | OSelector r sel =>
      exists c s, resolve (fst r) h = Some c
        /\ Object_get (_cache c) (snd r) = Some (IStyle s)
        /\ (0 < count_of (Style_cache s) (Selector_id (new_Selector sel)))%nat
  end.

(** The operation finds the node it works on. *)
Definition ready (o : Op) (h : Container) : Prop :=
  match o with
  | OStyle p _ | OAtRule p _ => is_Some (resolve p h)
  | OSelector r _ =>
      exists c s, resolve (fst r) h = Some c /\ Object_get (_cache c) (snd r) = Some (IStyle s)
  end.

(** Induction on layers, with the property for every child. *)
Fixpoint Layer_induction (P : Layer -> Prop)
  (step : forall declarations children,
      Forall (fun e => P (snd e)) children -> P (mkLayer declarations children))
  (L : Layer) : P L :=
  match L with
  | mkLayer declarations children =>
      step declarations children
        ((fix all (l : list (string * Layer)) : Forall (fun e => P (snd e)) l :=
            match l with
            | [] => ListDef.Forall_nil _
            | e :: l' =>
                ListDef.Forall_cons (fun e => P (snd e)) e l'
                  (Layer_induction P step (snd e)) (all l')
            end) children)
  end.

(** Every style an instance refers to is stored. *)
Definition stored (h : Container) (e : string * StyleRef) : Prop :=
  ready (OSelector (snd e) EmptyString) h.

(** The root a sequence of registrations leaves. *)
Definition registerAll (trees : list UserStyles) (root : Container) : option Container :=
  fold_left
    (fun acc styles =>
       match acc with
       | Some h => option_map snd (registerUserStyles h styles)
       | None => None
       end)
    trees (Some root).

(** The style trees of the examples. *)
Definition ex_blue_red : UserStyles :=
  [("background", Prop_ (PString "blue")); ("color", Prop_ (PString "red"))]%string.

Definition ex_red_blue : UserStyles :=
  [("color", Prop_ (PString "red")); ("background", Prop_ (PString "blue"))]%string.

Definition ex_media : UserStyles :=
  [("@media (min-width: 500px)", Nest [("color", Prop_ (PString "blue"))]);
   ("color", Prop_ (PString "red"))]%string.

Definition ex_foo : UserStyles :=
  [("color", Prop_ (PString "red"));
   (".foo", Nest [("color", Prop_ (PString "red"))])]%string.

Definition ex_empty_media : UserStyles := [("@media print"%string, Nest [])].

(** A root on which a style tree has been registered. *)
Definition ex_root : Container :=
  match registerUserStyles (mkCache [] ∅) ex_media with
  | Some (_, root) => root
  | None => mkCache [] ∅
  end.

(** * The rest of the program

    [Cache.empty], the change listeners, the helpers [join] and [url] of
    [FreeStyle], and the definitions the further properties are stated
    with. *)

Section CacheEmpty.
Context {T : Type} `{ICacheable T}.

(** [while (len--) { this.remove(item) }]. *)
Fixpoint Cache_removeTimes (len : nat) (c : Cache T) (item : T)
  : Cache T * list (Change T) :=
  match len with
  | O => (c, [])
  | S len' =>
      let r1 := Cache_remove c item in
      let r2 := Cache_removeTimes len' (fst r1) item in
      (fst r2, snd r1 ++ snd r2)
  end.

(** One turn of the loop of [empty()] over the keys.  When the entry of a
    key is no longer there, the code reads the id of [undefined] and fails,
    or goes on with an inherited property in place of the item: [None],
    which no cache built by [add] and [remove] reaches.  [len--] is false at
    once of a count that is no number. *)
Definition Cache_emptyStep (acc : option (Cache T * list (Change T))) (key : string)
  : option (Cache T * list (Change T)) :=
  match acc with
  | None => None
  | Some (c, emitted) =>
      match Object_get (_cache c) key with
      | None => None
      | Some item =>
          let len := match Cache_count c item with Some count => count | None => O end in
          let r := Cache_removeTimes len c item in
          Some (fst r, emitted ++ snd r)
      end
  end.

(** [empty()]: the keys are listed once, before the loop. *)
Definition Cache_empty (c : Cache T) : option (Cache T * list (Change T)) :=
  fold_left Cache_emptyStep (Object_keys (_cache c)) (Some (c, [])).

End CacheEmpty.

(** A listener function, known by its identity. *)
Definition Listener : Type := nat.

(** [listeners.indexOf(fn)] and [listeners.splice(index, 1)]. *)
Fixpoint indexOf (fn : Listener) (listeners : list Listener) : option nat :=
  match listeners with
  | [] => None
  | g :: listeners' =>
      if Nat.eqb g fn then Some O else option_map S (indexOf fn listeners')
  end.

Definition splice1 (index : nat) (listeners : list Listener) : list Listener :=
  firstn index listeners ++ skipn (S index) listeners.

Definition addChangeListener (listeners : list Listener) (fn : Listener) : list Listener :=
  listeners ++ [fn].

Definition removeChangeListener (listeners : list Listener) (fn : Listener)
  : list Listener :=
  match indexOf fn listeners with
  | Some index => splice1 index listeners
  | None => listeners
  end.

(** [emitChange(type, style)]: the calls made, in order. *)
Definition emitChange {T : Type} (listeners : list Listener) (change : Change T)
  : list (Listener * Change T) :=
  map (fun listener => (listener, change)) listeners.

(** An argument of [join]: a string, an array of arguments, an object (its
    keys with the truthiness of their values), or null/undefined. *)
Inductive ClassValue : Type :=
| CString (s : string)
| CArray (values : list ClassValue)
| CObject (entries : list (string * bool))
| CVoid.

(** What one argument pushes on [classNames]. *)
Fixpoint classNamesOf (value : ClassValue) : list string :=
  match value with
  | CString s => [s]
  | CArray values => [JS.joinWith " " (flat_map classNamesOf values)]
  | CObject entries => map fst (List.filter snd entries)
  | CVoid => []
  end.

Definition FreeStyle_join (classList : list ClassValue) : string :=
  JS.joinWith " " (flat_map classNamesOf classList).

(** [encodeURI] on Latin-1: the characters left as they are, and the
    escape of a UTF-8 byte in upper-case hexadecimal. *)
Definition uriUnescaped (c : ascii) : bool :=
  let n := JS.charCode c in
  ((65 <=? n) && (n <=? 90)) || ((97 <=? n) && (n <=? 122)) || ((48 <=? n) && (n <=? 57))
  || JS.includesChar c ";/?:@&=+$,-_.!~*'()#".

Definition hexDigit (n : Z) : ascii :=
  if n <? 10 then JS.fromCharCode (48 + n) else JS.fromCharCode (55 + n).

Definition percentByte (byte : Z) : string :=
  String "%" (String (hexDigit (byte / 16)) (String (hexDigit (byte mod 16)) EmptyString)).

Definition encodeURIChar (c : ascii) : string :=
  let n := JS.charCode c in
  if uriUnescaped c then String c EmptyString
  else if n <? 128 then percentByte n
  else percentByte (192 + n / 64) +:+ percentByte (128 + n mod 64).

Fixpoint encodeURI (s : string) : string :=
  match s with
  | EmptyString => EmptyString
  | String c s' => encodeURIChar c +:+ encodeURI s'
  end.

(** The double quote. *)
Definition quote : ascii := "034"%char.

Definition FreeStyle_url (url : string) : string :=
  "url(" +:+ String quote (encodeURI url +:+ String quote ")").

(** A character that can stand in a double-quoted CSS string: printable
    ASCII other than the double quote and the backslash. *)
Definition cssStringSafe (c : ascii) : bool :=
  let n := JS.charCode c in
  (33 <=? n) && (n <=? 126) && negb (n =? 34) && negb (n =? 92).

(** The number of calls a change makes to [fn]. *)
Definition callsTo {T : Type} (fn : Listener) (calls : list (Listener * Change T)) : nat :=
  length (List.filter (fun call => Nat.eqb (fst call) fn) calls).

(** Each [&] of the selector replaced by the parent selector, as it is. *)
Fixpoint substituteParent (selector parentSelector : string) : string :=
  match selector with
  | EmptyString => EmptyString
  | String c selector' =>
      if Ascii.eqb c "&" then parentSelector +:+ substituteParent selector' parentSelector
      else String c (substituteParent selector' parentSelector)
  end.

Definition notUpperAZ (c : ascii) : bool := negb (JS.isUpperAZ c).

(** A stored node with its content: the id and the text it was built from. *)
Definition same_content (x x' : Item) : Prop :=
  match x, x' with
  | IStyle s, IStyle s' => Style_id s = Style_id s' /\ style s = style s'
  | IAtRule id rule _, IAtRule id' rule' _ => id = id' /\ rule = rule'
  | _, _ => False
  end.

(** Every node of [h] is still in [h'], under the same key of the same
    container, with the same content. *)
Definition keeps1 (c c' : Container) : Prop :=
  forall k x, Object_get (_cache c) k = Some x ->
              exists x', Object_get (_cache c') k = Some x' /\ same_content x x'.

Definition keeps (h h' : Container) : Prop :=
  forall r c, resolve r h = Some c -> exists c', resolve r h' = Some c' /\ keeps1 c c'.

(** A property value that writes no declaration: [null]/[undefined] or an
    empty array. *)
Definition writesNothing (value : PropertyValue) : bool :=
  match value with
  | PVoid | PStrings [] | PNumbers [] => true
  | _ => false
  end.

(** The number of places of [text] at which [block] starts. *)
Fixpoint occurrences (block text : string) : nat :=
  match text with
  | EmptyString => O
  | String _ text' =>
      ((if String.prefix block text then 1 else 0) + occurrences block text')%nat
  end.

Definition ex_print : UserStyles :=
  [("color", Prop_ (PString "red"));
   ("@media print", Nest [("color", Prop_ (PString "red"))])]%string.

(** * Verified properties *)

(** ** The hash *)

Lemma eq32_mod a b : eq32 a b <-> a mod 2 ^ 32 = b mod 2 ^ 32.
Proof.
  split.
  - intros [k ->]. apply Z.mod_add. lia.
  - intros E. exists (a / 2 ^ 32 - b / 2 ^ 32).
    pose proof (Z.div_mod a (2 ^ 32)) as Ha. pose proof (Z.div_mod b (2 ^ 32)) as Hb. lia.
Qed.

Lemma ToInt32_eq32 v : eq32 (JS.ToInt32 v) v.
Proof.
  unfold JS.ToInt32. exists (- ((v + 2 ^ 31) / 2 ^ 32)).
  pose proof (Z.div_mod (v + 2 ^ 31) (2 ^ 32)). lia.
Qed.

Lemma lxor_mod32 a b :
  Z.lxor a b mod 2 ^ 32 = Z.lxor (a mod 2 ^ 32) (b mod 2 ^ 32).
Proof.
  apply Z.bits_inj'. intros n Hn.
  destruct (Z_lt_le_dec n 32).
  - rewrite Z.mod_pow2_bits_low, !Z.lxor_spec, !Z.mod_pow2_bits_low by lia. reflexivity.
  - rewrite Z.mod_pow2_bits_high, Z.lxor_spec, !Z.mod_pow2_bits_high by lia. reflexivity.
Qed.

Lemma lxor_eq32 a a' b b' : eq32 a a' -> eq32 b b' -> eq32 (Z.lxor a b) (Z.lxor a' b').
Proof.
  rewrite !eq32_mod. intros Ha Hb. rewrite (lxor_mod32 a b), (lxor_mod32 a' b'). congruence.
Qed.

Lemma bitXor_eq32 a b : eq32 (JS.bitXor a b) (Z.lxor a b).
Proof.
  unfold JS.bitXor.
  destruct (ToInt32_eq32 (Z.lxor (JS.ToInt32 a) (JS.ToInt32 b))) as [k Hk].
  destruct (lxor_eq32 _ _ _ _ (ToInt32_eq32 a) (ToInt32_eq32 b)) as [k' Hk'].
  exists (k + k'). lia.
Qed.

Lemma shiftLeft_eq32 a k : 0 <= k -> eq32 (JS.shiftLeft a k) (a * 2 ^ k).
Proof.
  intros Hk. unfold JS.shiftLeft. rewrite Z.shiftl_mul_pow2 by lia.
  destruct (ToInt32_eq32 (JS.ToInt32 a * 2 ^ k)) as [k1 H1].
  destruct (ToInt32_eq32 a) as [k2 H2].
  exists (k1 + k2 * 2 ^ k). rewrite H1, H2. ring.
Qed.

Lemma hash_step_fold32 v v' c : eq32 v v' -> hash_step v c mod 2 ^ 32 = fold32 v' c.
Proof.
  intros Hv. unfold fold32. apply eq32_mod. unfold hash_step. cbv zeta.
  rewrite !Z.shiftl_mul_pow2 by lia.
  assert (Hx : eq32 (JS.bitXor v c) (Z.lxor v' c)).
  { destruct (bitXor_eq32 v c) as [k1 H1].
    destruct (lxor_eq32 v v' c c Hv) as [k2 H2]; [exists 0; lia|].
    exists (k1 + k2). lia. }
  set (x := JS.bitXor v c) in *. set (y := Z.lxor v' c) in *.
  destruct Hx as [k Hk].
  destruct (shiftLeft_eq32 x 1) as [k1 H1]; [lia|].
  destruct (shiftLeft_eq32 x 4) as [k4 H4]; [lia|].
  destruct (shiftLeft_eq32 x 7) as [k7 H7]; [lia|].
  destruct (shiftLeft_eq32 x 8) as [k8 H8]; [lia|].
  destruct (shiftLeft_eq32 x 24) as [k24 H24]; [lia|].
  exists (k1 + k4 + k7 + k8 + k24 + k * (1 + 2 ^ 1 + 2 ^ 4 + 2 ^ 7 + 2 ^ 8 + 2 ^ 24)).
  rewrite H1, H4, H7, H8, H24, Hk. ring.
Qed.

Lemma hash_fold32 codes : forall v,
  fold_left hash_step codes v mod 2 ^ 32 = fold_left fold32 codes (v mod 2 ^ 32).
Proof.
  induction codes as [|c codes IH]; intros v; simpl; [reflexivity|].
  rewrite IH. f_equal. rewrite (hash_step_fold32 v (v mod 2 ^ 32)).
  - reflexivity.
  - apply eq32_mod. rewrite Z.mod_mod by lia. reflexivity.
Qed.

Lemma digit32_table :
  forallb (fun d => isDigit32 (JS.digit32 d) && (digitValue32 (JS.digit32 d) =? d))
          (map Z.of_nat (seq 0 32)) = true.
Proof. vm_compute. reflexivity. Qed.

Lemma digit32_ok d :
  0 <= d < 32 -> isDigit32 (JS.digit32 d) = true /\ digitValue32 (JS.digit32 d) = d.
Proof.
  intros Hd. pose proof digit32_table as Ht.
  rewrite forallb_forall in Ht. specialize (Ht d).
  destruct (isDigit32 (JS.digit32 d)), (Z.eqb_spec (digitValue32 (JS.digit32 d)) d);
    try (split; [reflexivity|assumption]);
    exfalso; (assert (Hin : In d (map Z.of_nat (seq 0 32)));
      [apply in_map_iff; exists (Z.to_nat d); split; [lia|apply in_seq; lia]
      |specialize (Ht Hin); discriminate]).
Qed.

Lemma digits32_value fuel : forall n acc,
  0 <= n < 32 ^ Z.of_nat fuel ->
  valueOf32 (JS.digits32 fuel n acc) 0 = valueOf32 acc n.
Proof.
  induction fuel as [|fuel IH]; intros n acc Hn.
  - simpl in *. replace n with 0 by lia. reflexivity.
  - cbn [JS.digits32]. destruct (Z.ltb_spec n 32) as [Hlt|Hge].
    + cbn [valueOf32]. destruct (digit32_ok n) as [_ ->]; [lia|]. reflexivity.
    + rewrite IH.
      * cbn [valueOf32]. destruct (digit32_ok (n mod 32)) as [_ ->].
        { apply Z.mod_pos_bound. lia. }
        f_equal. pose proof (Z.div_mod n 32). lia.
      * rewrite Nat2Z.inj_succ, Z.pow_succ_r in Hn by lia.
        split; [apply Z.div_pos; lia|apply Z.div_lt_upper_bound; lia].
Qed.

Lemma digits32_chars fuel : forall n acc,
  0 <= n -> allChars isDigit32 acc = true ->
  allChars isDigit32 (JS.digits32 fuel n acc) = true.
Proof.
  induction fuel as [|fuel IH]; intros n acc Hn Hacc; cbn [JS.digits32]; [assumption|].
  destruct (Z.ltb_spec n 32) as [Hlt|Hge].
  - cbn [allChars]. destruct (digit32_ok n) as [-> _]; [lia|]. assumption.
  - apply IH; [apply Z.div_pos; lia|].
    cbn [allChars]. destruct (digit32_ok (n mod 32)) as [-> _]; [|assumption].
    apply Z.mod_pos_bound. lia.
Qed.

Lemma log2_fuel n : 0 <= n -> n < 32 ^ Z.of_nat (S (Z.to_nat (Z.log2 n))).
Proof.
  intros Hn. rewrite Nat2Z.inj_succ, Z2Nat.id by apply Z.log2_nonneg.
  destruct (Z.eq_dec n 0) as [->|Hz]; [reflexivity|].
  pose proof (Z.log2_spec n ltac:(lia)) as [_ Hlt].
  eapply Z.lt_le_trans; [exact Hlt|].
  apply Z.pow_le_mono_l. pose proof (Z.log2_nonneg n). lia.
Qed.

Lemma toString32_nonneg n :
  0 <= n ->
  allChars isDigit32 (JS.toString32 n) = true /\ valueOf32 (JS.toString32 n) 0 = n.
Proof.
  intros Hn. unfold JS.toString32.
  destruct (Z.ltb_spec n 0) as [?|_]; [lia|]. split.
  - apply digits32_chars; [assumption|reflexivity].
  - rewrite digits32_value; [reflexivity|]. split; [assumption|apply log2_fuel; assumption].
Qed.

Lemma hash_codes_range codes seed : 0 <= hash_codes codes seed < 2 ^ 32.
Proof. unfold hash_codes, JS.ToUint32. apply Z.mod_pos_bound. lia. Qed.

Lemma hash_codes_fold32 codes seed :
  hash_codes codes seed = fold_left fold32 codes (hash_seed seed mod 2 ^ 32).
Proof. unfold hash_codes, JS.ToUint32. apply hash_fold32. Qed.

(** C8.  The hash folds each code unit into a 32-bit accumulator: XOR, then
    the sum of the accumulator and its copies shifted left by 1, 4, 7, 8 and
    24, on 32 bits ([fold32]); it starts from 0x811c9dc5 when no seed is
    given; the result is an unsigned 32-bit integer, which [hashToString]
    writes in base 32 (digits 0-9 and a-v, value preserved); and the result
    of one call, when it is not 0, given as the seed of the next, continues
    the fold, so that chaining hashes the concatenation; a result of 0 is
    read as no seed by the next call, which starts again from 0x811c9dc5. *)
Theorem C8_hash_is_chained_fnv32_in_base32 (codes : list Z) (seed : option Z) :
  hash_seed None = 0x811c9dc5
  /\ hash_codes codes seed = fold_left fold32 codes (hash_seed seed mod 2 ^ 32)
  /\ 0 <= hash_codes codes seed < 2 ^ 32
  /\ allChars isDigit32 (hashToString (hash_codes codes seed)) = true
  /\ valueOf32 (hashToString (hash_codes codes seed)) 0 = hash_codes codes seed
  /\ (forall more : list Z,
        hash_codes codes seed <> 0 ->
        hash_codes more (Some (hash_codes codes seed)) = hash_codes (codes ++ more) seed)
  /\ (forall more : list Z,
        hash_codes codes seed = 0 ->
        hash_codes more (Some (hash_codes codes seed)) = hash_codes more None)
  /\ (forall str : string, hash str seed = hash_codes (JS.charCodes str) seed).
Proof.
  pose proof (hash_codes_range codes seed) as Hr.
  destruct (toString32_nonneg (hash_codes codes seed)) as [Hc Hv]; [lia|].
  split; [reflexivity|].
  split; [apply hash_codes_fold32|].
  split; [exact Hr|].
  split; [exact Hc|].
  split; [exact Hv|].
  split; [|split; [intros more ->; reflexivity|reflexivity]].
  intros more Hnz.
  rewrite (hash_codes_fold32 (codes ++ more)), fold_left_app, <- hash_codes_fold32.
  rewrite (hash_codes_fold32 more). f_equal.
  unfold hash_seed at 1.
  destruct (Z.eqb_spec (hash_codes codes seed) 0) as [?|_]; [contradiction|].
  apply Z.mod_small. exact Hr.
Qed.

Lemma C8_witness : hash "b" (Some (hash "a" None)) = hash "ab" None.
Proof.
  destruct (C8_hash_is_chained_fnv32_in_base32 (JS.charCodes "a") None)
    as (_ & _ & _ & _ & _ & Hchain & _).
  apply (Hchain (JS.charCodes "b")). vm_compute. discriminate.
Defined.

(** The hash of [ppkttia] is 0: given as the seed of the next call it is
    replaced by 0x811c9dc5, and the chain does not hash the
    concatenation. *)
Lemma C8_counterexample :
  hash "ppkttia" None = 0
  /\ hash "x" (Some (hash "ppkttia" None)) = hash "x" None
  /\ hash "x" (Some (hash "ppkttia" None)) <> hash ("ppkttia" +:+ "x") None.
Proof.
  split; [vm_compute; reflexivity|].
  split; [vm_compute; reflexivity|].
  vm_compute. discriminate.
Qed.

(** ** The property compiler *)

Lemma append_cons (x : ascii) (a b : string) : String x a +:+ b = String x (a +:+ b).
Proof. reflexivity. Qed.

Lemma append_assoc (a b c : string) : (a +:+ b) +:+ c = a +:+ (b +:+ c).
Proof.
  induction a as [|x a IH]; [reflexivity|].
  rewrite !append_cons, IH. reflexivity.
Qed.

Lemma join_app (l1 l2 : list string) : JS.join (l1 ++ l2) = JS.join l1 +:+ JS.join l2.
Proof.
  induction l1 as [|x l1 IH]; [reflexivity|].
  change (JS.join ((x :: l1) ++ l2)) with (x +:+ JS.join (l1 ++ l2)).
  change (JS.join (x :: l1)) with (x +:+ JS.join l1).
  rewrite IH, append_assoc. reflexivity.
Qed.

Lemma toLowerCase_insertHyphens key : JS.toLowerCase (insertHyphens key) = hyphenCase key.
Proof.
  induction key as [|c key IH]; simpl; [reflexivity|].
  destruct (JS.isUpperAZ c); simpl; rewrite IH; reflexivity.
Qed.

(** A character outside [[A-Z]] is [m], [s] or [-] exactly when its
    lower-case form is. *)
Lemma lower_ms_dash (c : ascii) :
  JS.isUpperAZ c = false ->
  (if ascii_dec "m" (JS.toLowerCaseChar c) then true else false)
  = (if ascii_dec "m" c then true else false)
  /\ (if ascii_dec "s" (JS.toLowerCaseChar c) then true else false)
     = (if ascii_dec "s" c then true else false)
  /\ (if ascii_dec "-" (JS.toLowerCaseChar c) then true else false)
     = (if ascii_dec "-" c then true else false).
Proof.
  destruct c as [b0 b1 b2 b3 b4 b5 b6 b7].
  destruct b0, b1, b2, b3, b4, b5, b6, b7; vm_compute; intros E;
    first [discriminate E | repeat split].
Qed.

Lemma prefix_empty (s : string) : String.prefix EmptyString s = true.
Proof. destruct s; reflexivity. Qed.

Lemma prefix_ms_hyphenCase key :
  String.prefix "ms-" (insertHyphens key) = String.prefix "ms-" (hyphenCase key).
Proof.
  destruct key as [|a key]; [reflexivity|]. cbn [insertHyphens hyphenCase].
  destruct (JS.isUpperAZ a) eqn:Ea; [reflexivity|].
  destruct (lower_ms_dash a Ea) as (Ha & _ & _).
  cbn [String.prefix].
  destruct (ascii_dec "m" (JS.toLowerCaseChar a)), (ascii_dec "m" a);
    try discriminate Ha; [|reflexivity].
  destruct key as [|b key]; [reflexivity|]. cbn [insertHyphens hyphenCase].
  destruct (JS.isUpperAZ b) eqn:Eb; [reflexivity|].
  destruct (lower_ms_dash b Eb) as (_ & Hb & _).
  cbn [String.prefix].
  destruct (ascii_dec "s" (JS.toLowerCaseChar b)), (ascii_dec "s" b);
    try discriminate Hb; [|reflexivity].
  destruct key as [|c key]; [reflexivity|]. cbn [insertHyphens hyphenCase].
  destruct (JS.isUpperAZ c) eqn:Ec; [reflexivity|].
  destruct (lower_ms_dash c Ec) as (_ & _ & Hc).
  cbn [String.prefix].
  destruct (ascii_dec "-" (JS.toLowerCaseChar c)), (ascii_dec "-" c);
    try discriminate Hc; rewrite ?prefix_empty; reflexivity.
Qed.

Lemma hyphenate_refines key : hyphenate key = hyphenate_spec key.
Proof.
  unfold hyphenate, hyphenate_spec, prefixMs.
  rewrite <- prefix_ms_hyphenCase.
  destruct (String.prefix "ms-" (insertHyphens key)); cbn [JS.toLowerCase];
    rewrite toLowerCase_insertHyphens; reflexivity.
Qed.

Lemma insertSorted_in x y l : In y (JS.insertSorted x l) <-> y = x \/ In y l.
Proof.
  induction l as [|z l IH]; simpl; [intuition|].
  destruct (String.leb x z); simpl; [intuition|]. rewrite IH. intuition.
Qed.

Lemma sort_in y l : In y (JS.sort l) <-> In y l.
Proof.
  induction l as [|x l IH]; simpl; [reflexivity|].
  rewrite insertSorted_in, IH. intuition.
Qed.

Lemma parse_fold styles keys : forall acc,
  fold_left (parseEntry styles) keys acc
  = mkParsed (properties acc ++ flat_map (propertyOf styles) keys)
             (nestedStyles acc ++ flat_map (nestedOf styles) keys).
Proof.
  induction keys as [|key keys IH]; intros [ps ns]; simpl.
  - rewrite !app_nil_r. reflexivity.
  - rewrite IH. unfold parseEntry, propertyOf, nestedOf.
    destruct (Object_get styles key) as [[v|v]|]; simpl;
      rewrite <- ?app_assoc, ?app_nil_r; reflexivity.
Qed.

Lemma parse_properties styles :
  properties (parseUserStyles styles)
  = flat_map (propertyOf styles) (JS.sort (Object_keys styles)).
Proof. unfold parseUserStyles. rewrite parse_fold. reflexivity. Qed.

Lemma parse_nestedStyles styles :
  nestedStyles (parseUserStyles styles)
  = flat_map (nestedOf styles) (JS.sort (Object_keys styles)).
Proof. unfold parseUserStyles. rewrite parse_fold. reflexivity. Qed.

(** C7.  Hyphenation is [hyphenate_spec]: a hyphen before each capital
    letter A-Z, everything lower-cased, and one more leading hyphen when the
    result starts with the segment [ms]; every name in the property list is
    the hyphenation of a trimmed key of the style object; [backgroundColor]
    becomes [background-color] and [{backgroundColor:'red'}] compiles to
    [background-color:red;]. *)
Theorem C7_property_keys_are_hyphenated :
  (forall key : string, hyphenate key = hyphenate_spec key)
  /\ (forall (styles : UserStyles) (name : string) (value : PropertyValue),
        In (name, value) (properties (parseUserStyles styles)) ->
        exists key, In key (Object_keys styles) /\ name = hyphenate_spec (JS.trim key))
  /\ hyphenate "backgroundColor" = "background-color"%string
  /\ hyphenate "msTransform" = "-ms-transform"%string
  /\ stringifyProperties
       (properties (parseUserStyles [("backgroundColor"%string, Prop_ (PString "red"))]))
     = "background-color:red;"%string.
Proof.
  split; [exact hyphenate_refines|].
  split; [|repeat split; reflexivity].
  intros styles name value Hin.
  rewrite parse_properties in Hin. apply in_flat_map in Hin as (key & Hkey & Hin).
  exists key. split; [apply (proj1 (sort_in _ _)) in Hkey; exact Hkey|].
  rewrite <- hyphenate_refines. unfold propertyOf in Hin.
  destruct (Object_get styles key) as [[v|v]|]; simpl in Hin;
    intuition congruence.
Qed.

Lemma C7_witness :
  exists key,
    In key (Object_keys [("backgroundColor"%string, Prop_ (PString "red"))])
    /\ "background-color"%string = hyphenate_spec (JS.trim key).
Proof.
  destruct C7_property_keys_are_hyphenated as (_ & Hrouted & _).
  apply (Hrouted _ _ (PString "red")). vm_compute. left. reflexivity.
Defined.

(** C6.  A null or absent value yields no character, so the property is
    omitted from the compiled declarations; an array yields one declaration
    [name:element;] per element, in array order, duplicates included; any
    other value yields the single declaration [name:value;]; and
    [{background:['red','linear-gradient(...)']}] compiles to the two
    [background:] declarations in array order. *)
Theorem C6_style_value_stringification (name : string) :
  styleToString name PVoid = EmptyString
  /\ (forall before after : Properties,
        stringifyProperties (before ++ (name, PVoid) :: after)
        = stringifyProperties (before ++ after))
  /\ (forall l : list string,
        styleToString name (PStrings l)
        = JS.join (map (fun element => name +:+ ":" +:+ element +:+ ";") l))
  /\ (forall l : list Z,
        styleToString name (PNumbers l)
        = JS.join (map (fun element => name +:+ ":" +:+ JS.numberToString element +:+ ";") l))
  /\ (forall value : string, styleToString name (PString value) = name +:+ ":" +:+ value +:+ ";")
  /\ (forall value : Z,
        styleToString name (PNumber value) = name +:+ ":" +:+ JS.numberToString value +:+ ";")
  /\ stringifyProperties
       (properties (parseUserStyles
          [("background"%string,
            Prop_ (PStrings ["red"; "linear-gradient(to right, red 0%, green 100%)"]%string))]))
     = "background:red;background:linear-gradient(to right, red 0%, green 100%);"%string.
Proof.
  split; [reflexivity|].
  split.
  { intros before after. unfold stringifyProperties.
    rewrite !map_app, !join_app. reflexivity. }
  repeat split; reflexivity.
Qed.

(** ** Objects as association lists *)

Section ObjectFacts.
Context {A : Type}.
Implicit Types (o : list (string * A)) (k : string) (v : A).

Lemma Object_get_set_eq o k v : Object_get (Object_set o k v) k = Some v.
Proof.
  induction o as [|[k0 v0] o IH]; simpl.
  - rewrite String.eqb_refl. reflexivity.
  - destruct (String.eqb_spec k0 k) as [->|Hne]; simpl.
    + rewrite String.eqb_refl. reflexivity.
    + destruct (String.eqb_spec k0 k); [contradiction|]. exact IH.
Qed.

Lemma Object_get_set_ne o k k' v :
  k <> k' -> Object_get (Object_set o k v) k' = Object_get o k'.
Proof.
  intros Hne. induction o as [|[k0 v0] o IH]; simpl.
  - destruct (String.eqb_spec k k'); [contradiction|]. reflexivity.
  - destruct (String.eqb_spec k0 k) as [->|Hk]; simpl.
    + destruct (String.eqb_spec k k'); [contradiction|]. reflexivity.
    + destruct (String.eqb_spec k0 k'); [reflexivity|]. exact IH.
Qed.

Lemma Object_get_delete_eq o k : Object_get (Object_delete o k) k = None.
Proof.
  induction o as [|[k0 v0] o IH]; simpl; [reflexivity|].
  destruct (String.eqb_spec k0 k) as [->|Hk]; simpl; [exact IH|].
  destruct (String.eqb_spec k0 k); [contradiction|]. exact IH.
Qed.

Lemma Object_get_delete_ne o k k' :
  k <> k' -> Object_get (Object_delete o k) k' = Object_get o k'.
Proof.
  intros Hne. induction o as [|[k0 v0] o IH]; simpl; [reflexivity|].
  destruct (String.eqb_spec k0 k) as [->|Hk]; simpl.
  - destruct (String.eqb_spec k k'); [contradiction|]. exact IH.
  - destruct (String.eqb_spec k0 k'); [reflexivity|]. exact IH.
Qed.

Lemma Object_get_keys o k : is_Some (Object_get o k) <-> In k (Object_keys o).
Proof.
  induction o as [|[k0 v0] o IH]; simpl.
  - split; [intros [? ?]; discriminate|intros []].
  - destruct (String.eqb_spec k0 k) as [->|Hk].
    + split; [left; reflexivity|eexists; reflexivity].
    + rewrite IH. split; [right; assumption|intros [?|?]; [contradiction|assumption]].
Qed.

Lemma Object_get_In o k v : Object_get o k = Some v -> In (k, v) o.
Proof.
  induction o as [|[k0 v0] o IH]; simpl; [discriminate|].
  destruct (String.eqb_spec k0 k) as [->|Hk].
  - intros [= ->]. left. reflexivity.
  - intros E. right. apply IH. exact E.
Qed.

Lemma Object_In_get o k v :
  NoDup (Object_keys o) -> In (k, v) o -> Object_get o k = Some v.
Proof.
  induction o as [|[k0 v0] o IH]; simpl; [intros _ []|].
  intros Hnd [E|Hin]; inversion Hnd as [|? ? Hnotin Hnd']; subst.
  - injection E as -> ->. rewrite String.eqb_refl. reflexivity.
  - destruct (String.eqb_spec k0 k) as [->|Hk].
    + exfalso. apply Hnotin. apply list_elem_of_In.
      change k with (fst (k, v)). apply in_map. exact Hin.
    + apply IH; assumption.
Qed.

Lemma Object_set_absent o k v :
  Object_get o k = None -> Object_set o k v = o ++ [(k, v)].
Proof.
  induction o as [|[k0 v0] o IH]; simpl; [reflexivity|].
  destruct (String.eqb_spec k0 k) as [->|Hk]; [discriminate|].
  intros E. rewrite IH by exact E. reflexivity.
Qed.

Lemma Object_set_keys_present o k v :
  is_Some (Object_get o k) -> Object_keys (Object_set o k v) = Object_keys o.
Proof.
  induction o as [|[k0 v0] o IH]; simpl; [intros [? ?]; discriminate|].
  destruct (String.eqb_spec k0 k) as [->|Hk]; [reflexivity|].
  intros E. simpl. rewrite IH by exact E. reflexivity.
Qed.

Lemma Object_delete_keys_in o k k' :
  In k' (Object_keys (Object_delete o k)) <-> k' <> k /\ In k' (Object_keys o).
Proof.
  induction o as [|[k0 v0] o IH]; simpl; [tauto|].
  destruct (String.eqb_spec k0 k) as [->|Hk]; simpl; rewrite IH.
  - split; [tauto|]. intros [Hne [E|Hin]]; [congruence|tauto].
  - split; [intros [<-|?]; tauto|tauto].
Qed.

Lemma Object_delete_nodup o k :
  NoDup (Object_keys o) -> NoDup (Object_keys (Object_delete o k)).
Proof.
  induction o as [|[k0 v0] o IH]; simpl; [trivial|].
  intros Hnd. inversion Hnd as [|? ? Hnotin Hnd']; subst.
  destruct (String.eqb_spec k0 k) as [->|Hk]; simpl; [apply IH; assumption|].
  constructor; [|apply IH; assumption].
  rewrite list_elem_of_In, Object_delete_keys_in. rewrite list_elem_of_In in Hnotin. tauto.
Qed.

Lemma Object_set_nodup o k v :
  NoDup (Object_keys o) -> NoDup (Object_keys (Object_set o k v)).
Proof.
  intros Hnd. destruct (Object_get o k) as [v0|] eqn:E.
  - rewrite Object_set_keys_present by (eexists; exact E). exact Hnd.
  - rewrite Object_set_absent by exact E. unfold Object_keys. rewrite map_app. simpl.
    apply NoDup_app. split; [exact Hnd|]. split; [|apply NoDup_singleton].
    intros k0 Hin Hk0. apply list_elem_of_singleton in Hk0 as ->.
    apply list_elem_of_In, Object_get_keys in Hin. rewrite E in Hin.
    destruct Hin; discriminate.
Qed.

End ObjectFacts.

(** ** The reference-counted cache *)

Section CacheFacts.
Context {T : Type} `{ICacheable T}.
Implicit Types (c : Cache T) (x y : T).

Lemma Cache_new_inv : Cache_inv (Cache_new (T := T)).
Proof.
  split; simpl.
  - intros k. rewrite lookup_empty. simpl. split; [intros [? ?]; discriminate|lia].
  - intros k x; discriminate.
  - constructor.
Qed.

Lemma Cache_count_plain c x :
  JS.inherited (cache_id x) = false -> Cache_count c x = Some (count_of c (cache_id x)).
Proof.
  intros Hp. unfold Cache_count, count_of. rewrite Hp.
  destruct (_cacheCount c !! cache_id x); reflexivity.
Qed.

Lemma Cache_count_own c x :
  (0 < count_of c (cache_id x))%nat -> Cache_count c x = Some (count_of c (cache_id x)).
Proof.
  unfold Cache_count, count_of.
  destruct (_cacheCount c !! cache_id x); simpl; [reflexivity|lia].
Qed.

Lemma Cache_count_inherited c x :
  JS.inherited (cache_id x) = true -> count_of c (cache_id x) = 0%nat ->
  Cache_count c x = None \/ Cache_count c x = Some 0%nat.
Proof.
  intros Hp. unfold Cache_count, count_of. rewrite Hp.
  destruct (_cacheCount c !! cache_id x); simpl; [intros ->; right; reflexivity|left; reflexivity].
Qed.

Lemma Cache_count_absent c x :
  Cache_inv c -> Object_get (_cache c) (cache_id x) = None <-> count_of c (cache_id x) = 0%nat.
Proof.
  intros Hinv. pose proof (inv_present c Hinv (cache_id x)) as Hp. unfold count_of.
  split.
  - intros E. rewrite E in Hp.
    destruct (default 0%nat (_cacheCount c !! cache_id x)); [reflexivity|].
    destruct (proj2 Hp ltac:(lia)); discriminate.
  - intros E. rewrite E in Hp. destruct (Object_get (_cache c) (cache_id x)); [|reflexivity].
    exfalso. assert (0 < 0)%nat by (apply Hp; eexists; reflexivity). lia.
Qed.

(** [add] on a count of zero. *)
Lemma Cache_add_first c x :
  Cache_inv c -> JS.inherited (cache_id x) = false -> count_of c (cache_id x) = 0%nat ->
  Cache_add c x
  = (Some x,
     mkCache (_cache c ++ [(cache_id x, x)]) (<[cache_id x := 1%nat]> (_cacheCount c)),
     [("add"%string, x)]).
Proof.
  intros Hinv Hp Hc. pose proof (proj2 (Cache_count_absent c x Hinv) Hc) as Habs.
  unfold Cache_add. rewrite (Cache_count_plain c x Hp), Hc. simpl.
  rewrite Object_get_set_eq, Object_set_absent by exact Habs. reflexivity.
Qed.

(** [add] of an item whose id names an inherited property. *)
Lemma Cache_add_inherited c x :
  Cache_inv c -> JS.inherited (cache_id x) = true -> count_of c (cache_id x) = 0%nat ->
  Cache_add c x = (None, c, [])
  \/ Cache_add c x
     = (Some x,
        mkCache (_cache c ++ [(cache_id x, x)]) (<[cache_id x := 1%nat]> (_cacheCount c)),
        [("add"%string, x)]).
Proof.
  intros Hinv Hp Hc. pose proof (proj2 (Cache_count_absent c x Hinv) Hc) as Habs.
  unfold Cache_add. destruct (Cache_count_inherited c x Hp Hc) as [->| ->].
  - left. rewrite Habs. reflexivity.
  - right. simpl. rewrite Object_get_set_eq, Object_set_absent by exact Habs. reflexivity.
Qed.

(** [add] on a positive count. *)
Lemma Cache_add_again c x :
  Cache_inv c -> (0 < count_of c (cache_id x))%nat ->
  exists y, Object_get (_cache c) (cache_id x) = Some y
    /\ Cache_add c x
       = (Some y,
          mkCache (_cache c) (<[cache_id x := S (count_of c (cache_id x))]> (_cacheCount c)),
          []).
Proof.
  intros Hinv Hc.
  destruct (proj2 (inv_present c Hinv (cache_id x)) Hc) as [y Hy].
  exists y. split; [exact Hy|].
  unfold Cache_add. rewrite (Cache_count_own c x Hc).
  destruct (count_of c (cache_id x)) as [|n] eqn:E; [lia|].
  simpl. rewrite Hy. repeat f_equal. lia.
Qed.

Lemma Cache_add_inv c x : Cache_inv c -> Cache_inv (snd (fst (Cache_add c x))).
Proof.
  intros Hinv. destruct (Nat.eq_dec (count_of c (cache_id x)) 0%nat) as [Hz|Hnz].
  - assert (E : Cache_add c x = (None, c, [])
               \/ Cache_add c x
                  = (Some x,
                     mkCache (_cache c ++ [(cache_id x, x)])
                             (<[cache_id x := 1%nat]> (_cacheCount c)),
                     [("add"%string, x)])).
    { destruct (JS.inherited (cache_id x)) eqn:Hp.
      - apply Cache_add_inherited; assumption.
      - right. apply Cache_add_first; assumption. }
    destruct E as [-> | ->]; [exact Hinv|]. simpl.
    pose proof (proj2 (Cache_count_absent c x Hinv) Hz) as Habs.
    rewrite <- Object_set_absent by exact Habs.
    split; simpl.
    + intros k. destruct (decide (cache_id x = k)) as [<-|Hne].
      * rewrite Object_get_set_eq, lookup_insert_eq. simpl.
        split; [lia|eexists; reflexivity].
      * rewrite Object_get_set_ne, lookup_insert_ne by exact Hne.
        apply (inv_present c Hinv).
    + intros k y. destruct (decide (cache_id x = k)) as [<-|Hne].
      * rewrite Object_get_set_eq. intros [= <-]. reflexivity.
      * rewrite Object_get_set_ne by exact Hne. apply (inv_key c Hinv).
    + apply Object_set_nodup, (inv_nodup c Hinv).
  - destruct (Cache_add_again c x Hinv ltac:(lia)) as (y & Hy & ->). simpl.
    split; simpl.
    + intros k. destruct (decide (cache_id x = k)) as [<-|Hne].
      * rewrite lookup_insert_eq, Hy. simpl. split; [lia|eexists; reflexivity].
      * rewrite lookup_insert_ne by exact Hne. apply (inv_present c Hinv).
    + apply (inv_key c Hinv).
    + apply (inv_nodup c Hinv).
Qed.

(** [remove] on a count of zero, of one, and above. *)
Lemma Cache_remove_absent c x :
  count_of c (cache_id x) = 0%nat -> Cache_remove c x = (c, []).
Proof.
  unfold count_of, Cache_remove.
  destruct (_cacheCount c !! cache_id x) as [[|n]|]; simpl; intros E;
    first [discriminate E | reflexivity].
Qed.

Lemma Cache_remove_last c x :
  count_of c (cache_id x) = 1%nat ->
  Cache_remove c x
  = (mkCache (Object_delete (_cache c) (cache_id x)) (<[cache_id x := 0%nat]> (_cacheCount c)),
     [("remove"%string, x)]).
Proof.
  unfold count_of, Cache_remove.
  destruct (_cacheCount c !! cache_id x) as [[|[|n]]|]; simpl; intros E;
    first [discriminate E | reflexivity].
Qed.

Lemma Cache_remove_more c x n :
  count_of c (cache_id x) = S (S n) ->
  Cache_remove c x
  = (mkCache (_cache c) (<[cache_id x := S n]> (_cacheCount c)), []).
Proof.
  unfold count_of, Cache_remove.
  destruct (_cacheCount c !! cache_id x) as [[|[|m]]|]; simpl; intros E;
    try discriminate E.
  injection E as ->. reflexivity.
Qed.

Lemma Cache_remove_inv c x : Cache_inv c -> Cache_inv (fst (Cache_remove c x)).
Proof.
  intros Hinv. destruct (count_of c (cache_id x)) as [|[|n]] eqn:E.
  - rewrite Cache_remove_absent by exact E. exact Hinv.
  - rewrite Cache_remove_last by exact E. split; simpl.
    + intros k. destruct (decide (cache_id x = k)) as [<-|Hne].
      * rewrite Object_get_delete_eq, lookup_insert_eq. simpl.
        split; [intros [? ?]; discriminate|lia].
      * rewrite Object_get_delete_ne, lookup_insert_ne by exact Hne.
        apply (inv_present c Hinv).
    + intros k y. destruct (decide (cache_id x = k)) as [<-|Hne].
      * rewrite Object_get_delete_eq. discriminate.
      * rewrite Object_get_delete_ne by exact Hne. apply (inv_key c Hinv).
    + apply Object_delete_nodup, (inv_nodup c Hinv).
  - rewrite (Cache_remove_more c x n) by exact E. split; simpl.
    + intros k. destruct (decide (cache_id x = k)) as [<-|Hne].
      * rewrite lookup_insert_eq. simpl.
        pose proof (inv_present c Hinv (cache_id x)) as Hp.
        unfold count_of in E. rewrite E in Hp. split; [lia|]. intros _. apply Hp. lia.
      * rewrite lookup_insert_ne by exact Hne. apply (inv_present c Hinv).
    + apply (inv_key c Hinv).
    + apply (inv_nodup c Hinv).
Qed.

Lemma Cache_calls_inv calls : forall c, Cache_inv c -> Cache_inv (Cache_calls calls c).
Proof.
  induction calls as [|call calls IH]; intros c Hinv; [exact Hinv|].
  apply IH. destruct call as [x|x]; simpl.
  - apply Cache_add_inv, Hinv.
  - apply Cache_remove_inv, Hinv.
Qed.

(** The stored values are the entries with a positive count. *)
Lemma Cache_values_count c x :
  Cache_inv c ->
  (0 < count_of c (cache_id x))%nat
  <-> exists y, In y (Cache_values c) /\ cache_id y = cache_id x.
Proof.
  intros Hinv. unfold count_of. rewrite <- (inv_present c Hinv). split.
  - intros [y Hy]. exists y. split; [|apply (inv_key c Hinv), Hy].
    apply Object_get_In in Hy. unfold Cache_values.
    change y with (snd (cache_id x, y)). apply in_map. exact Hy.
  - intros (y & Hin & Hid). unfold Cache_values in Hin.
    apply in_map_iff in Hin as ([k y'] & <- & Hin). simpl in Hid.
    apply Object_In_get in Hin; [|apply (inv_nodup c Hinv)].
    rewrite (inv_key c Hinv _ _ Hin) in Hid. subst k. eexists. exact Hin.
Qed.

End CacheFacts.

Section CacheClaims.
Context {T : Type} `{ICacheable T}.

(** C2.  In the cache any sequence of [add] and [remove] calls leaves, an
    entry is present ([has], [values], [_cache]) exactly when [has] holds,
    and [remove] of an item that [has] does not hold of changes nothing and
    emits nothing.  For an item whose id names no property inherited from
    [Object.prototype] the count is a number, positive exactly when the
    entry is present; [add] on a count of zero emits exactly one ["add"]
    change and sets the count to one, and emits nothing on a positive
    count; [remove] on a count of one deletes the entry and emits exactly
    one ["remove"] change, emits nothing on a larger count, and on a count
    of zero changes nothing and emits nothing. *)
Theorem C2_entry_present_iff_count_positive (calls : list (CacheCall T)) (x : T) :
  let c := Cache_calls calls Cache_new in
  (Cache_has c x = true <-> is_Some (Object_get (_cache c) (cache_id x)))
  /\ (Cache_has c x = true
      <-> exists y, In y (Cache_values c) /\ cache_id y = cache_id x)
  /\ (Cache_has c x = false -> Cache_remove c x = (c, []))
  /\ (JS.inherited (cache_id x) = false ->
      exists count,
        Cache_count c x = Some count
        /\ (Cache_has c x = true <-> (0 < count)%nat)
        /\ (count = 0%nat ->
            exists c', Cache_add c x = (Some x, c', [("add"%string, x)])
                       /\ Cache_count c' x = Some 1%nat /\ In x (Cache_values c'))
        /\ ((0 < count)%nat -> snd (Cache_add c x) = [])
        /\ (count = 1%nat ->
            exists c', Cache_remove c x = (c', [("remove"%string, x)])
                       /\ Cache_count c' x = Some 0%nat
                       /\ Object_get (_cache c') (cache_id x) = None
                       /\ Cache_has c' x = false)
        /\ ((1 < count)%nat -> snd (Cache_remove c x) = [])
        /\ (count = 0%nat -> Cache_remove c x = (c, []))).
Proof.
  intros c. assert (Hinv : Cache_inv c) by apply Cache_calls_inv, Cache_new_inv.
  assert (Hhas : Cache_has c x = true <-> (0 < count_of c (cache_id x))%nat).
  { unfold Cache_has, Cache_count, count_of.
    destruct (_cacheCount c !! cache_id x) as [n|]; simpl.
    - apply Nat.ltb_lt.
    - destruct (JS.inherited (cache_id x)); simpl; split; (discriminate || lia). }
  split; [rewrite Hhas; symmetry; apply (inv_present c Hinv)|].
  split; [rewrite Hhas; apply Cache_values_count, Hinv|].
  split.
  { intros Hf. apply Cache_remove_absent.
    destruct (count_of c (cache_id x)) as [|n] eqn:E; [reflexivity|].
    rewrite (proj2 Hhas) in Hf by lia. discriminate. }
  intros Hp. exists (count_of c (cache_id x)).
  split; [apply Cache_count_plain; exact Hp|].
  split; [exact Hhas|].
  split.
  { intros Hz. eexists. split; [apply Cache_add_first; assumption|].
    split; [unfold Cache_count; simpl; rewrite lookup_insert_eq; reflexivity|].
    unfold Cache_values. simpl. rewrite map_app. apply in_or_app. right. left. reflexivity. }
  split.
  { intros Hpos. destruct (Cache_add_again c x Hinv Hpos) as (y & _ & ->). reflexivity. }
  split.
  { intros H1. eexists. split; [apply Cache_remove_last; assumption|].
    split; [unfold Cache_count; simpl; rewrite lookup_insert_eq; reflexivity|].
    split; [apply Object_get_delete_eq|].
    unfold Cache_has, Cache_count. simpl. rewrite lookup_insert_eq. reflexivity. }
  split.
  { intros Hpos. destruct (count_of c (cache_id x)) as [|[|n]] eqn:E; [lia|lia|].
    rewrite (Cache_remove_more c x n E). reflexivity. }
  apply Cache_remove_absent.
Qed.

(** C3.  In the cache any sequence of calls leaves: when no entry has the
    id of [x], and that id names no property inherited from
    [Object.prototype], [add x] stores [x], sets its count to one, emits
    one ["add"] change and returns [x]; when an entry [y] has the id of
    [x], [add x] adds one to the count, emits nothing, leaves the stored
    entries as they are and returns [y], the instance already stored. *)
Theorem C3_add_stores_or_returns_stored (calls : list (CacheCall T)) (x : T) :
  let c := Cache_calls calls Cache_new in
  (JS.inherited (cache_id x) = false ->
   Object_get (_cache c) (cache_id x) = None ->
   exists c', Cache_add c x = (Some x, c', [("add"%string, x)])
              /\ Object_get (_cache c') (cache_id x) = Some x
              /\ Cache_count c' x = Some 1%nat)
  /\ (forall y : T,
        Object_get (_cache c) (cache_id x) = Some y ->
        exists c' count,
          Cache_count c x = Some count
          /\ Cache_add c x = (Some y, c', [])
          /\ Cache_count c' x = Some (S count)
          /\ _cache c' = _cache c).
Proof.
  intros c. assert (Hinv : Cache_inv c) by apply Cache_calls_inv, Cache_new_inv.
  split.
  - intros Hp Habs. apply (Cache_count_absent c x Hinv) in Habs as Hz.
    eexists. split; [apply Cache_add_first; assumption|].
    split; [simpl; rewrite <- Object_set_absent by exact Habs; apply Object_get_set_eq|].
    unfold Cache_count. simpl. rewrite lookup_insert_eq. reflexivity.
  - intros y Hy.
    assert (Hpos : (0 < count_of c (cache_id x))%nat).
    { apply (inv_present c Hinv). eexists. exact Hy. }
    destruct (Cache_add_again c x Hinv Hpos) as (y' & Hy' & ->).
    rewrite Hy in Hy'. injection Hy' as <-.
    eexists _, _. split; [apply Cache_count_own; exact Hpos|].
    split; [reflexivity|].
    split; [|reflexivity].
    unfold Cache_count. simpl. rewrite lookup_insert_eq. reflexivity.
Qed.

End CacheClaims.

Lemma C2_witness :
  exists c',
    Cache_add Cache_new (new_Selector ".a")
    = (Some (new_Selector ".a"), c', [("add"%string, new_Selector ".a")])
    /\ Cache_count c' (new_Selector ".a") = Some 1%nat
    /\ In (new_Selector ".a") (Cache_values c').
Proof.
  destruct (C2_entry_present_iff_count_positive [] (new_Selector ".a"))
    as (_ & _ & _ & Hplain).
  destruct (Hplain eq_refl) as (count & Hcount & _ & Hadd & _).
  apply Hadd. injection Hcount as <-. reflexivity.
Defined.

(** An item whose id is [constructor], added once to a new cache and never
    removed: [add] stores nothing and emits nothing, and [has] is false
    after it. *)
Lemma C2_counterexample :
  Cache_has (Cache_new (T := Selector)) (mkSelector "constructor" ".a") = false
  /\ Cache_add Cache_new (mkSelector "constructor" ".a") = (None, Cache_new, [])
  /\ Cache_has (Cache_calls [CallAdd (mkSelector "constructor" ".a")] Cache_new)
               (mkSelector "constructor" ".a") = false
  /\ Cache_values (Cache_calls [CallAdd (mkSelector "constructor" ".a")] Cache_new) = [].
Proof. repeat split. Qed.

Lemma C3_witness :
  (exists c',
      Cache_add Cache_new (mkSelector "s1" ".a")
      = (Some (mkSelector "s1" ".a"), c', [("add"%string, mkSelector "s1" ".a")])
      /\ Object_get (_cache c') "s1" = Some (mkSelector "s1" ".a")
      /\ Cache_count c' (mkSelector "s1" ".a") = Some 1%nat)
  /\ (exists c',
        Cache_add (Cache_calls [CallAdd (mkSelector "s1" ".a")] Cache_new)
                  (mkSelector "s1" ".b")
        = (Some (mkSelector "s1" ".a"), c', [])
        /\ Cache_count c' (mkSelector "s1" ".b") = Some 2%nat
        /\ _cache c' = [("s1"%string, mkSelector "s1" ".a")]).
Proof.
  split.
  - destruct (C3_add_stores_or_returns_stored [] (mkSelector "s1" ".a")) as [Hfirst _].
    apply Hfirst; reflexivity.
  - destruct (C3_add_stores_or_returns_stored [CallAdd (mkSelector "s1" ".a")]
                (mkSelector "s1" ".b")) as [_ Hagain].
    destruct (Hagain (mkSelector "s1" ".a") eq_refl)
      as (c' & count & Hc & Hadd & Hcount & Hsame).
    exists c'. split; [exact Hadd|]. split; [|exact Hsame].
    rewrite Hcount. injection Hc as <-. reflexivity.
Defined.

(** No entry has the id [constructor] in a new cache, and yet [add] of an
    item with that id does not store it, emits nothing and does not return
    it. *)
Lemma C3_counterexample :
  Object_get (_cache (Cache_new (T := Selector)))
             (cache_id (mkSelector "constructor" ".a")) = None
  /\ Cache_add Cache_new (mkSelector "constructor" ".a") = (None, Cache_new, []).
Proof. split; reflexivity. Qed.

(** ** Registration as a list of operations *)

Lemma run_none ops :
  fold_left (fun acc o => match acc with Some h' => exec o h' | None => None end)
            ops None = None.
Proof. induction ops as [|o ops IH]; simpl; [reflexivity|exact IH]. Qed.

Lemma run_cons o ops h :
  run (o :: ops) h = match exec o h with Some h' => run ops h' | None => None end.
Proof.
  unfold run. simpl. destruct (exec o h); [reflexivity|apply run_none].
Qed.

Lemma run_app ops1 ops2 h :
  run (ops1 ++ ops2) h
  = match run ops1 h with Some h' => run ops2 h' | None => None end.
Proof.
  unfold run. rewrite fold_left_app.
  destruct (fold_left _ ops1 (Some h)); [reflexivity|apply run_none].
Qed.

Lemma nested_depth styles e fuel :
  (depth styles <= S fuel)%nat -> In e (nestedStyles (parseUserStyles styles)) ->
  (depth (snd e) <= fuel)%nat.
Proof.
  intros Hd Hin. rewrite parse_nestedStyles in Hin.
  apply in_flat_map in Hin as (key & _ & Hin). unfold nestedOf in Hin.
  destruct (Object_get styles key) as [[v|v]|] eqn:E; simpl in Hin; try contradiction.
  destruct Hin as [<-|[]]. simpl.
  apply Object_get_In in E.
  unfold depth in Hd. cbn [depthValue] in Hd.
  assert (Hle : (depthValue (Nest v) <= list_max (map (fun p => depthValue (snd p)) styles))%nat).
  { pose proof (proj1 (list_max_le (map (fun p => depthValue (snd p)) styles) _)
                      (Nat.le_refl _)) as Hall.
    rewrite Forall_forall in Hall. apply Hall.
    apply list_elem_of_In. apply in_map_iff. exists (key, Nest v). split; [reflexivity|exact E]. }
  unfold depth. lia.
Qed.

Lemma depth_pos styles : (0 < depth styles)%nat.
Proof. unfold depth. simpl. lia. Qed.

Lemma stylizeNested_none rec p selector nested :
  fold_left (stylizeNested rec p selector) nested None = None.
Proof. induction nested as [|e nested IH]; [reflexivity|exact IH]. Qed.

Lemma layerOps_eq p declarations children :
  layerOps p (mkLayer declarations children)
  = OStyle p (stringifyProperties declarations) :: flat_map (childOps p) children.
Proof. reflexivity. Qed.

Lemma layerInstances_eq p declarations children selector :
  layerInstances p (mkLayer declarations children) selector
  = (selector, (p, Style_id (new_Style (stringifyProperties declarations))))
    :: flat_map (childInstances p selector) children.
Proof. reflexivity. Qed.

Lemma layerHash_eq declarations children selector h :
  layerHash (mkLayer declarations children) selector h
  = fold_left (childHash selector) children
      (hash (stringifyProperties declarations) (Some (hash selector (Some h)))).
Proof. reflexivity. Qed.

Section Nested.
Variable fuel : nat.
Variable p : Ref.
Variable selector : string.
Hypothesis IH : forall p styles selector st,
  (depth styles <= fuel)%nat ->
  stylize fuel p styles selector st = commit (normalize_fuel fuel styles) p selector st.

Lemma stylizeNested_commit nested : forall st,
  (forall e, In e nested -> (depth (snd e) <= fuel)%nat) ->
  fold_left (stylizeNested (stylize fuel) p selector) nested (Some st)
  = match run (flat_map (childOps p) (map (normalizeEntry fuel) nested)) (heap st) with
    | Some h =>
        Some (mkRegState h
                (styleInstances st
                 ++ flat_map (childInstances p selector) (map (normalizeEntry fuel) nested))
                (fold_left (childHash selector) (map (normalizeEntry fuel) nested)
                           (currentHash st)))
    | None => None
    end.
Proof.
  unfold normalizeEntry.
  induction nested as [|e nested IHn]; intros st Hn.
  - simpl. rewrite app_nil_r. destruct st; reflexivity.
  - assert (He : (depth (snd e) <= fuel)%nat) by (apply Hn; left; reflexivity).
    assert (Hn' : forall e', In e' nested -> (depth (snd e') <= fuel)%nat)
      by (intros e' He'; apply Hn; right; exact He').
    cbn [fold_left map flat_map]. rewrite run_app.
    unfold stylizeNested at 2. unfold childOps at 1, childInstances at 1, childHash at 2.
    cbn [fst snd].
    destruct (isAtRule (fst e)).
    + rewrite run_cons. cbn [exec]. unfold Container_addAtRule.
      destruct (Container_at p _ (heap st)) as [heap2|]; cbn [option_map snd];
        [|apply stylizeNested_none].
      rewrite IH by exact He. unfold commit. cbn [heap styleInstances currentHash].
      destruct (run (layerOps _ (normalize_fuel fuel (snd e))) heap2) as [heap3|];
        [|apply stylizeNested_none].
      rewrite IHn by exact Hn'. cbn [heap styleInstances currentHash].
      rewrite <- app_assoc. reflexivity.
    + rewrite IH by exact He. unfold commit.
      destruct (run (layerOps p (normalize_fuel fuel (snd e))) (heap st)) as [heap3|];
        [|apply stylizeNested_none].
      rewrite IHn by exact Hn'. cbn [heap styleInstances currentHash].
      rewrite <- app_assoc. reflexivity.
Qed.

End Nested.

Lemma stylize_commit fuel : forall p styles selector st,
  (depth styles <= fuel)%nat ->
  stylize fuel p styles selector st = commit (normalize_fuel fuel styles) p selector st.
Proof.
  induction fuel as [|fuel IH]; intros p styles selector st Hd.
  { pose proof (depth_pos styles). lia. }
  cbn [stylize normalize_fuel]. unfold commit.
  rewrite layerOps_eq, layerInstances_eq, layerHash_eq, run_cons.
  cbn [exec]. unfold Container_addStyle.
  destruct (Container_at p _ (heap st)) as [heap1|]; [|reflexivity].
  cbn [option_map snd].
  rewrite (stylizeNested_commit fuel p selector IH).
  - cbn [heap styleInstances currentHash].
    destruct (run _ heap1); [|reflexivity].
    rewrite <- app_assoc. reflexivity.
  - intros e. apply nested_depth. exact Hd.
Qed.

(** ** Well-formed trees and their growth *)

Lemma item_le_refl x : item_le x x.
Proof. destruct x; simpl; [intros k; lia|exact I]. Qed.

Lemma item_le_trans x y z : item_le x y -> item_le y z -> item_le x z.
Proof.
  destruct x, y, z; simpl; try tauto.
  intros H1 H2 k. specialize (H1 k). specialize (H2 k). lia.
Qed.

Lemma le1_refl c : le1 c c.
Proof.
  split; [intros k; lia|]. intros k x Hx. exists x. split; [exact Hx|apply item_le_refl].
Qed.

Lemma le1_trans a b c : le1 a b -> le1 b c -> le1 a c.
Proof.
  intros [Hc1 He1] [Hc2 He2]. split.
  - intros k. specialize (Hc1 k). specialize (Hc2 k). lia.
  - intros k x Hx. destruct (He1 k x Hx) as (y & Hy & Hxy).
    destruct (He2 k y Hy) as (z & Hz & Hyz).
    exists z. split; [exact Hz|eapply item_le_trans; eassumption].
Qed.

Lemma le_refl h : le h h.
Proof. intros r c Hc. exists c. split; [exact Hc|apply le1_refl]. Qed.

Lemma le_trans a b c : le a b -> le b c -> le a c.
Proof.
  intros H1 H2 r x Hx. destruct (H1 r x Hx) as (y & Hy & Hxy).
  destruct (H2 r y Hy) as (z & Hz & Hyz).
  exists z. split; [exact Hz|eapply le1_trans; eassumption].
Qed.

Lemma wf_child h k id rule ch :
  wf h -> Object_get (_cache h) k = Some (IAtRule id rule ch) -> wf ch.
Proof.
  intros Hwf Hk r c Hc. apply (Hwf (k :: r)). simpl. rewrite Hk. exact Hc.
Qed.

Lemma wf1_empty : wf1 (mkCache [] ∅).
Proof. split; [apply (Cache_new_inv (T := Item))|]. intros k x; discriminate. Qed.

Lemma wf_empty : wf (mkCache [] ∅).
Proof.
  intros [|k r] c; simpl; [intros [= <-]; apply wf1_empty|discriminate].
Qed.

(** Replacing the content of a stored at-rule in place. *)
Lemma wf1_set_child h k id rule ch ch' :
  wf1 h -> Object_get (_cache h) k = Some (IAtRule id rule ch) ->
  wf1 (mkCache (Object_set (_cache h) k (IAtRule id rule ch')) (_cacheCount h)).
Proof.
  intros [Hinv Htag] Hk. split; [split|]; simpl.
  - intros k0. rewrite <- (inv_present h Hinv k0).
    rewrite !Object_get_keys, Object_set_keys_present by (eexists; exact Hk). reflexivity.
  - intros k0 x. destruct (decide (k = k0)) as [<-|Hne].
    + rewrite Object_get_set_eq. intros [= <-]. apply (inv_key h Hinv _ _ Hk).
    + rewrite Object_get_set_ne by exact Hne. apply (inv_key h Hinv).
  - apply Object_set_nodup, (inv_nodup h Hinv).
  - intros k0 x. destruct (decide (k = k0)) as [<-|Hne].
    + rewrite Object_get_set_eq. intros [= <-]. apply (Htag _ _ Hk).
    + rewrite Object_get_set_ne by exact Hne. apply Htag.
Qed.

Lemma le1_set_child h k id rule ch ch' :
  Object_get (_cache h) k = Some (IAtRule id rule ch) ->
  le1 h (mkCache (Object_set (_cache h) k (IAtRule id rule ch')) (_cacheCount h)).
Proof.
  intros Hk. split; [intros k0; unfold count_of; simpl; lia|].
  intros k0 x Hx. simpl. destruct (decide (k = k0)) as [<-|Hne].
  - rewrite Object_get_set_eq. eexists. split; [reflexivity|].
    rewrite Hk in Hx. injection Hx as <-. exact I.
  - rewrite Object_get_set_ne by exact Hne. exists x. split; [exact Hx|apply item_le_refl].
Qed.

Section At.
Variable f : Container -> option Container.

Lemma Container_at_resolve p : forall h h',
  Container_at p f h = Some h' ->
  exists c c', resolve p h = Some c /\ f c = Some c' /\ resolve p h' = Some c'.
Proof.
  induction p as [|k p IH]; intros h h' Hat; simpl in *.
  - exists h, h'. repeat split; assumption.
  - destruct (Object_get (_cache h) k) as [[s|id rule ch]|] eqn:Hk; try discriminate.
    destruct (Container_at p f ch) as [ch'|] eqn:Hch; [|discriminate].
    injection Hat as <-. destruct (IH _ _ Hch) as (c & c' & Hc & Hf & Hc').
    exists c, c'. simpl. rewrite Object_get_set_eq. repeat split; assumption.
Qed.

Lemma Container_at_some p : forall h c c',
  resolve p h = Some c -> f c = Some c' -> is_Some (Container_at p f h).
Proof.
  induction p as [|k p IH]; intros h c c' Hc Hf; simpl in *.
  - injection Hc as ->. rewrite Hf. eexists; reflexivity.
  - destruct (Object_get (_cache h) k) as [[s|id rule ch]|] eqn:Hk; try discriminate.
    destruct (IH _ _ _ Hc Hf) as [ch' ->]. eexists; reflexivity.
Qed.

Hypothesis f_local : forall c c', wf1 c -> f c = Some c' -> local_step c c'.

Lemma Container_at_wf p : forall h h',
  wf h -> Container_at p f h = Some h' -> wf h'.
Proof.
  induction p as [|k p IH]; intros h h' Hwf Hat; simpl in Hat.
  - pose proof (f_local h h' (Hwf [] h eq_refl) Hat) as Hls.
    intros [|k r] c; simpl.
    + intros [= <-]. apply (ls_wf _ _ Hls).
    + destruct (Object_get (_cache h') k) as [[s|id rule ch]|] eqn:Hk; try discriminate.
      intros Hc. destruct (ls_new _ _ Hls _ _ _ _ Hk) as [Hold| ->].
      * apply (Hwf (k :: r)). simpl. rewrite Hold. exact Hc.
      * apply (wf_empty r). exact Hc.
  - destruct (Object_get (_cache h) k) as [[s|id rule ch]|] eqn:Hk; try discriminate.
    destruct (Container_at p f ch) as [ch'|] eqn:Hch; [|discriminate].
    injection Hat as <-.
    pose proof (IH _ _ (wf_child _ _ _ _ _ Hwf Hk) Hch) as Hwf'.
    intros [|k0 r] c; simpl.
    + intros [= <-]. eapply wf1_set_child; [apply (Hwf [] h eq_refl)|exact Hk].
    + destruct (decide (k = k0)) as [<-|Hne].
      * rewrite Object_get_set_eq. apply Hwf'.
      * rewrite Object_get_set_ne by exact Hne. apply (Hwf (k0 :: r)).
Qed.

Lemma Container_at_le p : forall h h',
  wf h -> Container_at p f h = Some h' -> le h h'.
Proof.
  induction p as [|k p IH]; intros h h' Hwf Hat; simpl in Hat.
  - pose proof (f_local h h' (Hwf [] h eq_refl) Hat) as Hls.
    intros [|k r] c; simpl.
    + intros [= <-]. exists h'. split; [reflexivity|apply (ls_le _ _ Hls)].
    + destruct (Object_get (_cache h) k) as [[s|id rule ch]|] eqn:Hk; try discriminate.
      intros Hc. rewrite (ls_keep _ _ Hls _ _ _ _ Hk).
      exists c. split; [exact Hc|apply le1_refl].
  - destruct (Object_get (_cache h) k) as [[s|id rule ch]|] eqn:Hk; try discriminate.
    destruct (Container_at p f ch) as [ch'|] eqn:Hch; [|discriminate].
    injection Hat as <-.
    pose proof (IH _ _ (wf_child _ _ _ _ _ Hwf Hk) Hch) as Hle.
    intros [|k0 r] c; simpl.
    + intros [= <-]. eexists. split; [reflexivity|]. eapply le1_set_child. exact Hk.
    + destruct (decide (k = k0)) as [<-|Hne].
      * rewrite Object_get_set_eq, Hk. apply Hle.
      * rewrite Object_get_set_ne by exact Hne.
        intros Hc. exists c. split; [exact Hc|apply le1_refl].
Qed.

End At.

(** ** The operations of a registration *)

Lemma Item_getStyles_AtRule id rule c :
  Item_getStyles (IAtRule id rule c) = rule +:+ "{" +:+ Container_getStyles c +:+ "}".
Proof.
  unfold Container_getStyles, Cache_values. rewrite map_map. reflexivity.
Qed.

Lemma getStyles_set (o : list (string * Item)) k x x' :
  Object_get o k = Some x -> Item_getStyles x' = Item_getStyles x ->
  map Item_getStyles (map snd (Object_set o k x')) = map Item_getStyles (map snd o).
Proof.
  intros Hget Heq. induction o as [|[k0 v0] o IH]; simpl in *; [discriminate|].
  destruct (String.eqb_spec k0 k) as [->|Hne]; simpl.
  - injection Hget as ->. rewrite Heq. reflexivity.
  - rewrite IH by exact Hget. reflexivity.
Qed.

Lemma Container_at_getStyles f p : forall h h',
  Container_at p f h = Some h' ->
  (forall c c', resolve p h = Some c -> f c = Some c' ->
                Container_getStyles c' = Container_getStyles c) ->
  Container_getStyles h' = Container_getStyles h.
Proof.
  induction p as [|k p IH]; intros h h' Hat Hf; simpl in Hat.
  - apply Hf; [reflexivity|exact Hat].
  - destruct (Object_get (_cache h) k) as [[s|id rule ch]|] eqn:Hk; try discriminate.
    destruct (Container_at p f ch) as [ch'|] eqn:Hch; [|discriminate].
    injection Hat as <-. unfold Container_getStyles, Cache_values. simpl. f_equal.
    apply (getStyles_set _ _ _ _ Hk). rewrite !Item_getStyles_AtRule.
    rewrite (IH _ _ Hch); [reflexivity|].
    intros c c' Hc. apply Hf. simpl. rewrite Hk. exact Hc.
Qed.

(** [add] read through the invariant of the cache. *)
Lemma Cache_add_cases {T : Type} `{ICacheable T} (c : Cache T) (x : T) :
  Cache_inv c ->
  (Object_get (_cache c) (cache_id x) = None
   /\ Cache_add c x
      = (Some x,
         mkCache (Object_set (_cache c) (cache_id x) x) (<[cache_id x := 1%nat]> (_cacheCount c)),
         [("add"%string, x)]))
  \/ (exists y, Object_get (_cache c) (cache_id x) = Some y
        /\ Cache_add c x
           = (Some y,
              mkCache (_cache c) (<[cache_id x := S (count_of c (cache_id x))]> (_cacheCount c)),
              []))
  \/ Cache_add c x = (None, c, []).
Proof.
  intros Hinv. destruct (Nat.eq_dec (count_of c (cache_id x)) 0%nat) as [Hz|Hnz].
  - pose proof (proj2 (Cache_count_absent c x Hinv) Hz) as Habs.
    assert (E : Cache_add c x = (None, c, [])
               \/ Cache_add c x
                  = (Some x,
                     mkCache (_cache c ++ [(cache_id x, x)])
                             (<[cache_id x := 1%nat]> (_cacheCount c)),
                     [("add"%string, x)])).
    { destruct (JS.inherited (cache_id x)) eqn:Hp.
      - apply Cache_add_inherited; assumption.
      - right. apply Cache_add_first; assumption. }
    destruct E as [E|E]; [right; right; exact E|].
    left. split; [exact Habs|]. rewrite E.
    rewrite Object_set_absent by exact Habs. reflexivity.
  - right. left. destruct (Cache_add_again c x Hinv ltac:(lia)) as (y & Hy & E).
    exists y. split; assumption.
Qed.

Lemma Cache_add_cases_plain {T : Type} `{ICacheable T} (c : Cache T) (x : T) :
  Cache_inv c -> JS.inherited (cache_id x) = false ->
  (Object_get (_cache c) (cache_id x) = None
   /\ Cache_add c x
      = (Some x,
         mkCache (Object_set (_cache c) (cache_id x) x) (<[cache_id x := 1%nat]> (_cacheCount c)),
         [("add"%string, x)]))
  \/ (exists y, Object_get (_cache c) (cache_id x) = Some y
        /\ Cache_add c x
           = (Some y,
              mkCache (_cache c) (<[cache_id x := S (count_of c (cache_id x))]> (_cacheCount c)),
              [])).
Proof.
  intros Hinv Hp. destruct (Cache_add_cases c x Hinv) as [E|[E|E]]; [left; exact E|right; exact E|].
  exfalso. destruct (Nat.eq_dec (count_of c (cache_id x)) 0%nat) as [Hz|Hnz].
  - rewrite Cache_add_first in E by assumption. discriminate.
  - destruct (Cache_add_again c x Hinv ltac:(lia)) as (y & _ & E'). congruence.
Qed.

(** The stored instance [add] returns is the entry under the id, whose
    count is positive afterwards. *)
Lemma Cache_add_result {T : Type} `{ICacheable T} (c c' : Cache T) (x : T) r ev :
  JS.inherited (cache_id x) = false ->
  Cache_add c x = (r, c', ev) ->
  Object_get (_cache c') (cache_id x) = r /\ (0 < count_of c' (cache_id x))%nat.
Proof.
  intros Hp. unfold Cache_add. rewrite (Cache_count_plain c x Hp). unfold count_of.
  destruct (default 0%nat (_cacheCount c !! cache_id x) =? 0)%nat;
    intros [= <- <- <-]; simpl; rewrite lookup_insert_eq; simpl; split;
    first [reflexivity | lia].
Qed.

Lemma Cache_add_returns {T : Type} `{ICacheable T} (c c' : Cache T) (x : T) r ev :
  Cache_add c x = (r, c', ev) -> Object_get (_cache c') (cache_id x) = r.
Proof.
  unfold Cache_add. destruct (Cache_count c x) as [count|];
    [destruct (count =? 0)%nat|]; intros [= <- <- <-]; reflexivity.
Qed.

Lemma Cache_add_count_le {T : Type} `{ICacheable T} (c : Cache T) (x : T) k :
  (count_of c k <= count_of (snd (fst (Cache_add c x))) k)%nat.
Proof.
  unfold Cache_add. destruct (Cache_count c x) as [count|] eqn:Ec; [|simpl; lia].
  assert (E : count = count_of c (cache_id x)).
  { unfold Cache_count, count_of in *.
    destruct (_cacheCount c !! cache_id x); simpl; [congruence|].
    destruct (JS.inherited (cache_id x)); simpl; congruence. }
  subst count. unfold count_of.
  destruct (default 0%nat (_cacheCount c !! cache_id x) =? 0)%nat eqn:E; simpl;
    (destruct (decide (cache_id x = k)) as [<-|Hne];
     [rewrite lookup_insert_eq; simpl; lia|rewrite lookup_insert_ne by exact Hne; lia]).
Qed.

Lemma Cache_add_keeps_cache {T : Type} `{ICacheable T} (c : Cache T) (x : T) :
  (0 < count_of c (cache_id x))%nat -> _cache (snd (fst (Cache_add c x))) = _cache c.
Proof.
  intros Hp. unfold Cache_add. rewrite (Cache_count_own c x Hp).
  destruct (Nat.eqb_spec (count_of c (cache_id x)) 0); [lia|].
  reflexivity.
Qed.

(** The ids of the nodes start with their tag, which no inherited property
    does. *)
Lemma new_Style_plain text : JS.inherited (cache_id (IStyle (new_Style text))) = false.
Proof. reflexivity. Qed.

Lemma new_AtRule_plain rule : JS.inherited (cache_id (new_AtRule rule)) = false.
Proof. reflexivity. Qed.

Lemma new_Selector_plain text : JS.inherited (cache_id (new_Selector text)) = false.
Proof. reflexivity. Qed.

Lemma tag_ok_plain (x : Item) : tag_ok x -> JS.inherited (cache_id x) = false.
Proof.
  destruct x as [s|id rule ch]; unfold tag_ok, cache_id, Item_cacheable; simpl;
    intros ->; reflexivity.
Qed.

(** Adding a freshly built node to a well-formed container. *)
Lemma Cache_add_local (c : Container) (x : Item) :
  wf1 c -> tag_ok x ->
  (forall id rule ch, x = IAtRule id rule ch -> ch = mkCache [] ∅) ->
  local_step c (snd (fst (Cache_add c x))).
Proof.
  intros [Hinv Htag] Hx Hnew.
  pose proof (Cache_add_inv c x Hinv) as Hinv'.
  destruct (Cache_add_cases c x Hinv) as [[Habs E]|[(y & Hy & E)|E]];
    [| |exfalso; destruct (Cache_add_result c c x None [] (tag_ok_plain x Hx) E) as [Hn Hc];
        apply (inv_present c Hinv) in Hc as [? Hc]; congruence];
    rewrite E in *; simpl in *.
  - split.
    + split; [exact Hinv'|]. simpl. intros k z.
      destruct (decide (cache_id x = k)) as [<-|Hne].
      * rewrite Object_get_set_eq. intros [= <-]. exact Hx.
      * rewrite Object_get_set_ne by exact Hne. apply Htag.
    + split.
      * intros k. pose proof (Cache_add_count_le c x k) as Hle. rewrite E in Hle. exact Hle.
      * intros k z Hz. exists z. split; [|apply item_le_refl]. simpl.
        rewrite Object_get_set_ne; [exact Hz|]. intros <-. congruence.
    + simpl. intros k id rule ch. destruct (decide (cache_id x = k)) as [<-|Hne].
      * rewrite Object_get_set_eq. intros [= ->]. right. eapply Hnew. reflexivity.
      * rewrite Object_get_set_ne by exact Hne. left. assumption.
    + simpl. intros k id rule ch Hk. rewrite Object_get_set_ne; [exact Hk|].
      intros <-. congruence.
  - split.
    + split; [exact Hinv'|exact Htag].
    + split.
      * intros k. pose proof (Cache_add_count_le c x k) as Hle. rewrite E in Hle. exact Hle.
      * intros k z Hz. exists z. split; [exact Hz|apply item_le_refl].
    + simpl. intros; left; assumption.
    + simpl. intros; assumption.
Qed.

Lemma exec_OStyle p s h :
  exec (OStyle p s) h = Container_at p (stepStyle (new_Style s)) h.
Proof.
  unfold exec, Container_addStyle. fold (stepStyle (new_Style s)).
  destruct (Container_at p _ h); reflexivity.
Qed.

Lemma exec_OAtRule p name h :
  exec (OAtRule p name) h = Container_at p (stepAtRule (new_AtRule name)) h.
Proof.
  unfold exec, Container_addAtRule. fold (stepAtRule (new_AtRule name)).
  destruct (Container_at p _ h); reflexivity.
Qed.

Lemma exec_OSelector r sel h :
  exec (OSelector r sel) h = Container_at (fst r) (stepSelector (snd r) (new_Selector sel)) h.
Proof. reflexivity. Qed.

Lemma stepStyle_inv s c c' :
  stepStyle s c = Some c' ->
  c' = snd (fst (Cache_add c (IStyle s)))
  /\ exists y, Object_get (_cache c') (Style_id s) = Some (IStyle y).
Proof.
  unfold stepStyle. destruct (Cache_add c (IStyle s)) as [[r c1] ev] eqn:E.
  destruct r as [[y|? ? ?]|]; try discriminate. intros [= <-].
  split; [reflexivity|]. exists y. apply (Cache_add_returns _ _ _ _ _ E).
Qed.

Lemma stepAtRule_inv a c c' :
  stepAtRule a c = Some c' ->
  c' = snd (fst (Cache_add c a))
  /\ exists id rule ch, Object_get (_cache c') (Item_id a) = Some (IAtRule id rule ch).
Proof.
  unfold stepAtRule. destruct (Cache_add c a) as [[r c1] ev] eqn:E.
  destruct r as [[y|id rule ch]|]; try discriminate. intros [= <-].
  split; [reflexivity|]. exists id, rule, ch. apply (Cache_add_returns _ _ _ _ _ E).
Qed.

Lemma stepStyle_local s c c' :
  wf1 c -> stepStyle (new_Style s) c = Some c' -> local_step c c'.
Proof.
  intros Hwf Hs. apply stepStyle_inv in Hs as [-> _].
  apply Cache_add_local; [exact Hwf|reflexivity|discriminate].
Qed.

Lemma stepAtRule_local name c c' :
  wf1 c -> stepAtRule (new_AtRule name) c = Some c' -> local_step c c'.
Proof.
  intros Hwf Hs. apply stepAtRule_inv in Hs as [-> _].
  apply Cache_add_local; [exact Hwf|reflexivity|]. intros id rule ch [= _ _ <-]. reflexivity.
Qed.

Lemma stepSelector_local key sel c c' :
  wf1 c -> stepSelector key sel c = Some c' -> local_step c c'.
Proof.
  intros [Hinv Htag] Hs. unfold stepSelector in Hs.
  destruct (Object_get (_cache c) key) as [[s|? ? ?]|] eqn:Hk; try discriminate.
  injection Hs as <-. split.
  - split; [split|]; simpl.
    + intros k0. rewrite <- (inv_present c Hinv k0).
      rewrite !Object_get_keys, Object_set_keys_present by (eexists; exact Hk). reflexivity.
    + intros k0 x. destruct (decide (key = k0)) as [<-|Hne].
      * rewrite Object_get_set_eq. intros [= <-]. apply (inv_key c Hinv _ _ Hk).
      * rewrite Object_get_set_ne by exact Hne. apply (inv_key c Hinv).
    + apply Object_set_nodup, (inv_nodup c Hinv).
    + intros k0 x. destruct (decide (key = k0)) as [<-|Hne].
      * rewrite Object_get_set_eq. intros [= <-]. apply (Htag _ _ Hk).
      * rewrite Object_get_set_ne by exact Hne. apply Htag.
  - split; [intros k0; unfold count_of; simpl; lia|].
    intros k0 x Hx. simpl. destruct (decide (key = k0)) as [<-|Hne].
    + rewrite Object_get_set_eq. eexists. split; [reflexivity|].
      rewrite Hk in Hx. injection Hx as <-. simpl. intros k1. apply Cache_add_count_le.
    + rewrite Object_get_set_ne by exact Hne. exists x. split; [exact Hx|apply item_le_refl].
  - simpl. intros k0 id rule ch. destruct (decide (key = k0)) as [<-|Hne].
    + rewrite Object_get_set_eq. discriminate.
    + rewrite Object_get_set_ne by exact Hne. left. assumption.
  - simpl. intros k0 id rule ch Hk0. rewrite Object_get_set_ne; [exact Hk0|].
    intros <-. congruence.
Qed.

Lemma performed_le o h h' : le h h' -> performed o h -> performed o h'.
Proof.
  intros Hle. destruct o as [p s|p name|r sel]; simpl.
  - intros (c & x & Hc & Hn & Hx). destruct (Hle _ _ Hc) as (c' & Hc' & Hcnt & Hent).
    destruct (Hent _ _ Hx) as ([x'|? ? ?] & Hx' & Hxx'); [|contradiction].
    exists c', x'. split; [exact Hc'|]. split; [|exact Hx'].
    eapply Nat.lt_le_trans; [exact Hn|apply Hcnt].
  - intros (c & id & rule & ch & Hc & Hn & Hx).
    destruct (Hle _ _ Hc) as (c' & Hc' & Hcnt & Hent).
    destruct (Hent _ _ Hx) as ([?|id' rule' ch'] & Hx' & Hxx'); [contradiction|].
    exists c', id', rule', ch'. split; [exact Hc'|]. split; [|exact Hx'].
    eapply Nat.lt_le_trans; [exact Hn|apply Hcnt].
  - intros (c & s & Hc & Hx & Hn). destruct (Hle _ _ Hc) as (c' & Hc' & Hcnt & Hent).
    destruct (Hent _ _ Hx) as ([s'|? ? ?] & Hx' & Hxx'); [|contradiction].
    exists c', s'. split; [exact Hc'|]. split; [exact Hx'|].
    eapply Nat.lt_le_trans; [exact Hn|apply Hxx'].
Qed.

Lemma ready_le o h h' : le h h' -> ready o h -> ready o h'.
Proof.
  intros Hle. destruct o as [p s|p name|r sel]; simpl.
  - intros [c Hc]. destruct (Hle _ _ Hc) as (c' & -> & _). eexists; reflexivity.
  - intros [c Hc]. destruct (Hle _ _ Hc) as (c' & -> & _). eexists; reflexivity.
  - intros (c & s & Hc & Hx). destruct (Hle _ _ Hc) as (c' & Hc' & _ & Hent).
    destruct (Hent _ _ Hx) as ([s'|? ? ?] & Hx' & Hxx'); [|contradiction].
    exists c', s'. split; assumption.
Qed.

(** An operation that succeeds leaves its mark, a larger and well-formed
    tree. *)
Lemma exec_first o h h' :
  wf h -> exec o h = Some h' -> performed o h' /\ le h h' /\ wf h'.
Proof.
  intros Hwf He. destruct o as [p s|p name|r sel].
  - rewrite exec_OStyle in He. split; [|split].
    + destruct (Container_at_resolve _ _ _ _ He) as (c & c' & Hc & Hf & Hc').
      pose proof Hf as Hf'. unfold stepStyle in Hf'.
      destruct (Cache_add c (IStyle (new_Style s))) as [[res c1] ev] eqn:E.
      destruct res as [[y|? ? ?]|]; try discriminate. injection Hf' as ->.
      destruct (Cache_add_result _ _ _ _ _ (new_Style_plain s) E) as [Hy Hn].
      exists c', y. repeat split; assumption.
    + eapply Container_at_le; [apply stepStyle_local|exact Hwf|exact He].
    + eapply Container_at_wf; [apply stepStyle_local|exact Hwf|exact He].
  - rewrite exec_OAtRule in He. split; [|split].
    + destruct (Container_at_resolve _ _ _ _ He) as (c & c' & Hc & Hf & Hc').
      pose proof Hf as Hf'. unfold stepAtRule in Hf'.
      destruct (Cache_add c (new_AtRule name)) as [[res c1] ev] eqn:E.
      destruct res as [[y|id rule ch]|]; try discriminate. injection Hf' as ->.
      destruct (Cache_add_result _ _ _ _ _ (new_AtRule_plain name) E) as [Hy Hn].
      exists c', id, rule, ch. repeat split; assumption.
    + eapply Container_at_le; [apply stepAtRule_local|exact Hwf|exact He].
    + eapply Container_at_wf; [apply stepAtRule_local|exact Hwf|exact He].
  - rewrite exec_OSelector in He. split; [|split].
    + destruct (Container_at_resolve _ _ _ _ He) as (c & c' & Hc & Hf & Hc').
      unfold stepSelector in Hf.
      destruct (Object_get (_cache c) (snd r)) as [[s|? ? ?]|] eqn:Hk; try discriminate.
      injection Hf as <-. eexists _, _. split; [exact Hc'|]. simpl.
      split; [apply Object_get_set_eq|]. simpl.
      destruct (Cache_add (Style_cache s) (new_Selector sel)) as [[res c1] ev] eqn:E.
      apply (Cache_add_result _ _ _ _ _ (new_Selector_plain sel) E).
    + eapply Container_at_le; [apply stepSelector_local|exact Hwf|exact He].
    + eapply Container_at_wf; [apply stepSelector_local|exact Hwf|exact He].
Qed.

Lemma Style_getStyles_add (s : Style) (sel : Selector) :
  (0 < count_of (Style_cache s) (cache_id sel))%nat ->
  Style_getStyles
    (mkStyle (Style_id s) (style s) (snd (fst (Cache_add (Style_cache s) sel))))
  = Style_getStyles s.
Proof.
  intros Hn. unfold Style_getStyles, Cache_values. cbn [style Style_cache].
  rewrite Cache_add_keeps_cache by exact Hn. reflexivity.
Qed.

(** An operation already performed succeeds again and leaves the rendering
    as it is. *)
Lemma exec_again o h :
  wf h -> performed o h ->
  exists h', exec o h = Some h' /\ Container_getStyles h' = Container_getStyles h.
Proof.
  intros Hwf Hp. destruct o as [p s|p name|r sel]; unfold performed in Hp.
  - destruct Hp as (c & x & Hc & Hn & Hx). rewrite exec_OStyle.
    destruct (Hwf _ _ Hc) as [Hinv _].
    destruct (Cache_add_again c (IStyle (new_Style s)) Hinv Hn) as (y & Hy & E).
    change (cache_id (IStyle (new_Style s))) with (Style_id (new_Style s)) in Hy.
    rewrite Hx in Hy. injection Hy as <-.
    assert (Hf : stepStyle (new_Style s) c
                 = Some (snd (fst (Cache_add c (IStyle (new_Style s))))))
      by (unfold stepStyle; rewrite E; reflexivity).
    destruct (Container_at_some _ _ _ _ _ Hc Hf) as [h' Hh']. exists h'. split; [exact Hh'|].
    apply (Container_at_getStyles _ _ _ _ Hh'). intros c0 c0' Hc0 Hf0.
    rewrite Hc in Hc0. injection Hc0 as <-. rewrite Hf in Hf0. injection Hf0 as <-.
    rewrite E. reflexivity.
  - destruct Hp as (c & id & rule & ch & Hc & Hn & Hx). rewrite exec_OAtRule.
    destruct (Hwf _ _ Hc) as [Hinv _].
    destruct (Cache_add_again c (new_AtRule name) Hinv Hn) as (y & Hy & E).
    change (cache_id (new_AtRule name)) with (Item_id (new_AtRule name)) in Hy.
    rewrite Hx in Hy. injection Hy as <-.
    assert (Hf : stepAtRule (new_AtRule name) c
                 = Some (snd (fst (Cache_add c (new_AtRule name)))))
      by (unfold stepAtRule; rewrite E; reflexivity).
    destruct (Container_at_some _ _ _ _ _ Hc Hf) as [h' Hh']. exists h'. split; [exact Hh'|].
    apply (Container_at_getStyles _ _ _ _ Hh'). intros c0 c0' Hc0 Hf0.
    rewrite Hc in Hc0. injection Hc0 as <-. rewrite Hf in Hf0. injection Hf0 as <-.
    rewrite E. reflexivity.
  - destruct Hp as (c & s & Hc & Hx & Hn). rewrite exec_OSelector.
    assert (Hf : is_Some (stepSelector (snd r) (new_Selector sel) c))
      by (unfold stepSelector; rewrite Hx; eexists; reflexivity).
    destruct Hf as [c' Hf].
    destruct (Container_at_some _ _ _ _ _ Hc Hf) as [h' Hh']. exists h'. split; [exact Hh'|].
    apply (Container_at_getStyles _ _ _ _ Hh'). intros c0 c0' Hc0 Hf0.
    rewrite Hc in Hc0. injection Hc0 as <-. unfold stepSelector in Hf0.
    rewrite Hx in Hf0. injection Hf0 as <-.
    unfold Container_getStyles, Cache_values. simpl. f_equal.
    apply (getStyles_set _ _ _ _ Hx). cbn [Item_getStyles].
    apply Style_getStyles_add. exact Hn.
Qed.

Lemma tag_n_a (t u : string) : "n" +:+ t <> "a" +:+ u.
Proof. discriminate. Qed.

(** An operation that finds its node succeeds on a well-formed tree. *)
Lemma exec_ready o h : wf h -> ready o h -> is_Some (exec o h).
Proof.
  intros Hwf Hr. destruct o as [p s|p name|r sel]; simpl in Hr.
  - destruct Hr as [c Hc]. rewrite exec_OStyle.
    destruct (Hwf _ _ Hc) as [Hinv Htag].
    assert (Hf : is_Some (stepStyle (new_Style s) c)).
    { unfold stepStyle.
      destruct (Cache_add_cases_plain c (IStyle (new_Style s)) Hinv (new_Style_plain s))
        as [[_ ->]|(y & Hy & ->)]; [eexists; reflexivity|].
      destruct y as [y|id rule ch]; [eexists; reflexivity|]. exfalso.
      pose proof (inv_key c Hinv _ _ Hy) as Hid. pose proof (Htag _ _ Hy) as Ht.
      simpl in Hid, Ht. unfold cache_id, Item_cacheable in Hid. simpl in Hid.
      rewrite Ht in Hid. symmetry in Hid. exact (tag_n_a _ _ Hid). }
    destruct Hf as [c' Hf]. exact (Container_at_some _ _ _ _ _ Hc Hf).
  - destruct Hr as [c Hc]. rewrite exec_OAtRule.
    destruct (Hwf _ _ Hc) as [Hinv Htag].
    assert (Hf : is_Some (stepAtRule (new_AtRule name) c)).
    { unfold stepAtRule.
      destruct (Cache_add_cases_plain c (new_AtRule name) Hinv (new_AtRule_plain name))
        as [[_ ->]|(y & Hy & ->)]; [eexists; reflexivity|].
      destruct y as [y|id rule ch]; [|eexists; reflexivity]. exfalso.
      pose proof (inv_key c Hinv _ _ Hy) as Hid. pose proof (Htag _ _ Hy) as Ht.
      simpl in Hid, Ht. unfold cache_id, Item_cacheable in Hid. simpl in Hid.
      rewrite Ht in Hid. exact (tag_n_a _ _ Hid). }
    destruct Hf as [c' Hf]. exact (Container_at_some _ _ _ _ _ Hc Hf).
  - destruct Hr as (c & s & Hc & Hx). rewrite exec_OSelector.
    assert (Hf : is_Some (stepSelector (snd r) (new_Selector sel) c))
      by (unfold stepSelector; rewrite Hx; eexists; reflexivity).
    destruct Hf as [c' Hf]. exact (Container_at_some _ _ _ _ _ Hc Hf).
Qed.

Lemma run_first ops : forall h h',
  wf h -> run ops h = Some h' -> le h h' /\ wf h'.
Proof.
  induction ops as [|o ops IH]; intros h h' Hwf Hr.
  - injection Hr as <-. split; [apply le_refl|exact Hwf].
  - rewrite run_cons in Hr. destruct (exec o h) as [h1|] eqn:E; [|discriminate].
    destruct (exec_first _ _ _ Hwf E) as (_ & Hle & Hwf1).
    destruct (IH _ _ Hwf1 Hr) as [Hle' Hwf']. split; [|exact Hwf'].
    eapply le_trans; eassumption.
Qed.

Lemma run_performed ops : forall h h',
  wf h -> run ops h = Some h' -> Forall (fun o => performed o h') ops.
Proof.
  induction ops as [|o ops IH]; intros h h' Hwf Hr; [constructor|].
  rewrite run_cons in Hr. destruct (exec o h) as [h1|] eqn:E; [|discriminate].
  destruct (exec_first _ _ _ Hwf E) as (Hp & Hle & Hwf1).
  constructor; [|exact (IH _ _ Hwf1 Hr)].
  apply (performed_le o h1); [apply (run_first _ _ _ Hwf1 Hr)|exact Hp].
Qed.

(** Operations that have all been performed run again without changing the
    rendering. *)
Lemma run_again ops : forall h,
  wf h -> Forall (fun o => performed o h) ops ->
  exists h', run ops h = Some h' /\ Container_getStyles h' = Container_getStyles h.
Proof.
  induction ops as [|o ops IH]; intros h Hwf Hall.
  - exists h. split; reflexivity.
  - inversion Hall as [|? ? Hp Hall']; subst.
    destruct (exec_again o h Hwf Hp) as (h1 & E & Hg).
    destruct (exec_first _ _ _ Hwf E) as (_ & Hle & Hwf1).
    destruct (IH h1 Hwf1) as (h' & Hr & Hg').
    { eapply Forall_impl; [exact Hall'|]. intros o'. apply performed_le. exact Hle. }
    exists h'. rewrite run_cons, E. split; [exact Hr|congruence].
Qed.

(** ** Registration always succeeds on a well-formed tree *)

Lemma resolve_snoc p k : forall h,
  resolve (p ++ [k]) h
  = match resolve p h with
    | Some c =>
        match Object_get (_cache c) k with
        | Some (IAtRule _ _ ch) => Some ch
        | _ => None
        end
    | None => None
    end.
Proof.
  induction p as [|k0 p IH]; intros h; simpl.
  - destruct (Object_get (_cache h) k) as [[?|? ? ?]|]; reflexivity.
  - destruct (Object_get (_cache h) k0) as [[?|? ? ?]|]; try reflexivity. apply IH.
Qed.

Lemma performed_AtRule_resolve p name h :
  performed (OAtRule p name) h -> is_Some (resolve (p ++ [Item_id (new_AtRule name)]) h).
Proof.
  intros (c & id & rule & ch & Hc & _ & Hx). rewrite resolve_snoc, Hc, Hx.
  eexists; reflexivity.
Qed.

Lemma performed_Style_ready p s sel h :
  performed (OStyle p s) h -> ready (OSelector (p, Style_id (new_Style s)) sel) h.
Proof. intros (c & x & Hc & _ & Hx). exists c, x. split; assumption. Qed.

Lemma resolve_le p h h' : le h h' -> is_Some (resolve p h) -> is_Some (resolve p h').
Proof. intros Hle [c Hc]. destruct (Hle _ _ Hc) as (c' & -> & _). eexists; reflexivity. Qed.

Lemma stored_le h h' e : le h h' -> stored h e -> stored h' e.
Proof. intros Hle. apply ready_le. exact Hle. Qed.

(** The operations of a layer succeed on a well-formed tree in which the
    container exists, and leave every style they refer to stored. *)
Lemma layerOps_total L : forall p selector h,
  wf h -> is_Some (resolve p h) ->
  exists h', run (layerOps p L) h = Some h'
    /\ Forall (stored h') (layerInstances p L selector).
Proof.
  induction L as [declarations children IHc] using Layer_induction.
  intros p selector h Hwf Hp.
  rewrite layerOps_eq, layerInstances_eq, run_cons.
  destruct (exec_ready (OStyle p (stringifyProperties declarations)) h Hwf Hp) as [h1 E1].
  rewrite E1. destruct (exec_first _ _ _ Hwf E1) as (Hperf & Hle1 & Hwf1).
  assert (Hst : stored h1 (selector, (p, Style_id (new_Style (stringifyProperties declarations)))))
    by (apply (performed_Style_ready _ _ EmptyString _ Hperf)).
  assert (Hp1 : is_Some (resolve p h1)) by (eapply resolve_le; eassumption).
  clear E1 Hperf Hle1 Hwf Hp h.
  enough (Hch : exists h', run (flat_map (childOps p) children) h1 = Some h'
                  /\ le h1 h'
                  /\ Forall (stored h') (flat_map (childInstances p selector) children)).
  { destruct Hch as (h' & Hr & Hle & Hall). exists h'. split; [exact Hr|].
    constructor; [eapply stored_le; eassumption|exact Hall]. }
  clear Hst. revert h1 Hwf1 Hp1.
  induction children as [|e children IHl]; intros h1 Hwf1 Hp1.
  - exists h1. split; [reflexivity|]. split; [apply le_refl|constructor].
  - inversion IHc as [|? ? IHe IHc']; subst. specialize (IHl IHc').
    cbn [flat_map]. rewrite run_app. unfold childOps at 1, childInstances at 1.
    destruct (isAtRule (fst e)).
    + rewrite run_cons.
      destruct (exec_ready (OAtRule p (fst e)) h1 Hwf1 Hp1) as [h2 E2]. rewrite E2.
      destruct (exec_first _ _ _ Hwf1 E2) as (Hperf & Hle2 & Hwf2).
      destruct (IHe (p ++ [Item_id (new_AtRule (fst e))]) selector h2 Hwf2
                    (performed_AtRule_resolve _ _ _ Hperf)) as (h3 & E3 & Hall3).
      rewrite E3. destruct (run_first _ _ _ Hwf2 E3) as [Hle3 Hwf3].
      destruct (IHl h3 Hwf3) as (h' & Er & Hle' & Hall').
      { eapply resolve_le; [exact Hle3|]. eapply resolve_le; eassumption. }
      exists h'. split; [exact Er|]. split.
      { eapply le_trans; [exact Hle2|]. eapply le_trans; eassumption. }
      apply Forall_app. split; [|exact Hall'].
      eapply Forall_impl; [exact Hall3|]. intros x. apply stored_le. exact Hle'.
    + destruct (IHe p (interpolate (fst e) selector) h1 Hwf1 Hp1) as (h3 & E3 & Hall3).
      rewrite E3. destruct (run_first _ _ _ Hwf1 E3) as [Hle3 Hwf3].
      destruct (IHl h3 Hwf3) as (h' & Er & Hle' & Hall').
      { eapply resolve_le; eassumption. }
      exists h'. split; [exact Er|]. split.
      { eapply le_trans; eassumption. }
      apply Forall_app. split; [|exact Hall'].
      eapply Forall_impl; [exact Hall3|]. intros x. apply stored_le. exact Hle'.
Qed.

Lemma selectorOps_total currentSelector instances : forall h,
  wf h -> Forall (stored h) instances ->
  is_Some (run (selectorOps currentSelector instances) h).
Proof.
  induction instances as [|e instances IH]; intros h Hwf Hall.
  - eexists; reflexivity.
  - inversion Hall as [|? ? He Hall']; subst. cbn [selectorOps map]. rewrite run_cons.
    destruct (exec_ready (OSelector (snd e) (interpolate (fst e) currentSelector)) h Hwf He)
      as [h1 E1].
    rewrite E1. destruct (exec_first _ _ _ Hwf E1) as (_ & Hle & Hwf1).
    apply IH; [exact Hwf1|].
    eapply Forall_impl; [exact Hall'|]. intros x. apply stored_le. exact Hle.
Qed.

Lemma registrationOps_total L h :
  wf h -> is_Some (run (registrationOps L) h).
Proof.
  intros Hwf. unfold registrationOps. rewrite run_app.
  destruct (layerOps_total L [] "&" h Hwf) as (h1 & E & Hall); [eexists; reflexivity|].
  rewrite E. apply selectorOps_total; [|exact Hall].
  exact (proj2 (run_first _ _ _ Hwf E)).
Qed.

Lemma addSelectors_run currentSelector instances h :
  addSelectors currentSelector instances h = run (selectorOps currentSelector instances) h.
Proof.
  unfold addSelectors, run, selectorOps. generalize (Some h).
  induction instances as [|e instances IH]; intros acc; [reflexivity|].
  simpl. rewrite <- IH. reflexivity.
Qed.

(** Registration runs the operations of the normalized tree. *)
Lemma registerUserStyles_run container styles :
  registerUserStyles container styles
  = match run (registrationOps (normalize styles)) container with
    | Some h => Some (layerClassName (normalize styles), h)
    | None => None
    end.
Proof.
  unfold registerUserStyles. rewrite stylize_commit by lia.
  unfold commit, registrationOps. fold (normalize styles). rewrite run_app.
  cbn [heap].
  destruct (run (layerOps [] (normalize styles)) container) as [h|]; [|reflexivity].
  cbn [heap styleInstances currentHash app]. rewrite addSelectors_run. reflexivity.
Qed.

Lemma registerUserStyles_wf container styles :
  wf container ->
  exists className container',
    registerUserStyles container styles = Some (className, container')
    /\ wf container' /\ le container container'.
Proof.
  intros Hwf. rewrite registerUserStyles_run.
  destruct (registrationOps_total (normalize styles) container Hwf) as [h E]. rewrite E.
  eexists _, h. split; [reflexivity|]. destruct (run_first _ _ _ Hwf E). split; assumption.
Qed.

Lemma filter_key_once {A : Type} (o : list (string * A)) (k : string) :
  NoDup (Object_keys o) -> In k (Object_keys o) ->
  length (filter (fun e => String.eqb (fst e) k) o) = 1%nat.
Proof.
  induction o as [|[k0 v0] o IH]; simpl; [intros _ []|].
  intros Hnd Hin. inversion Hnd as [|? ? Hnotin Hnd']; subst.
  rewrite list_elem_of_In in Hnotin.
  rewrite filter_cons. simpl.
  destruct (String.eqb_spec k0 k) as [->|Hne].
  - destruct (decide (true = true)); [|contradiction]. simpl. f_equal.
    clear IH Hin Hnd Hnd'. induction o as [|[k1 v1] o IH]; [reflexivity|].
    rewrite filter_cons. simpl in *.
    destruct (String.eqb_spec k1 k) as [->|Hne]; [tauto|].
    destruct (decide (false = true)); [discriminate|]. apply IH. tauto.
  - destruct (decide (false = true)); [discriminate|].
    apply IH; [exact Hnd'|]. destruct Hin; [contradiction|assumption].
Qed.

Lemma registerAll_wf trees : forall root,
  wf root -> exists root', registerAll trees root = Some root' /\ wf root'.
Proof.
  induction trees as [|styles trees IH]; intros root Hwf.
  - exists root. split; [reflexivity|exact Hwf].
  - destruct (registerUserStyles_wf root styles Hwf) as (cls & root1 & E & Hwf1 & _).
    destruct (IH root1 Hwf1) as (root' & E' & Hwf').
    exists root'. split; [|exact Hwf']. unfold registerAll in *. simpl. rewrite E. exact E'.
Qed.

Lemma registerAll_fresh_wf trees root :
  registerAll trees (mkCache [] ∅) = Some root -> wf root.
Proof.
  intros E. destruct (registerAll_wf trees _ wf_empty) as (root' & E' & Hwf).
  rewrite E in E'. injection E' as <-. exact Hwf.
Qed.

Lemma normalize_declarations styles :
  exists children, normalize styles = mkLayer (properties (parseUserStyles styles)) children.
Proof. unfold normalize, depth. cbn [depthValue normalize_fuel]. eexists. reflexivity. Qed.

(** ** Key order *)

Lemma ascii_compare_N a b : Ascii.compare a b = N.compare (N_of_ascii a) (N_of_ascii b).
Proof. reflexivity. Qed.

Lemma string_compare_lt_trans : forall a b c : string,
  String.compare a b = Lt -> String.compare b c = Lt -> String.compare a c = Lt.
Proof.
  induction a as [|x a IH]; intros [|y b] [|z c]; simpl; try discriminate; try reflexivity.
  rewrite !ascii_compare_N.
  destruct (N.compare_spec (N_of_ascii x) (N_of_ascii y)) as [Exy|Hxy|Hxy];
    try discriminate;
    destruct (N.compare_spec (N_of_ascii y) (N_of_ascii z)) as [Eyz|Hyz|Hyz];
    try discriminate; intros H1 H2.
  - rewrite Exy, Eyz, N.compare_refl. eapply IH; eassumption.
  - rewrite Exy. apply N.compare_lt_iff in Hyz. rewrite Hyz. reflexivity.
  - rewrite <- Eyz. apply N.compare_lt_iff in Hxy. rewrite Hxy. reflexivity.
  - assert (H : (N_of_ascii x < N_of_ascii z)%N) by lia.
    apply N.compare_lt_iff in H. rewrite H. reflexivity.
Qed.

Lemma leS_trans : Transitive leS.
Proof.
  intros a b c Hab Hbc. unfold leS, String.leb in *.
  destruct (String.compare a b) eqn:Eab;
    [apply compare_eq_iff in Eab; subst; exact Hbc| |discriminate].
  destruct (String.compare b c) eqn:Ebc;
    [apply compare_eq_iff in Ebc; subst; rewrite Eab; reflexivity
    |rewrite (string_compare_lt_trans _ _ _ Eab Ebc); reflexivity
    |discriminate].
Qed.

Lemma leS_antisym : AntiSymm (=) leS.
Proof. intros a b. apply leb_antisym. Qed.

Lemma insertSorted_perm x l : JS.insertSorted x l ≡ₚ x :: l.
Proof.
  induction l as [|y l IH]; simpl; [reflexivity|].
  destruct (String.leb x y); [reflexivity|]. rewrite IH. apply Permutation_swap.
Qed.

Lemma sort_perm l : JS.sort l ≡ₚ l.
Proof.
  induction l as [|x l IH]; simpl; [reflexivity|].
  rewrite insertSorted_perm, IH. reflexivity.
Qed.

Lemma insertSorted_sorted x l : Sorted leS l -> Sorted leS (JS.insertSorted x l).
Proof.
  induction l as [|y l IH]; simpl; intros Hs.
  - repeat constructor.
  - destruct (String.leb x y) eqn:E.
    + constructor; [exact Hs|]. constructor. exact E.
    + apply Sorted_inv in Hs as [Hs Hhd].
      assert (Hyx : leS y x) by (destruct (leb_total x y); [congruence|assumption]).
      constructor; [apply IH; exact Hs|].
      destruct l as [|z l]; simpl.
      * constructor. exact Hyx.
      * destruct (String.leb x z); constructor; [exact Hyx|].
        apply HdRel_inv in Hhd. exact Hhd.
Qed.

Lemma sort_sorted l : Sorted leS (JS.sort l).
Proof.
  induction l as [|x l IH]; simpl; [constructor|]. apply insertSorted_sorted, IH.
Qed.

(** Sorting forgets the order of the keys. *)
Lemma sort_permutation l1 l2 : l1 ≡ₚ l2 -> JS.sort l1 = JS.sort l2.
Proof.
  intros Hp.
  apply (@Sorted_unique _ leS leS_trans leS_antisym);
    [apply sort_sorted|apply sort_sorted|].
  rewrite !sort_perm. exact Hp.
Qed.

Lemma normalize_fuel_enough n : forall m styles,
  (depth styles <= n)%nat -> (depth styles <= m)%nat ->
  normalize_fuel n styles = normalize_fuel m styles.
Proof.
  induction n as [|n IH]; intros [|m] styles Hn Hm;
    try (pose proof (depth_pos styles); lia).
  cbn [normalize_fuel]. f_equal. apply map_ext_in. intros e He.
  f_equal. apply IH; eapply nested_depth; eassumption.
Qed.

Lemma reordered_normalize_fuel n : forall A B,
  (depth A <= n)%nat -> (depth B <= n)%nat -> reordered A B ->
  normalize_fuel n A = normalize_fuel n B.
Proof.
  induction n as [|n IH]; intros A B HA HB Hre;
    [pose proof (depth_pos A); lia|].
  destruct Hre as [A B Hkeys Hprop Hnest].
  cbn [normalize_fuel]. rewrite !parse_properties, !parse_nestedStyles.
  rewrite <- (sort_permutation _ _ Hkeys).
  assert (Hin : forall k, In k (JS.sort (Object_keys A)) -> is_Some (Object_get A k)).
  { intros k Hk. apply Object_get_keys. apply sort_in. exact Hk. }
  induction (JS.sort (Object_keys A)) as [|k keys IHk]; [reflexivity|].
  assert (Hk : is_Some (Object_get A k)) by (apply Hin; left; reflexivity).
  specialize (IHk (fun k' Hk' => Hin k' (or_intror Hk'))).
  injection IHk as IHp IHn.
  cbn [flat_map]. rewrite !map_app, IHp, IHn.
  destruct Hk as [[v|a] Hk].
  - pose proof (Hprop _ _ Hk) as HkB.
    unfold propertyOf, nestedOf. rewrite Hk, HkB. reflexivity.
  - destruct (Hnest _ _ Hk) as (b & HkB & Hab).
    assert (E : normalize_fuel n a = normalize_fuel n b);
      [|unfold propertyOf, nestedOf; rewrite Hk, HkB; simpl; rewrite E; reflexivity].
    apply IH; [| |exact Hab].
    + apply (nested_depth A (JS.trim k, a)); [exact HA|].
      rewrite parse_nestedStyles. apply in_flat_map. exists k.
      split; [apply sort_in, Object_get_keys; eexists; exact Hk|].
      unfold nestedOf. rewrite Hk. left. reflexivity.
    + apply (nested_depth B (JS.trim k, b)); [exact HB|].
      rewrite parse_nestedStyles. apply in_flat_map. exists k.
      split; [apply sort_in, Object_get_keys; eexists; exact HkB|].
      unfold nestedOf. rewrite HkB. left. reflexivity.
Qed.

(** Two trees that differ by the order of their keys have the same
    normalized content. *)
Lemma reordered_normalize A B : reordered A B -> normalize A = normalize B.
Proof.
  intros Hre. unfold normalize.
  rewrite (normalize_fuel_enough (depth A) (Nat.max (depth A) (depth B)) A) by lia.
  rewrite (normalize_fuel_enough (depth B) (Nat.max (depth A) (depth B)) B) by lia.
  apply reordered_normalize_fuel; [lia|lia|exact Hre].
Qed.

(** ** Registration of equal trees *)

(** The styles a registration refers to are each stored once in their
    container, in every larger well-formed tree. *)
Lemma stored_once h e :
  wf h -> stored h e ->
  exists c, resolve (fst (snd e)) h = Some c
    /\ length (filter (fun entry => String.eqb (fst entry) (snd (snd e))) (_cache c)) = 1%nat.
Proof.
  intros Hwf (c & s & Hc & Hs). exists c. split; [exact Hc|].
  destruct (Hwf _ _ Hc) as [Hinv _].
  apply filter_key_once; [apply (inv_nodup _ Hinv)|].
  apply Object_get_keys. eexists. exact Hs.
Qed.

Lemma registration_stored L h h' :
  wf h -> run (registrationOps L) h = Some h' ->
  Forall (stored h') (layerInstances [] L "&").
Proof.
  intros Hwf Hr. unfold registrationOps in Hr. rewrite run_app in Hr.
  destruct (layerOps_total L [] "&" h Hwf) as (h1 & E1 & Hall); [eexists; reflexivity|].
  rewrite E1 in Hr. destruct (run_first _ _ _ Hwf E1) as [_ Hwf1].
  destruct (run_first _ _ _ Hwf1 Hr) as [Hle _].
  eapply Forall_impl; [exact Hall|]. intros e. apply stored_le. exact Hle.
Qed.

(** ** What a registration keeps *)

Lemma Object_get_snoc {A : Type} (o : list (string * A)) k v :
  Object_get o k = None -> Object_get (o ++ [(k, v)]) k = Some v.
Proof.
  induction o as [|[k0 v0] o IH]; simpl.
  - intros _. rewrite String.eqb_refl. reflexivity.
  - destruct (String.eqb k0 k); [discriminate|]. exact IH.
Qed.

Lemma same_content_refl x : same_content x x.
Proof. destruct x; simpl; split; reflexivity. Qed.

Lemma same_content_trans x y z : same_content x y -> same_content y z -> same_content x z.
Proof.
  destruct x, y, z; simpl; try tauto; intros [-> ->] [-> ->]; split; reflexivity.
Qed.

Lemma keeps1_refl c : keeps1 c c.
Proof. intros k x Hx. exists x. split; [exact Hx|apply same_content_refl]. Qed.

Lemma keeps_refl h : keeps h h.
Proof. intros r c Hc. exists c. split; [exact Hc|apply keeps1_refl]. Qed.

Lemma keeps_trans a b c : keeps a b -> keeps b c -> keeps a c.
Proof.
  intros H1 H2 r x Hx. destruct (H1 r x Hx) as (y & Hy & Hxy).
  destruct (H2 r y Hy) as (z & Hz & Hyz). exists z. split; [exact Hz|].
  intros k n Hn. destruct (Hxy k n Hn) as (n' & Hn' & Hs).
  destruct (Hyz k n' Hn') as (n'' & Hn'' & Hs'). exists n''. split; [exact Hn''|].
  eapply same_content_trans; eassumption.
Qed.

Lemma Container_at_keeps f p : forall h h',
  wf h ->
  (forall c c', wf1 c -> f c = Some c' -> local_step c c' /\ keeps1 c c') ->
  Container_at p f h = Some h' -> keeps h h'.
Proof.
  induction p as [|k p IH]; intros h h' Hwf Hf Hat; simpl in Hat.
  - destruct (Hf h h' (Hwf [] h eq_refl) Hat) as [Hls Hk].
    intros [|k r] c; simpl.
    + intros [= <-]. exists h'. split; [reflexivity|exact Hk].
    + destruct (Object_get (_cache h) k) as [[s|id rule ch]|] eqn:Hg; try discriminate.
      intros Hc. rewrite (ls_keep _ _ Hls _ _ _ _ Hg).
      exists c. split; [exact Hc|apply keeps1_refl].
  - destruct (Object_get (_cache h) k) as [[s|id rule ch]|] eqn:Hg; try discriminate.
    destruct (Container_at p f ch) as [ch'|] eqn:Hch; [|discriminate].
    injection Hat as <-.
    pose proof (IH _ _ (wf_child _ _ _ _ _ Hwf Hg) Hf Hch) as Hkeep.
    intros [|k0 r] c; simpl.
    + intros [= <-]. eexists. split; [reflexivity|].
      intros k0 x Hx. simpl. destruct (decide (k = k0)) as [<-|Hne].
      * rewrite Object_get_set_eq. eexists. split; [reflexivity|].
        rewrite Hg in Hx. injection Hx as <-. simpl. split; reflexivity.
      * rewrite Object_get_set_ne by exact Hne. exists x. split; [exact Hx|].
        apply same_content_refl.
    + destruct (decide (k = k0)) as [<-|Hne].
      * rewrite Object_get_set_eq, Hg. apply Hkeep.
      * rewrite Object_get_set_ne by exact Hne.
        intros Hc. exists c. split; [exact Hc|apply keeps1_refl].
Qed.

Lemma Cache_add_keeps1 (c : Container) (x : Item) :
  wf1 c -> keeps1 c (snd (fst (Cache_add c x))).
Proof.
  intros [Hinv _] k y Hy.
  destruct (Cache_add_cases c x Hinv) as [[Habs ->]|[(y0 & _ & ->)| ->]]; simpl;
    [| |exists y; split; [exact Hy|apply same_content_refl]].
  - exists y. split; [|apply same_content_refl].
    rewrite Object_get_set_ne; [exact Hy|]. intros <-. congruence.
  - exists y. split; [exact Hy|apply same_content_refl].
Qed.

Lemma exec_keeps o h h' : wf h -> exec o h = Some h' -> keeps h h'.
Proof.
  intros Hwf He. destruct o as [p s|p name|r sel].
  - rewrite exec_OStyle in He. apply (Container_at_keeps _ _ _ _ Hwf) in He; [exact He|].
    intros c c' Hc Hs. split; [eapply stepStyle_local; eassumption|].
    apply stepStyle_inv in Hs as [-> _]. apply Cache_add_keeps1. exact Hc.
  - rewrite exec_OAtRule in He. apply (Container_at_keeps _ _ _ _ Hwf) in He; [exact He|].
    intros c c' Hc Hs. split; [eapply stepAtRule_local; eassumption|].
    apply stepAtRule_inv in Hs as [-> _]. apply Cache_add_keeps1. exact Hc.
  - rewrite exec_OSelector in He. apply (Container_at_keeps _ _ _ _ Hwf) in He; [exact He|].
    intros c c' Hc Hs. split; [eapply stepSelector_local; eassumption|].
    unfold stepSelector in Hs.
    destruct (Object_get (_cache c) (snd r)) as [[s|? ? ?]|] eqn:Hk; try discriminate.
    injection Hs as <-. intros k x Hx. simpl.
    destruct (decide (snd r = k)) as [<-|Hne].
    + rewrite Object_get_set_eq. eexists. split; [reflexivity|].
      rewrite Hk in Hx. injection Hx as <-. simpl. split; reflexivity.
    + rewrite Object_get_set_ne by exact Hne. exists x. split; [exact Hx|].
      apply same_content_refl.
Qed.

Lemma run_keeps ops : forall h h', wf h -> run ops h = Some h' -> keeps h h'.
Proof.
  induction ops as [|o ops IH]; intros h h' Hwf Hr.
  - injection Hr as <-. apply keeps_refl.
  - rewrite run_cons in Hr. destruct (exec o h) as [h1|] eqn:E; [|discriminate].
    destruct (exec_first _ _ _ Hwf E) as (_ & _ & Hwf1).
    eapply keeps_trans; [exact (exec_keeps _ _ _ Hwf E)|exact (IH _ _ Hwf1 Hr)].
Qed.

(** ** Equal trees *)

Lemma Object_get_split {A : Type} (o : list (string * A)) k v :
  NoDup (Object_keys o) -> Object_get o k = Some v ->
  exists l1 l2, o = l1 ++ (k, v) :: l2
    /\ forall k' v', In (k', v') (l1 ++ l2) -> k' <> k /\ Object_get o k' = Some v'.
Proof.
  intros Hnd Hget. pose proof (Object_get_In _ _ _ Hget) as Hin.
  apply in_split in Hin as (l1 & l2 & ->). exists l1, l2. split; [reflexivity|].
  intros k' v' Hin'.
  assert (Hin2 : In (k', v') (l1 ++ (k, v) :: l2)).
  { apply in_app_or in Hin' as [?|?]; apply in_or_app; [left|right; right]; assumption. }
  split; [|apply Object_In_get; assumption].
  intros ->. unfold Object_keys in Hnd. rewrite map_app in Hnd. simpl in Hnd.
  apply NoDup_app in Hnd as (_ & Hdisj & Hnd2).
  apply NoDup_cons in Hnd2 as [Hnotin _].
  apply in_app_or in Hin' as [Hin'|Hin'].
  - apply (Hdisj k).
    + apply list_elem_of_In. change k with (fst (k, v')). apply in_map. exact Hin'.
    + left.
  - apply Hnotin. apply list_elem_of_In. change k with (fst (k, v')). apply in_map. exact Hin'.
Qed.

(** A style stored in a well-formed container is rendered at one place of
    the container's text, between the renderings of the nodes stored before
    it and after it, none of which is a style with the same text. *)
Lemma stored_style_rendered_once (c : Container) (s : Style) :
  wf1 c -> Object_get (_cache c) (Style_id s) = Some (IStyle s) ->
  exists before after,
    Cache_values c = before ++ IStyle s :: after
    /\ (forall s', In (IStyle s') (before ++ after) -> style s' <> style s)
    /\ Container_getStyles c
       = JS.join (map Item_getStyles before)
         +:+ Style_getStyles s +:+ JS.join (map Item_getStyles after).
Proof.
  intros [Hinv Htag] Hget.
  destruct (Object_get_split _ _ _ (inv_nodup c Hinv) Hget) as (l1 & l2 & Ho & Hother).
  exists (map snd l1), (map snd l2).
  split; [unfold Cache_values; rewrite Ho, map_app; reflexivity|].
  split.
  - intros s' Hin Heq. rewrite <- map_app in Hin.
    apply in_map_iff in Hin as ([k' x'] & Hx & Hin). simpl in Hx. subst x'.
    destruct (Hother _ _ Hin) as [Hne Hget'].
    apply Hne. rewrite <- (inv_key c Hinv _ _ Hget').
    pose proof (Htag _ _ Hget') as Ht'. pose proof (Htag _ _ Hget) as Ht.
    simpl in Ht, Ht'. unfold cache_id, Item_cacheable. simpl. congruence.
  - unfold Container_getStyles, Cache_values. rewrite Ho, !map_app, join_app. reflexivity.
Qed.

Lemma Style_getStyles_text (s : Style) :
  style s <> EmptyString ->
  Style_getStyles s
  = JS.joinWith "," (map selector (Cache_values (Style_cache s)))
    +:+ "{" +:+ style s +:+ "}".
Proof. intros Hne. unfold Style_getStyles. destruct (style s); [contradiction|reflexivity]. Qed.

(** The style a registration adds under an id that was free keeps its
    text. *)
Lemma registration_keeps_new_text L root root1 declarations children :
  wf root -> L = mkLayer declarations children ->
  run (registrationOps L) root = Some root1 ->
  Object_get (_cache root) (Style_id (new_Style (stringifyProperties declarations))) = None ->
  exists s, Object_get (_cache root1) (Style_id (new_Style (stringifyProperties declarations)))
            = Some (IStyle s)
            /\ style s = stringifyProperties declarations.
Proof.
  intros Hwf -> Hrun Habs. unfold registrationOps in Hrun.
  rewrite layerOps_eq in Hrun. cbn [app] in Hrun. rewrite run_cons in Hrun.
  destruct (exec (OStyle [] (stringifyProperties declarations)) root) as [h1|] eqn:E;
    [|discriminate].
  destruct (exec_first _ _ _ Hwf E) as (_ & _ & Hwf1).
  rewrite exec_OStyle in E. cbn [Container_at] in E.
  apply stepStyle_inv in E as [-> _].
  destruct (Hwf [] root eq_refl) as [Hinv _].
  set (x := IStyle (new_Style (stringifyProperties declarations))) in *.
  assert (Hz : count_of root (cache_id x) = 0%nat)
    by (apply (Cache_count_absent root x Hinv); exact Habs).
  rewrite (Cache_add_first root x Hinv (new_Style_plain _) Hz) in Hrun, Hwf1.
  cbn [fst snd] in Hrun, Hwf1.
  destruct (run_keeps _ _ _ Hwf1 Hrun [] _ eq_refl) as (c' & Hc' & Hk).
  injection Hc' as <-.
  destruct (Hk (cache_id x) x) as (x' & Hx' & Hs).
  { cbn [_cache]. apply Object_get_snoc. exact Habs. }
  destruct x' as [s|? ? ?]; [|contradiction]. exists s. split; [exact Hx'|].
  destruct Hs as [_ Hs]. symmetry. exact Hs.
Qed.

(** C1.  On a well-formed root, two style trees with the same normalized
    content register to the same class name; registering the second after
    the first leaves the rendered CSS as the first left it; the root holds
    exactly one entry under the identity of the declaration block of the
    tree, a style, rendered at one place of the root's text, between the
    renderings of the nodes stored before and after it, none of which is a
    style with the same text.  When no style was stored under that identity
    before, the stored style has the declaration text of the tree, and when
    it has it and the text is not empty, it renders as its selectors
    followed by the declaration block.  Every style the registration
    recorded in [styleInstances] has one entry in its container too.  In
    particular [{background:'blue', color:'red'}] and
    [{color:'red', background:'blue'}] yield one class name and the single
    rule [background:blue;color:red;]. *)
Theorem C1_equal_normalized_trees_register_once
  (root : Container) (A B : UserStyles) :
  wf root ->
  normalize A = normalize B ->
  let text := stringifyProperties (properties (parseUserStyles A)) in
  (exists className root1 root2,
      registerUserStyles root A = Some (className, root1)
      /\ registerUserStyles root1 B = Some (className, root2)
      /\ Container_getStyles root2 = Container_getStyles root1
      /\ length (filter
                   (fun e => String.eqb (fst e) (Style_id (new_Style text)))
                   (_cache root2)) = 1%nat
      /\ (exists before s after,
            Cache_values root2 = before ++ IStyle s :: after
            /\ Style_id s = Style_id (new_Style text)
            /\ (forall s', In (IStyle s') (before ++ after) -> style s' <> style s)
            /\ Container_getStyles root2
               = JS.join (map Item_getStyles before)
                 +:+ Style_getStyles s +:+ JS.join (map Item_getStyles after)
            /\ (Object_get (_cache root) (Style_id (new_Style text)) = None ->
                style s = text)
            /\ (style s = text -> text <> EmptyString ->
                Style_getStyles s
                = JS.joinWith "," (map selector (Cache_values (Style_cache s)))
                  +:+ "{" +:+ text +:+ "}"))
      /\ (forall st selector container key,
            stylize (depth A) [] A "&" (mkRegState root [] 0) = Some st ->
            In (selector, (container, key)) (styleInstances st) ->
            exists c, resolve container root2 = Some c
              /\ length (filter (fun e => String.eqb (fst e) key) (_cache c)) = 1%nat))
  /\ (exists className this1 this2,
        registerStyle (fst (create 0)) ex_blue_red = Some (className, this1)
        /\ registerStyle this1 ex_red_blue = Some (className, this2)
        /\ getStyles this2 = "." +:+ className +:+ "{background:blue;color:red;}").
Proof.
  intros Hwf Hnorm text. split.
  - rewrite registerUserStyles_run.
    destruct (registrationOps_total (normalize A) root Hwf) as [root1 E1]. rewrite E1.
    destruct (run_first _ _ _ Hwf E1) as [_ Hwf1].
    pose proof (run_performed _ _ _ Hwf E1) as Hperf.
    destruct (run_again _ _ Hwf1 Hperf) as (root2 & E2 & Hg).
    destruct (run_first _ _ _ Hwf1 E2) as [Hle2 Hwf2].
    assert (Hstored : Forall (stored root2) (layerInstances [] (normalize A) "&")).
    { eapply Forall_impl; [exact (registration_stored _ _ _ Hwf E1)|].
      intros e. apply stored_le. exact Hle2. }
    destruct (normalize_declarations A) as [children EA].
    assert (Hfirst : stored root2 ("&"%string, ([], Style_id (new_Style text)))).
    { rewrite EA, layerInstances_eq in Hstored.
      inversion Hstored as [|? ? Hfirst _]; subst. exact Hfirst. }
    exists (layerClassName (normalize A)), root1, root2.
    split; [reflexivity|].
    split; [rewrite registerUserStyles_run, <- Hnorm, E2; reflexivity|].
    split; [exact Hg|].
    split.
    + destruct (stored_once _ _ Hwf2 Hfirst) as (c & Hc & Hlen).
      injection Hc as <-. exact Hlen.
    + split.
      * destruct Hfirst as (c & s & Hc & Hs). injection Hc as <-. cbn [snd] in Hs.
        pose proof (Hwf2 [] root2 eq_refl) as Hwf12. destruct Hwf12 as [Hinv2 Htag2].
        pose proof (inv_key root2 Hinv2 _ _ Hs) as Hid.
        change (cache_id (IStyle s)) with (Style_id s) in Hid.
        assert (Hs' : Object_get (_cache root2) (Style_id s) = Some (IStyle s))
          by (rewrite Hid; exact Hs).
        destruct (stored_style_rendered_once root2 s (conj Hinv2 Htag2) Hs')
          as (before & after & Hv & Hother & Hrender).
        exists before, s, after.
        split; [exact Hv|]. split; [exact Hid|]. split; [exact Hother|].
        split; [exact Hrender|]. split.
        -- intros Habs.
           destruct (registration_keeps_new_text _ root root1 _ _ Hwf EA E1 Habs)
             as (s1 & Hs1 & Ht1).
           destruct (run_keeps _ _ _ Hwf1 E2 [] _ eq_refl) as (c' & Hc' & Hk).
           injection Hc' as <-.
           destruct (Hk _ _ Hs1) as (x' & Hx' & Hsame).
           fold text in Hx'. rewrite Hs in Hx'. injection Hx' as <-.
           destruct Hsame as [_ Hsame]. fold text in Ht1. congruence.
        -- intros Ht Hne. rewrite <- Ht. apply Style_getStyles_text. rewrite Ht. exact Hne.
      * intros st selector container key Hst Hin.
        rewrite stylize_commit in Hst by lia. fold (normalize A) in Hst.
        unfold commit in Hst. cbn [heap styleInstances currentHash] in Hst.
        destruct (run (layerOps [] (normalize A)) root); [|discriminate].
        injection Hst as <-. cbn [styleInstances app] in Hin.
        rewrite Forall_forall in Hstored.
        apply list_elem_of_In in Hin.
        exact (stored_once _ _ Hwf2 (Hstored _ Hin)).
  - eexists _, _, _. split; [vm_compute; reflexivity|].
    split; vm_compute; reflexivity.
Qed.

Lemma C1_witness :
  exists className root1 root2 before s after,
    registerUserStyles ex_root ex_blue_red = Some (className, root1)
    /\ registerUserStyles root1 ex_red_blue = Some (className, root2)
    /\ Container_getStyles root2 = Container_getStyles root1
    /\ Cache_values root2 = before ++ IStyle s :: after
    /\ style s = "background:blue;color:red;"%string
    /\ Container_getStyles root2
       = JS.join (map Item_getStyles before)
         +:+ Style_getStyles s +:+ JS.join (map Item_getStyles after).
Proof.
  destruct (C1_equal_normalized_trees_register_once ex_root ex_blue_red ex_red_blue)
    as [(c & r1 & r2 & H1 & H2 & H3 & _ & (before & s & after & H4 & _ & _ & H5 & H6 & _) & _) _].
  - apply (registerAll_fresh_wf [ex_media]). vm_compute. reflexivity.
  - vm_compute. reflexivity.
  - exists c, r1, r2, before, s, after. repeat split; try assumption.
    apply H6. vm_compute. reflexivity.
Defined.

(** [{color:'red', '@media print': {color:'red'}}] registered twice on a
    new root: the same class name, and the declaration block is in the
    rendered CSS twice, at the top level and inside the at-rule. *)
Lemma C1_counterexample :
  exists className root1 root2,
    registerUserStyles (mkCache [] ∅) ex_print = Some (className, root1)
    /\ registerUserStyles root1 ex_print = Some (className, root2)
    /\ stringifyProperties (properties (parseUserStyles ex_print)) = "color:red;"%string
    /\ occurrences "{color:red;}" (Container_getStyles root2) = 2%nat.
Proof.
  eexists _, _, _. split; [vm_compute; reflexivity|].
  split; [vm_compute; reflexivity|]. split; vm_compute; reflexivity.
Qed.

(** ** Rendering *)

(** C4.  Registering
    [{'@media (min-width: 500px)': {color:'blue'}, color:'red'}] on a fresh
    root returns a class name [c] and the root renders as [.c{color:red;}]
    followed by [@media (min-width: 500px){.c{color:blue;}}]: the style of
    the layer is added first and the at-rule after it, under the same
    container, with the same selector inside, although the at-rule key
    sorts first. *)
Theorem C4_at_rule_block_follows_top_level_rule (id : Z) :
  JS.sort (Object_keys ex_media) = ["@media (min-width: 500px)"; "color"]%string
  /\ exists className this,
       registerStyle (fst (create id)) ex_media = Some (className, this)
       /\ getStyles this
          = "." +:+ className +:+ "{color:red;}"
            +:+ "@media (min-width: 500px){." +:+ className +:+ "{color:blue;}}"
       /\ Object_keys (_cache (FreeStyle_container this))
          = [Style_id (new_Style "color:red;");
             Item_id (new_AtRule "@media (min-width: 500px)")]
       /\ exists inner,
            resolve [Item_id (new_AtRule "@media (min-width: 500px)")]
                    (FreeStyle_container this) = Some inner
            /\ Container_getStyles inner = "." +:+ className +:+ "{color:blue;}".
Proof.
  split; [reflexivity|].
  unfold create, registerStyle, getStyles. cbn [fst FreeStyle_container].
  eexists _, _. split; [vm_compute; reflexivity|].
  cbn [FreeStyle_container].
  split; [vm_compute; reflexivity|].
  split; [vm_compute; reflexivity|].
  eexists. split; vm_compute; reflexivity.
Qed.

(** C5.  A style with no declaration text renders as the empty string,
    selectors or not; any other style renders as the selectors of its
    stored entries joined by commas, then its declarations in braces.
    Registering [{color:'red', '.foo': {color:'red'}}] stores one style
    shared by both layers, rendered as [.c,.c .foo{color:red;}]. *)
Theorem C5_style_renders_selectors_and_declarations :
  (forall s : Style, style s = EmptyString -> Style_getStyles s = EmptyString)
  /\ (forall s : Style,
        style s <> EmptyString ->
        Style_getStyles s
        = JS.joinWith "," (map selector (Cache_values (Style_cache s)))
          +:+ "{" +:+ style s +:+ "}")
  /\ (exists className this shared,
        registerStyle (fst (create 0)) ex_foo = Some (className, this)
        /\ Cache_values (FreeStyle_container this) = [IStyle shared]
        /\ map selector (Cache_values (Style_cache shared))
           = ["." +:+ className; "." +:+ className +:+ " .foo"]
        /\ getStyles this
           = "." +:+ className +:+ ",." +:+ className +:+ " .foo{color:red;}")
  /\ (exists className this empty,
        registerStyle (fst (create 0)) ex_empty_media = Some (className, this)
        /\ In (IStyle empty) (Cache_values (FreeStyle_container this))
        /\ style empty = EmptyString
        /\ map selector (Cache_values (Style_cache empty)) = ["." +:+ className]
        /\ Style_getStyles empty = EmptyString).
Proof.
  split; [intros s E; unfold Style_getStyles; rewrite E; reflexivity|].
  split.
  { intros s Hne. unfold Style_getStyles. destruct (style s); [contradiction|reflexivity]. }
  split.
  - eexists _, _, _. split; [vm_compute; reflexivity|].
    split; [vm_compute; reflexivity|]. split; vm_compute; reflexivity.
  - eexists _, _, _. split; [vm_compute; reflexivity|].
    split; [vm_compute; left; reflexivity|]. repeat split; vm_compute; reflexivity.
Qed.

Lemma C5_witness :
  Style_getStyles
    (mkStyle "n1" "color:red;"
       (mkCache [("s1", mkSelector "s1" ".a"); ("s2", mkSelector "s2" ".b")]%string ∅))
  = ".a,.b{color:red;}"%string.
Proof.
  rewrite (proj1 (proj2 C5_style_renders_selectors_and_declarations)).
  - reflexivity.
  - discriminate.
Defined.

Lemma join_all_empty (l : list string) :
  Forall (fun s => s = EmptyString) l -> JS.join l = EmptyString.
Proof.
  induction 1 as [|s l -> _ IH]; [reflexivity|].
  unfold JS.join in *. simpl. exact IH.
Qed.

(** C10.  An at-rule always renders as its rule text followed by the
    rendering of its children in braces, also when every child renders as
    the empty string: an at-rule whose only style has no declaration
    renders as [rule{}], not as the empty string. *)
Theorem C10_at_rule_always_wraps_its_children :
  (forall (id rule : string) (cache : Container),
      Item_getStyles (IAtRule id rule cache)
      = rule +:+ "{" +:+ Container_getStyles cache +:+ "}")
  /\ (forall (id rule : string) (cache : Container),
        Forall (fun x => Item_getStyles x = EmptyString) (Cache_values cache) ->
        Item_getStyles (IAtRule id rule cache) = rule +:+ "{}")
  /\ (exists className this id rule inner only,
        registerStyle (fst (create 0)) ex_empty_media = Some (className, this)
        /\ In (IAtRule id rule inner) (Cache_values (FreeStyle_container this))
        /\ Cache_values inner = [IStyle only]
        /\ style only = EmptyString
        /\ Item_getStyles (IAtRule id rule inner) = "@media print{}"%string
        /\ getStyles this = "@media print{}"%string).
Proof.
  split; [exact Item_getStyles_AtRule|].
  split.
  - intros id rule cache Hall. rewrite Item_getStyles_AtRule.
    unfold Container_getStyles. rewrite join_all_empty; [reflexivity|].
    apply Forall_map. exact Hall.
  - eexists _, _, _, _, _, _. split; [vm_compute; reflexivity|].
    split; [vm_compute; right; left; reflexivity|].
    repeat split; vm_compute; reflexivity.
Qed.

Lemma C10_witness :
  Item_getStyles (IAtRule "a1" "@media print"
                    (mkCache [("n1"%string, IStyle (mkStyle "n1" EmptyString Cache_new))] ∅))
  = "@media print{}"%string.
Proof.
  destruct C10_at_rule_always_wraps_its_children as (_ & Hempty & _).
  apply Hempty. repeat constructor.
Defined.



(** * Further properties *)

Section CacheMore.
Context {T : Type} `{ICacheable T}.
Implicit Types (c : Cache T) (x y : T).

Lemma Cache_count_lookup c c' y :
  _cacheCount c' !! cache_id y = _cacheCount c !! cache_id y ->
  Cache_count c' y = Cache_count c y.
Proof. unfold Cache_count. intros ->. reflexivity. Qed.

Lemma Cache_add_lookup_ne c x k :
  k <> cache_id x ->
  _cacheCount (snd (fst (Cache_add c x))) !! k = _cacheCount c !! k.
Proof.
  intros Hne. unfold Cache_add. destruct (Cache_count c x) as [count|]; [|reflexivity].
  destruct (count =? 0)%nat; simpl; apply lookup_insert_ne; congruence.
Qed.

Lemma Cache_remove_lookup_ne c x k :
  k <> cache_id x ->
  _cacheCount (fst (Cache_remove c x)) !! k = _cacheCount c !! k.
Proof.
  intros Hne. unfold Cache_remove.
  destruct (_cacheCount c !! cache_id x) as [[|n]|]; try reflexivity.
  destruct (S n =? 1)%nat; simpl; apply lookup_insert_ne; congruence.
Qed.

Lemma Cache_calls_lookup_ne calls : forall c k,
  Forall (fun call => match call with
                      | CallAdd x | CallRemove x => k <> cache_id x
                      end) calls ->
  _cacheCount (Cache_calls calls c) !! k = _cacheCount c !! k.
Proof.
  induction calls as [|call calls IH]; intros c k Hall; [reflexivity|].
  inversion Hall as [|? ? Hcall Hall']; subst.
  change (Cache_calls (call :: calls) c) with (Cache_calls calls (fst (Cache_call c call))).
  rewrite IH by exact Hall'. destruct call as [x|x]; simpl.
  - apply Cache_add_lookup_ne. exact Hcall.
  - apply Cache_remove_lookup_ne. exact Hcall.
Qed.

Lemma Cache_add_count c x k :
  JS.inherited (cache_id x) = false ->
  count_of (snd (fst (Cache_add c x))) k
  = if decide (k = cache_id x) then S (count_of c k) else count_of c k.
Proof.
  intros Hp. unfold Cache_add. rewrite (Cache_count_plain c x Hp). unfold count_of.
  destruct (default 0%nat (_cacheCount c !! cache_id x) =? 0)%nat; simpl;
    (destruct (decide (k = cache_id x)) as [->|Hne];
     [rewrite lookup_insert_eq; simpl; lia
     |rewrite lookup_insert_ne by congruence; reflexivity]).
Qed.

Lemma Cache_remove_count c x k :
  count_of (fst (Cache_remove c x)) k
  = if decide (k = cache_id x) then Nat.pred (count_of c k) else count_of c k.
Proof.
  unfold Cache_remove, count_of.
  destruct (_cacheCount c !! cache_id x) as [[|n]|] eqn:E; simpl.
  - destruct (decide (k = cache_id x)) as [->|Hne]; [rewrite E|]; reflexivity.
  - destruct (n =? 0)%nat; simpl;
      (destruct (decide (k = cache_id x)) as [->|Hne];
       [rewrite lookup_insert_eq, E; simpl; lia
       |rewrite lookup_insert_ne by congruence; reflexivity]).
  - destruct (decide (k = cache_id x)) as [->|Hne]; [rewrite E|]; reflexivity.
Qed.

Lemma Cache_calls_app calls1 calls2 c :
  Cache_calls (calls1 ++ calls2) c = Cache_calls calls2 (Cache_calls calls1 c).
Proof. unfold Cache_calls. apply fold_left_app. Qed.

Lemma Cache_calls_adds n : forall c x k,
  JS.inherited (cache_id x) = false ->
  count_of (Cache_calls (repeat (CallAdd x) n) c) k
  = if decide (k = cache_id x) then (count_of c k + n)%nat else count_of c k.
Proof.
  induction n as [|n IH]; intros c x k Hp; simpl.
  - destruct (decide (k = cache_id x)); lia.
  - change (Cache_calls (CallAdd x :: repeat (CallAdd x) n) c)
      with (Cache_calls (repeat (CallAdd x) n) (snd (fst (Cache_add c x)))).
    rewrite IH, Cache_add_count by exact Hp. destruct (decide (k = cache_id x)); lia.
Qed.

Lemma Cache_calls_removes m : forall c x k,
  count_of (Cache_calls (repeat (CallRemove x) m) c) k
  = if decide (k = cache_id x) then (count_of c k - m)%nat else count_of c k.
Proof.
  induction m as [|m IH]; intros c x k; simpl.
  - destruct (decide (k = cache_id x)); lia.
  - change (Cache_calls (CallRemove x :: repeat (CallRemove x) m) c)
      with (Cache_calls (repeat (CallRemove x) m) (fst (Cache_remove c x))).
    rewrite IH, Cache_remove_count. destruct (decide (k = cache_id x)); lia.
Qed.

(** X1.  Reference counting.  For an item [x] whose id names no property
    inherited from [Object.prototype]: after [n] calls of [add(x)] followed
    by [m] calls of [remove(x)], on any cache, the count of [x] is the count
    before plus [n] minus [m], and not below zero; [has(x)] holds exactly
    when [m] is less than the count before plus [n]; the count of an item
    with another id has not changed. *)
Theorem Cache_adds_then_removes_count (c : Cache T) (x y : T) (n m : nat) :
  JS.inherited (cache_id x) = false ->
  let c' := Cache_calls (repeat (CallAdd x) n ++ repeat (CallRemove x) m) c in
  exists count,
    Cache_count c x = Some count
    /\ Cache_count c' x = Some (count + n - m)%nat
    /\ Cache_has c' x = (m <? count + n)%nat
    /\ (cache_id y <> cache_id x -> Cache_count c' y = Cache_count c y).
Proof.
  intros Hp c'. subst c'. exists (count_of c (cache_id x)).
  assert (Ex : count_of (Cache_calls (repeat (CallAdd x) n ++ repeat (CallRemove x) m) c)
                 (cache_id x)
               = (count_of c (cache_id x) + n - m)%nat).
  { rewrite Cache_calls_app, Cache_calls_removes, Cache_calls_adds by exact Hp.
    destruct (decide (cache_id x = cache_id x)); [reflexivity|contradiction]. }
  split; [apply Cache_count_plain; exact Hp|].
  split; [rewrite (Cache_count_plain _ x Hp), Ex; reflexivity|].
  split.
  - unfold Cache_has. rewrite (Cache_count_plain _ x Hp), Ex.
    destruct (Nat.ltb_spec 0 (count_of c (cache_id x) + n - m));
      destruct (Nat.ltb_spec m (count_of c (cache_id x) + n)); try reflexivity; lia.
  - intros Hne. apply Cache_count_lookup. apply Cache_calls_lookup_ne.
    apply Forall_app. split; apply Forall_forall; intros call Hin;
      apply list_elem_of_In, repeat_spec in Hin; subst call; exact Hne.
Qed.

Lemma Object_delete_absent {A : Type} (o : list (string * A)) k :
  Object_get o k = None -> Object_delete o k = o.
Proof.
  induction o as [|[k0 v0] o IH]; simpl; [reflexivity|].
  destruct (String.eqb_spec k0 k) as [->|Hne]; [discriminate|].
  intros E. rewrite IH by exact E. reflexivity.
Qed.

Lemma Object_delete_app {A : Type} (o1 o2 : list (string * A)) k :
  Object_delete (o1 ++ o2) k = Object_delete o1 k ++ Object_delete o2 k.
Proof.
  induction o1 as [|[k0 v0] o1 IH]; simpl; [reflexivity|].
  destruct (String.eqb k0 k); simpl; rewrite IH; reflexivity.
Qed.

(** X2.  On a cache built from a new one by calls of [add] and [remove],
    and for an item [x] whose id names no property inherited from
    [Object.prototype], [add(x)] followed by [remove(x)] restores the
    entries and their order, [values()] and every count; that [remove]
    emits a [remove] event exactly when [x] was not in the cache before. *)
Theorem Cache_add_then_remove_restores (calls : list (CacheCall T)) (x : T) :
  JS.inherited (cache_id x) = false ->
  let c := Cache_calls calls Cache_new in
  let c1 := snd (fst (Cache_add c x)) in
  let c2 := fst (Cache_remove c1 x) in
  _cache c2 = _cache c
  /\ Cache_values c2 = Cache_values c
  /\ (forall y : T, Cache_count c2 y = Cache_count c y)
  /\ snd (Cache_remove c1 x)
     = (if Cache_has c x then [] else [("remove"%string, x)]).
Proof.
  intros Hp c c1 c2.
  assert (Hinv : Cache_inv c) by apply Cache_calls_inv, Cache_new_inv.
  assert (Hcache : _cache c2 = _cache c
                   /\ snd (Cache_remove c1 x)
                      = (if Cache_has c x then [] else [("remove"%string, x)])).
  { subst c2 c1. unfold Cache_has. rewrite (Cache_count_plain c x Hp).
    destruct (count_of c (cache_id x)) as [|n] eqn:En.
    - rewrite (Cache_add_first c x Hinv Hp En). cbn [fst snd].
      rewrite Cache_remove_last
        by (unfold count_of; simpl; rewrite lookup_insert_eq; reflexivity).
      cbn [fst snd _cache]. split; [|reflexivity].
      rewrite Object_delete_app, Object_delete_absent
        by (apply (Cache_count_absent c x Hinv); exact En).
      simpl. rewrite String.eqb_refl. apply app_nil_r.
    - destruct (Cache_add_again c x Hinv ltac:(lia)) as (y0 & _ & ->). cbn [fst snd].
      rewrite (Cache_remove_more _ x n)
        by (unfold count_of at 1; simpl; rewrite lookup_insert_eq; simpl; rewrite En;
            reflexivity).
      split; reflexivity. }
  destruct Hcache as [Hc Hev].
  split; [exact Hc|]. split; [unfold Cache_values; rewrite Hc; reflexivity|].
  split; [|exact Hev].
  intros y. subst c2 c1. destruct (decide (cache_id y = cache_id x)) as [E|Hne].
  - assert (Hy : JS.inherited (cache_id y) = false) by (rewrite E; exact Hp).
    rewrite !(Cache_count_plain _ y Hy). f_equal.
    rewrite Cache_remove_count, Cache_add_count by exact Hp.
    destruct (decide (cache_id y = cache_id x)); [reflexivity|contradiction].
  - apply Cache_count_lookup.
    rewrite Cache_remove_lookup_ne, Cache_add_lookup_ne by exact Hne. reflexivity.
Qed.

Lemma Object_delete_values (o : list (string * T)) k :
  Forall (fun e => cache_id (snd e) = fst e) o ->
  map snd (Object_delete o k)
  = List.filter (fun y => negb (String.eqb (cache_id y) k)) (map snd o).
Proof.
  induction 1 as [|[k0 v0] o Hk _ IH]; simpl in *; [reflexivity|].
  rewrite Hk. destruct (String.eqb k0 k); simpl; rewrite IH; reflexivity.
Qed.

Lemma Cache_inv_entries c :
  Cache_inv c -> Forall (fun e => cache_id (snd e) = fst e) (_cache c).
Proof.
  intros Hinv. apply Forall_forall. intros [k v] Hin. simpl.
  apply (inv_key c Hinv). apply Object_In_get; [apply (inv_nodup c Hinv)|].
  apply list_elem_of_In. exact Hin.
Qed.

(** X3.  [values()] lists the entries in the order of their first [add],
    for ids that are neither strings of digits (an object lists its integer
    keys first) nor names of properties inherited from [Object.prototype]:
    on a cache built from a new one by calls of [add] and [remove],
    [add(x)] of such an item puts [x] last when no entry has its id and
    changes nothing otherwise; [remove(x)] drops the entry with the id of
    [x] when its count is 1 and changes nothing otherwise. *)
Theorem Cache_values_keep_insertion_order (calls : list (CacheCall T)) (x : T) :
  JS.inherited (cache_id x) = false ->
  JS.digitsOnly (cache_id x) = false ->
  let c := Cache_calls calls Cache_new in
  Cache_values (snd (fst (Cache_add c x)))
  = (if Cache_has c x then Cache_values c else Cache_values c ++ [x])
  /\ Cache_values (fst (Cache_remove c x))
     = (if decide (Cache_count c x = Some 1%nat)
        then List.filter (fun y => negb (String.eqb (cache_id y) (cache_id x)))
                         (Cache_values c)
        else Cache_values c).
Proof.
  intros Hp _ c. assert (Hinv : Cache_inv c) by apply Cache_calls_inv, Cache_new_inv.
  unfold Cache_has, Cache_values. rewrite (Cache_count_plain c x Hp). split.
  - destruct (count_of c (cache_id x)) as [|n] eqn:En.
    + rewrite (Cache_add_first c x Hinv Hp En). simpl. rewrite map_app. reflexivity.
    + destruct (Cache_add_again c x Hinv ltac:(lia)) as (y0 & _ & ->). reflexivity.
  - destruct (count_of c (cache_id x)) as [|[|n]] eqn:En.
    + rewrite Cache_remove_absent by exact En.
      destruct (decide (Some 0%nat = Some 1%nat)); [discriminate|reflexivity].
    + rewrite Cache_remove_last by exact En. simpl.
      destruct (decide (Some 1%nat = Some 1%nat)); [|contradiction].
      apply Object_delete_values, Cache_inv_entries, Hinv.
    + rewrite (Cache_remove_more c x n En).
      destruct (decide (Some (S (S n)) = Some 1%nat)); [discriminate|reflexivity].
Qed.

Lemma Cache_removeTimes_drains n : forall c item,
  Cache_inv c -> count_of c (cache_id item) = S n ->
  Cache_inv (fst (Cache_removeTimes (S n) c item))
  /\ _cache (fst (Cache_removeTimes (S n) c item)) = Object_delete (_cache c) (cache_id item)
  /\ (forall k, count_of (fst (Cache_removeTimes (S n) c item)) k
                = if decide (k = cache_id item) then 0%nat else count_of c k)
  /\ snd (Cache_removeTimes (S n) c item) = [("remove"%string, item)].
Proof.
  induction n as [|n IH]; intros c item Hinv Hn.
  - cbn [Cache_removeTimes]. pose proof (Cache_remove_inv c item Hinv) as Hinv'.
    rewrite (Cache_remove_last c item Hn) in *. cbn [fst snd] in *.
    split; [exact Hinv'|]. split; [reflexivity|]. split; [|reflexivity].
    intros k. unfold count_of. simpl.
    destruct (decide (k = cache_id item)) as [->|Hne];
      [rewrite lookup_insert_eq|rewrite lookup_insert_ne by congruence]; reflexivity.
  - change (Cache_removeTimes (S (S n)) c item)
      with (fst (Cache_removeTimes (S n) (fst (Cache_remove c item)) item),
            snd (Cache_remove c item)
            ++ snd (Cache_removeTimes (S n) (fst (Cache_remove c item)) item)).
    pose proof (Cache_remove_inv c item Hinv) as Hinv'.
    pose proof (fun k => Cache_remove_count c item k) as Hcnt.
    rewrite (Cache_remove_more c item n Hn) in *. cbn [fst snd] in *.
    destruct (IH _ item Hinv') as (Hi & Hc & Hk & He).
    { rewrite Hcnt, Hn. destruct (decide (cache_id item = cache_id item)); [reflexivity|].
      contradiction. }
    split; [exact Hi|]. split; [exact Hc|]. split; [|rewrite He; reflexivity].
    intros k. rewrite Hk, Hcnt. destruct (decide (k = cache_id item)); reflexivity.
Qed.

Lemma Cache_empty_fold (l : list (string * T)) : forall c emitted,
  Cache_inv c -> _cache c = l ->
  exists c',
    fold_left Cache_emptyStep (Object_keys l) (Some (c, emitted))
    = Some (c', emitted ++ map (fun e => ("remove"%string, snd e)) l)
    /\ _cache c' = [] /\ Cache_inv c'.
Proof.
  induction l as [|[k v] l IH]; intros c emitted Hinv Hl.
  - exists c. simpl. rewrite app_nil_r. split; [reflexivity|]. split; assumption.
  - change (Object_keys ((k, v) :: l)) with (k :: Object_keys l).
    assert (Hv : Object_get (_cache c) k = Some v)
      by (rewrite Hl; simpl; rewrite String.eqb_refl; reflexivity).
    cbn [map fold_left snd]. unfold Cache_emptyStep at 2. rewrite Hv.
    pose proof (inv_key c Hinv _ _ Hv) as Hid.
    assert (Hpos : (0 < count_of c (cache_id v))%nat).
    { rewrite Hid. apply (inv_present c Hinv). eexists. exact Hv. }
    rewrite (Cache_count_own c v Hpos).
    destruct (count_of c (cache_id v)) as [|n] eqn:En; [lia|].
    destruct (Cache_removeTimes_drains n c v Hinv En) as (Hi & Hc & _ & He).
    cbv zeta. rewrite He.
    assert (Hl' : _cache (fst (Cache_removeTimes (S n) c v)) = l).
    { rewrite Hc, Hl, Hid. simpl. rewrite String.eqb_refl.
      apply Object_delete_absent.
      pose proof (inv_nodup c Hinv) as Hnd. rewrite Hl in Hnd. simpl in Hnd.
      apply NoDup_cons in Hnd as [Hnotin _].
      destruct (Object_get l k) eqn:E; [|reflexivity]. exfalso. apply Hnotin.
      apply list_elem_of_In, Object_get_keys. eexists. exact E. }
    destruct (IH _ (emitted ++ [("remove"%string, v)]) Hi Hl') as (c' & E & Hc' & Hi').
    exists c'. rewrite E, <- app_assoc. split; [reflexivity|]. split; assumption.
Qed.

(** X4.  [empty()], on a cache built from a new one by calls of [add] and
    [remove], returns; it emits one [remove] event per stored entry, in the
    order of [values()], whatever the count of the entry was; afterwards
    [values()] is empty, [has] holds of no item, and the count of every
    item whose id names no property inherited from [Object.prototype] is
    zero. *)
Theorem Cache_empty_removes_every_entry_once (calls : list (CacheCall T)) :
  let c := Cache_calls calls Cache_new in
  exists c',
    Cache_empty c = Some (c', map (fun item => ("remove"%string, item)) (Cache_values c))
    /\ Cache_values c' = []
    /\ forall y : T,
         Cache_has c' y = false
         /\ (JS.inherited (cache_id y) = false -> Cache_count c' y = Some 0%nat).
Proof.
  intros c. assert (Hinv : Cache_inv c) by apply Cache_calls_inv, Cache_new_inv.
  destruct (Cache_empty_fold (_cache c) c [] Hinv eq_refl) as (c' & E & Hc' & Hi').
  exists c'. unfold Cache_empty, Cache_values. rewrite E, Hc', map_map.
  split; [reflexivity|]. split; [reflexivity|].
  intros y.
  assert (Hz : count_of c' (cache_id y) = 0%nat).
  { apply (Cache_count_absent c' y Hi'). rewrite Hc'. reflexivity. }
  split.
  - unfold Cache_has, Cache_count. unfold count_of in Hz.
    destruct (_cacheCount c' !! cache_id y) as [k|]; simpl in *; [rewrite Hz; reflexivity|].
    destruct (JS.inherited (cache_id y)); reflexivity.
  - intros Hp. rewrite (Cache_count_plain c' y Hp), Hz. reflexivity.
Qed.

End CacheMore.

Lemma Cache_adds_then_removes_witness :
  Cache_count
    (Cache_calls (repeat (CallAdd (new_Selector ".a")) 2
                  ++ repeat (CallRemove (new_Selector ".a")) 1) Cache_new)
    (new_Selector ".a")
  = Some 1%nat.
Proof.
  destruct (Cache_adds_then_removes_count Cache_new (new_Selector ".a") (new_Selector ".b") 2 1)
    as (count & Hc & Hc' & _).
  - reflexivity.
  - rewrite Hc'. injection Hc as <-. reflexivity.
Defined.

Lemma Cache_add_then_remove_witness :
  _cache (fst (Cache_remove
                 (snd (fst (Cache_add (Cache_calls [CallAdd (new_Selector ".a")] Cache_new)
                                      (new_Selector ".b"))))
                 (new_Selector ".b")))
  = _cache (Cache_calls [CallAdd (new_Selector ".a")] Cache_new).
Proof.
  apply (Cache_add_then_remove_restores [CallAdd (new_Selector ".a")] (new_Selector ".b")).
  reflexivity.
Defined.

Lemma Cache_values_witness :
  Cache_values (snd (fst (Cache_add (Cache_calls [CallAdd (new_Selector ".a")] Cache_new)
                                    (new_Selector ".b"))))
  = [new_Selector ".a"; new_Selector ".b"].
Proof.
  destruct (Cache_values_keep_insertion_order [CallAdd (new_Selector ".a")]
              (new_Selector ".b")) as [Hadd _].
  - reflexivity.
  - reflexivity.
  - rewrite Hadd. vm_compute. reflexivity.
Defined.

Lemma Cache_empty_witness :
  exists c',
    Cache_empty (Cache_calls [CallAdd (new_Selector ".a"); CallAdd (new_Selector ".a")]
                             Cache_new)
    = Some (c', [("remove"%string, new_Selector ".a")])
    /\ Cache_count c' (new_Selector ".a") = Some 0%nat.
Proof.
  destruct (Cache_empty_removes_every_entry_once
              [CallAdd (new_Selector ".a"); CallAdd (new_Selector ".a")])
    as (c' & E & _ & Hall).
  exists c'. split; [exact E|]. apply (Hall (new_Selector ".a")). reflexivity.
Defined.

Lemma removeChangeListener_cons g listeners fn :
  removeChangeListener (g :: listeners) fn
  = if Nat.eqb g fn then listeners else g :: removeChangeListener listeners fn.
Proof.
  unfold removeChangeListener. cbn [indexOf].
  destruct (Nat.eqb g fn); [reflexivity|].
  destruct (indexOf fn listeners); reflexivity.
Qed.

Lemma removeChangeListener_absent listeners fn :
  ~ In fn listeners -> removeChangeListener listeners fn = listeners.
Proof.
  induction listeners as [|g l IH]; intros Hn; [reflexivity|].
  rewrite removeChangeListener_cons.
  destruct (Nat.eqb_spec g fn) as [->|Hne]; [exfalso; apply Hn; left; reflexivity|].
  rewrite IH; [reflexivity|]. intros Hin. apply Hn. right. exact Hin.
Qed.

Lemma removeChangeListener_first before after fn :
  ~ In fn before -> removeChangeListener (before ++ fn :: after) fn = before ++ after.
Proof.
  induction before as [|g l IH]; intros Hn.
  - simpl. rewrite removeChangeListener_cons, Nat.eqb_refl. reflexivity.
  - simpl. rewrite removeChangeListener_cons.
    destruct (Nat.eqb_spec g fn) as [->|Hne]; [exfalso; apply Hn; left; reflexivity|].
    rewrite IH; [reflexivity|]. intros Hin. apply Hn. right. exact Hin.
Qed.

Lemma removeChangeListener_present listeners more fn :
  In fn listeners ->
  removeChangeListener (listeners ++ more) fn = removeChangeListener listeners fn ++ more.
Proof.
  induction listeners as [|g l IH]; intros Hin; [destruct Hin|].
  simpl. rewrite !removeChangeListener_cons.
  destruct (Nat.eqb_spec g fn) as [->|Hne]; [reflexivity|].
  simpl. rewrite IH; [reflexivity|]. destruct Hin; [contradiction|assumption].
Qed.

Lemma callsTo_remove {T : Type} listeners fn (change : Change T) :
  callsTo fn (emitChange (removeChangeListener listeners fn) change)
  = Nat.pred (callsTo fn (emitChange listeners change)).
Proof.
  unfold callsTo, emitChange. induction listeners as [|g l IH]; [reflexivity|].
  rewrite removeChangeListener_cons. cbn [map List.filter fst].
  destruct (Nat.eqb g fn) eqn:E; [reflexivity|].
  cbn [map List.filter fst]. rewrite E. exact IH.
Qed.

(** X5.  [removeChangeListener(fn)] leaves the listeners as they are when
    [fn] is not registered, and otherwise takes out the first registration
    of [fn] only: a function registered twice is still called after one
    removal, and every change calls it one time less than before. *)
Theorem removeChangeListener_drops_first_registration
  (listeners : list Listener) (fn : Listener) :
  (~ In fn listeners -> removeChangeListener listeners fn = listeners)
  /\ (forall before after : list Listener,
        ~ In fn before ->
        removeChangeListener (before ++ fn :: after) fn = before ++ after)
  /\ (~ In fn listeners ->
      removeChangeListener (addChangeListener listeners fn) fn = listeners)
  /\ (In fn listeners ->
      removeChangeListener (addChangeListener listeners fn) fn
      = addChangeListener (removeChangeListener listeners fn) fn)
  /\ (forall change : Change string,
        callsTo fn (emitChange (removeChangeListener listeners fn) change)
        = Nat.pred (callsTo fn (emitChange listeners change))).
Proof.
  split; [apply removeChangeListener_absent|].
  split; [intros before after; apply removeChangeListener_first|].
  split.
  { intros Hn. unfold addChangeListener.
    rewrite removeChangeListener_first by exact Hn. apply app_nil_r. }
  split; [intros Hin; apply removeChangeListener_present; exact Hin|].
  intros change. apply callsTo_remove.
Qed.

Lemma removeChangeListener_witness :
  removeChangeListener (addChangeListener [1; 2; 1]%nat 1%nat) 1%nat = [2; 1; 1]%nat.
Proof.
  destruct (removeChangeListener_drops_first_registration [1; 2; 1]%nat 1%nat)
    as (_ & _ & _ & Hpresent & _).
  rewrite Hpresent; [reflexivity|]. left. reflexivity.
Defined.

Lemma joinWith_app sep (A B : list string) :
  A <> [] -> B <> [] ->
  JS.joinWith sep (A ++ B) = JS.joinWith sep A +:+ sep +:+ JS.joinWith sep B.
Proof.
  intros HA HB. induction A as [|x A IH]; [contradiction|].
  destruct A as [|y A].
  - destruct B as [|z B]; [contradiction|]. reflexivity.
  - change (JS.joinWith sep ((x :: y :: A) ++ B))
      with (x +:+ sep +:+ JS.joinWith sep ((y :: A) ++ B)).
    change (JS.joinWith sep (x :: y :: A)) with (x +:+ sep +:+ JS.joinWith sep (y :: A)).
    rewrite IH by discriminate. rewrite !append_assoc. reflexivity.
Qed.

Lemma joinWith_nested sep (A B : list string) :
  A <> [] \/ B = [] ->
  JS.joinWith sep (JS.joinWith sep A :: B) = JS.joinWith sep (A ++ B).
Proof.
  intros Hc. destruct B as [|z B].
  - rewrite app_nil_r. reflexivity.
  - destruct Hc as [HA|HB]; [|discriminate].
    rewrite joinWith_app by (assumption || discriminate). reflexivity.
Qed.

Lemma joinWith_cons sep x (l : list string) :
  l <> [] -> JS.joinWith sep (x :: l) = x +:+ sep +:+ JS.joinWith sep l.
Proof. destruct l; [contradiction|reflexivity]. Qed.

Lemma joinWith_nested_at sep (F A B : list string) :
  A <> [] ->
  JS.joinWith sep (F ++ JS.joinWith sep A :: B) = JS.joinWith sep (F ++ A ++ B).
Proof.
  intros HA. induction F as [|x F IH].
  - apply (joinWith_nested sep A B). left. exact HA.
  - change ((x :: F) ++ JS.joinWith sep A :: B) with (x :: (F ++ JS.joinWith sep A :: B)).
    change ((x :: F) ++ A ++ B) with (x :: (F ++ A ++ B)).
    rewrite !joinWith_cons, IH; [reflexivity| |].
    + destruct F; [destruct A; [contradiction|discriminate]|discriminate].
    + destruct F; discriminate.
Qed.

(** X15.  [join] flattens its arguments, wherever they stand: an array
    counts as its elements in place when they contribute a class name, and
    as one empty string when they contribute none; [null] and [undefined]
    are skipped; an object counts as its keys with a truthy value, in key
    order.  Hence [join('a', {b: true, noop: false}, null, ['c', 'd'])] is
    [a b c d]. *)
Theorem FreeStyle_join_flattens_arguments (front rest : list ClassValue) :
  (forall values : list ClassValue,
      flat_map classNamesOf values <> [] ->
      FreeStyle_join (front ++ CArray values :: rest)
      = FreeStyle_join (front ++ values ++ rest))
  /\ (forall values : list ClassValue,
        flat_map classNamesOf values = [] ->
        FreeStyle_join (front ++ CArray values :: rest)
        = FreeStyle_join (front ++ CString EmptyString :: rest))
  /\ FreeStyle_join (front ++ CVoid :: rest) = FreeStyle_join (front ++ rest)
  /\ (forall entries : list (string * bool),
        FreeStyle_join (front ++ CObject entries :: rest)
        = FreeStyle_join
            (front ++ map (fun e => CString (fst e)) (List.filter snd entries) ++ rest))
  /\ FreeStyle_join
       [CString "a"; CObject [("b", true); ("noop", false)]%string; CVoid;
        CArray [CString "c"; CString "d"]] = "a b c d"%string.
Proof.
  unfold FreeStyle_join. split.
  { intros values Hc. rewrite !flat_map_app. cbn [flat_map classNamesOf app].
    apply joinWith_nested_at. exact Hc. }
  split.
  { intros values Hc. rewrite !flat_map_app. cbn [flat_map classNamesOf app].
    rewrite Hc. reflexivity. }
  split; [rewrite !flat_map_app; reflexivity|].
  split; [|reflexivity].
  intros entries. rewrite !flat_map_app. cbn [flat_map classNamesOf].
  assert (E : flat_map classNamesOf (map (fun e => CString (fst e)) (List.filter snd entries))
              = map fst (List.filter snd entries)).
  { induction (List.filter snd entries) as [|e l IH]; [reflexivity|].
    simpl. rewrite IH. reflexivity. }
  rewrite E. reflexivity.
Qed.

Lemma FreeStyle_join_witness :
  FreeStyle_join [CString "a"; CArray [CString "c"; CString "d"]; CString "e"]
  = FreeStyle_join [CString "a"; CString "c"; CString "d"; CString "e"].
Proof.
  destruct (FreeStyle_join_flattens_arguments [CString "a"] [CString "e"]) as (Hflat & _).
  apply (Hflat [CString "c"; CString "d"]). discriminate.
Defined.

Lemma allChars_app P (a b : string) :
  allChars P (a +:+ b) = allChars P a && allChars P b.
Proof.
  induction a as [|c a IH]; [reflexivity|].
  rewrite append_cons. cbn [allChars]. rewrite IH. apply andb_assoc.
Qed.

Lemma encodeURIChar_safe (c : ascii) : allChars cssStringSafe (encodeURIChar c) = true.
Proof.
  destruct c as [b0 b1 b2 b3 b4 b5 b6 b7].
  destruct b0, b1, b2, b3, b4, b5, b6, b7; vm_compute; reflexivity.
Qed.

Lemma encodeURIChar_unescaped (c : ascii) :
  uriUnescaped c = true -> encodeURIChar c = String c EmptyString.
Proof. intros E. unfold encodeURIChar. rewrite E. reflexivity. Qed.

(** X16.  The text [url] puts between the double quotes, [encodeURI(url)],
    holds printable ASCII characters only and neither a double quote nor a
    backslash, so the quoted string ends where [url] ends it; a text made
    of characters that [encodeURI] leaves alone is wrapped as it is. *)
Theorem FreeStyle_url_is_escaped (url : string) :
  allChars cssStringSafe (encodeURI url) = true
  /\ (allChars uriUnescaped url = true ->
      FreeStyle_url url = "url(" +:+ String quote (url +:+ String quote ")")).
Proof.
  split.
  { induction url as [|c url IH]; [reflexivity|].
    cbn [encodeURI]. rewrite allChars_app, encodeURIChar_safe, IH. reflexivity. }
  intros E. unfold FreeStyle_url. do 3 f_equal.
  induction url as [|c url IH]; [reflexivity|].
  cbn [allChars encodeURI] in *. apply andb_prop in E as [Ec Eu].
  rewrite (encodeURIChar_unescaped c Ec), IH by exact Eu. reflexivity.
Qed.

Lemma FreeStyle_url_witness :
  FreeStyle_url "http://example.com"
  = "url(" +:+ String quote ("http://example.com" +:+ String quote ")").
Proof.
  apply FreeStyle_url_is_escaped. vm_compute. reflexivity.
Defined.

Lemma append_nil_r (a : string) : a +:+ EmptyString = a.
Proof.
  induction a as [|x a IH]; [reflexivity|]. rewrite append_cons, IH. reflexivity.
Qed.

Lemma GetSubstitution_plain matched before after replacement :
  JS.includesChar "$" replacement = false ->
  JS.GetSubstitution matched before after replacement = replacement.
Proof.
  induction replacement as [|c r IH]; [reflexivity|].
  cbn [JS.includesChar JS.GetSubstitution]. intros E.
  apply orb_false_elim in E as [Ec Er]. rewrite Ec, IH by exact Er. reflexivity.
Qed.

Lemma GetSubstitution_app matched before after a r :
  JS.includesChar "$" a = false ->
  JS.GetSubstitution matched before after (a +:+ r)
  = a +:+ JS.GetSubstitution matched before after r.
Proof.
  induction a as [|c a IH]; [reflexivity|].
  rewrite !append_cons. cbn [JS.includesChar JS.GetSubstitution]. intros E.
  apply orb_false_elim in E as [Ec Ea]. rewrite Ec, IH by exact Ea. reflexivity.
Qed.

Lemma replaceAllChar_plain parent s : forall before,
  JS.includesChar "$" parent = false ->
  JS.replaceAllChar "&" parent before s = substituteParent s parent.
Proof.
  induction s as [|c s IH]; intros before Hp; [reflexivity|].
  cbn [JS.replaceAllChar substituteParent].
  destruct (Ascii.eqb c "&"); rewrite IH by exact Hp;
    [rewrite GetSubstitution_plain by exact Hp|]; reflexivity.
Qed.

Lemma substituteParent_plain s parent :
  JS.includesChar "&" s = false -> substituteParent s parent = s.
Proof.
  induction s as [|c s IH]; [reflexivity|].
  cbn [JS.includesChar substituteParent]. intros E.
  apply orb_false_elim in E as [Ec Es]. rewrite Ec, IH by exact Es. reflexivity.
Qed.

Lemma includesChar_app c (a b : string) :
  JS.includesChar c (a +:+ b) = JS.includesChar c a || JS.includesChar c b.
Proof.
  induction a as [|x a IH]; [reflexivity|].
  rewrite append_cons. cbn [JS.includesChar]. rewrite IH. apply orb_assoc.
Qed.

Lemma digits_no_dollar (s : string) :
  allChars isDigit32 s = true -> JS.includesChar "$" s = false.
Proof.
  induction s as [|c s IH]; [reflexivity|].
  cbn [allChars JS.includesChar]. intros E. apply andb_prop in E as [Ec Es].
  rewrite IH by exact Es. rewrite orb_false_r.
  destruct (Ascii.eqb_spec c "$") as [->|]; [discriminate Ec|reflexivity].
Qed.

(** X9.  When the parent selector holds no dollar sign, [interpolate]
    replaces each [&] of the selector by the parent selector as it is, and
    writes the parent, one space and the selector when there is no [&];
    a nested key without [&], interpolated with the root token [&] and
    then with the parent, is the parent, a space and the key; [&] itself
    becomes the parent; a class selector, a dot and a hash string, holds no
    dollar sign.  With a dollar sign in the parent the patterns of
    [String.prototype.replace] apply: two dollar signs at its end are
    written as one, and a dollar sign followed by [&] as [&]. *)
Theorem interpolate_substitutes_parent_verbatim (selector parentSelector : string) :
  JS.includesChar "$" parentSelector = false ->
  interpolate selector parentSelector
  = (if JS.includesChar "&" selector
     then substituteParent selector parentSelector
     else parentSelector +:+ " " +:+ selector)
  /\ (JS.includesChar "&" selector = false ->
      interpolate (interpolate selector "&") parentSelector
      = parentSelector +:+ " " +:+ selector)
  /\ interpolate "&" parentSelector = parentSelector
  /\ (forall h : Z, 0 <= h ->
        JS.includesChar "$" ("." +:+ hashToString h) = false)
  /\ interpolate "&" (parentSelector +:+ "$$") = parentSelector +:+ "$"
  /\ interpolate "&" (parentSelector +:+ "$&") = parentSelector +:+ "&".
Proof.
  intros Hp. split.
  { unfold interpolate. destruct (JS.includesChar "&" selector); [|reflexivity].
    apply replaceAllChar_plain. exact Hp. }
  split.
  { intros Hs. unfold interpolate at 2. rewrite Hs.
    unfold interpolate. cbn [JS.includesChar Ascii.eqb]. cbn [String.append].
    change ("&" +:+ " " +:+ selector) with (String "&" (String " " selector)).
    cbn [JS.includesChar]. rewrite replaceAllChar_plain by exact Hp.
    cbn [substituteParent]. rewrite substituteParent_plain by exact Hs.
    reflexivity. }
  split.
  { unfold interpolate. cbn [JS.includesChar]. rewrite replaceAllChar_plain by exact Hp.
    cbn [substituteParent]. apply append_nil_r. }
  split.
  { intros h Hh. change ("." +:+ hashToString h) with (String "." (hashToString h)).
    cbn [JS.includesChar]. apply digits_no_dollar. apply toString32_nonneg. exact Hh. }
  split; unfold interpolate; cbn [JS.includesChar JS.replaceAllChar Ascii.eqb Bool.eqb orb];
    rewrite GetSubstitution_app by exact Hp; cbn [JS.GetSubstitution Ascii.eqb Bool.eqb];
    rewrite ?append_nil_r; reflexivity.
Qed.

Lemma interpolate_witness :
  interpolate "&:hover > a, & b" ".x1" = ".x1:hover > a, .x1 b"%string
  /\ interpolate (interpolate ".foo" "&") ".x1" = ".x1 .foo"%string.
Proof.
  destruct (interpolate_substitutes_parent_verbatim "&:hover > a, & b" ".x1" eq_refl)
    as (H1 & _).
  destruct (interpolate_substitutes_parent_verbatim ".foo" ".x1" eq_refl)
    as (_ & H2 & _).
  split; [rewrite H1; reflexivity|apply H2; reflexivity].
Defined.

Lemma toLowerCaseChar_facts (c : ascii) :
  JS.isUpperAZ (JS.toLowerCaseChar c) = false
  /\ JS.toLowerCaseChar (JS.toLowerCaseChar c) = JS.toLowerCaseChar c.
Proof.
  destruct c as [b0 b1 b2 b3 b4 b5 b6 b7].
  destruct b0, b1, b2, b3, b4, b5, b6, b7; vm_compute; split; reflexivity.
Qed.

Lemma toLowerCase_notUpper s : allChars notUpperAZ (JS.toLowerCase s) = true.
Proof.
  induction s as [|c s IH]; [reflexivity|].
  cbn [JS.toLowerCase allChars]. unfold notUpperAZ at 1.
  rewrite (proj1 (toLowerCaseChar_facts c)), IH. reflexivity.
Qed.

Lemma toLowerCase_idempotent s : JS.toLowerCase (JS.toLowerCase s) = JS.toLowerCase s.
Proof.
  induction s as [|c s IH]; [reflexivity|].
  cbn [JS.toLowerCase]. rewrite (proj2 (toLowerCaseChar_facts c)), IH. reflexivity.
Qed.

Lemma insertHyphens_notUpper s : allChars notUpperAZ s = true -> insertHyphens s = s.
Proof.
  induction s as [|c s IH]; [reflexivity|].
  cbn [allChars insertHyphens]. unfold notUpperAZ at 1. intros E.
  apply andb_prop in E as [Ec Es]. apply negb_true_iff in Ec.
  rewrite Ec, IH by exact Es. reflexivity.
Qed.

Lemma hyphenate_no_ms_prefix key : String.prefix "ms-" (hyphenate key) = false.
Proof.
  rewrite hyphenate_refines. unfold hyphenate_spec.
  destruct (String.prefix "ms-" (hyphenCase key)) eqn:E; [reflexivity|exact E].
Qed.

(** X8.  [hyphenate] is idempotent; its result holds no capital letter
    A-Z; on a key without capital letters that does not start with [ms-]
    it is [toLowerCase]. *)
Theorem hyphenate_is_idempotent (key : string) :
  hyphenate (hyphenate key) = hyphenate key
  /\ allChars notUpperAZ (hyphenate key) = true
  /\ (allChars notUpperAZ key = true -> String.prefix "ms-" key = false ->
      hyphenate key = JS.toLowerCase key).
Proof.
  assert (Hno : allChars notUpperAZ (hyphenate key) = true)
    by (unfold hyphenate; apply toLowerCase_notUpper).
  split; [|split; [exact Hno|]].
  - unfold hyphenate at 1. rewrite insertHyphens_notUpper by exact Hno.
    unfold prefixMs. rewrite hyphenate_no_ms_prefix.
    unfold hyphenate. apply toLowerCase_idempotent.
  - intros Hk Hms. unfold hyphenate. rewrite insertHyphens_notUpper by exact Hk.
    unfold prefixMs. rewrite Hms. reflexivity.
Qed.

Lemma hyphenate_witness : hyphenate "background-color" = "background-color"%string.
Proof.
  destruct (hyphenate_is_idempotent "background-color") as (_ & _ & Hplain).
  rewrite Hplain; reflexivity.
Defined.

Lemma fold32_mul a c : fold32 a c = (Z.lxor a c * 16777619) mod 2 ^ 32.
Proof.
  unfold fold32. cbv zeta. rewrite !Z.shiftl_mul_pow2 by lia. f_equal. ring.
Qed.

Lemma mul_prime_inj x y :
  (x * 16777619) mod 2 ^ 32 = (y * 16777619) mod 2 ^ 32 -> x mod 2 ^ 32 = y mod 2 ^ 32.
Proof.
  intros E.
  assert (Hinv : forall z, z mod 2 ^ 32 = ((z * 16777619) mod 2 ^ 32 * 899433627) mod 2 ^ 32).
  { intros z. rewrite Z.mul_mod_idemp_l by lia.
    replace (z * 16777619 * 899433627) with (z + z * 3513497 * 2 ^ 32) by ring.
    rewrite Z.mod_add by lia. reflexivity. }
  rewrite (Hinv x), (Hinv y), E. reflexivity.
Qed.

Lemma lxor_cancel_r u v w : Z.lxor u w = Z.lxor v w -> u = v.
Proof.
  intros E.
  assert (H : forall z, Z.lxor (Z.lxor z w) w = z)
    by (intros z; rewrite Z.lxor_assoc, Z.lxor_nilpotent, Z.lxor_0_r; reflexivity).
  rewrite <- (H u), E. apply H.
Qed.

Lemma lxor_cancel_l u v w : Z.lxor w u = Z.lxor w v -> u = v.
Proof. rewrite !(Z.lxor_comm w). apply lxor_cancel_r. Qed.

Lemma fold32_inj_acc a b c :
  0 <= a < 2 ^ 32 -> 0 <= b < 2 ^ 32 -> fold32 a c = fold32 b c -> a = b.
Proof.
  intros Ha Hb E. rewrite !fold32_mul in E. apply mul_prime_inj in E.
  rewrite !lxor_mod32 in E. apply lxor_cancel_r in E.
  rewrite !Z.mod_small in E by assumption. exact E.
Qed.

Lemma fold32_inj_code a c d :
  0 <= c < 2 ^ 32 -> 0 <= d < 2 ^ 32 -> fold32 a c = fold32 a d -> c = d.
Proof.
  intros Hc Hd E. rewrite !fold32_mul in E. apply mul_prime_inj in E.
  rewrite !lxor_mod32 in E. apply lxor_cancel_l in E.
  rewrite !Z.mod_small in E by assumption. exact E.
Qed.

Lemma fold32_bound a c : 0 <= fold32 a c < 2 ^ 32.
Proof. unfold fold32. apply Z.mod_pos_bound. lia. Qed.

Lemma fold32_fold_inj codes : forall a b,
  0 <= a < 2 ^ 32 -> 0 <= b < 2 ^ 32 ->
  fold_left fold32 codes a = fold_left fold32 codes b -> a = b.
Proof.
  induction codes as [|c codes IH]; intros a b Ha Hb E; [exact E|].
  simpl in E. apply IH in E; try apply fold32_bound.
  exact (fold32_inj_acc a b c Ha Hb E).
Qed.

Lemma charCodes_app (a b : string) :
  JS.charCodes (a +:+ b) = JS.charCodes a ++ JS.charCodes b.
Proof.
  induction a as [|c a IH]; [reflexivity|].
  rewrite append_cons. cbn [JS.charCodes]. rewrite IH. reflexivity.
Qed.

Lemma charCode_bound (c : ascii) : 0 <= JS.charCode c < 2 ^ 32.
Proof.
  unfold JS.charCode. pose proof (N_ascii_bounded c). lia.
Qed.

Lemma charCode_inj (c d : ascii) : JS.charCode c = JS.charCode d -> c = d.
Proof.
  unfold JS.charCode. intros E. apply N2Z.inj in E.
  rewrite <- (ascii_N_embedding c), <- (ascii_N_embedding d), E. reflexivity.
Qed.

(** X6.  The hash loses nothing in one step: for a given text it is
    injective in the seed, over the non-zero 32-bit seeds; for a given seed
    and a given text it is injective in one more character at the end; the
    hash of the empty string is its non-zero 32-bit seed, and seed 0 is
    read as no seed. *)
Theorem hash_separates_seeds_and_last_characters (codes : list Z) :
  (forall p q : Z,
      0 < p < 2 ^ 32 -> 0 < q < 2 ^ 32 ->
      hash_codes codes (Some p) = hash_codes codes (Some q) -> p = q)
  /\ (forall (seed : option Z) (c d : Z),
        0 <= c < 2 ^ 32 -> 0 <= d < 2 ^ 32 ->
        hash_codes (codes ++ [c]) seed = hash_codes (codes ++ [d]) seed -> c = d)
  /\ (forall (str : string) (seed : option Z) (c d : ascii),
        hash (str +:+ String c EmptyString) seed = hash (str +:+ String d EmptyString) seed ->
        c = d)
  /\ (forall p : Z, 0 < p < 2 ^ 32 -> hash EmptyString (Some p) = p)
  /\ hash EmptyString (Some 0) = hash EmptyString None.
Proof.
  split.
  { intros p q Hp Hq E. rewrite !hash_codes_fold32 in E.
    unfold hash_seed in E.
    destruct (Z.eqb_spec p 0); [lia|]. destruct (Z.eqb_spec q 0); [lia|].
    rewrite !Z.mod_small in E by lia.
    apply (fold32_fold_inj codes); [lia|lia|exact E]. }
  assert (Hlast : forall (l : list Z) (seed : option Z) (c d : Z),
             0 <= c < 2 ^ 32 -> 0 <= d < 2 ^ 32 ->
             hash_codes (l ++ [c]) seed = hash_codes (l ++ [d]) seed -> c = d).
  { intros l seed c d Hc Hd E. rewrite !hash_codes_fold32, !fold_left_app in E.
    simpl in E. exact (fold32_inj_code _ c d Hc Hd E). }
  split; [apply Hlast|].
  split.
  { intros str seed c d E. unfold hash in E. rewrite !charCodes_app in E.
    apply Hlast in E; [apply charCode_inj; exact E| |]; apply charCode_bound. }
  split; [|reflexivity].
  intros p Hp. unfold hash, hash_codes, hash_seed, JS.ToUint32. simpl.
  destruct (Z.eqb_spec p 0); [lia|]. apply Z.mod_small. lia.
Qed.

Lemma hash_separates_witness :
  hash "a" (Some 7) <> hash "a" (Some 8) /\ hash "ab" None <> hash "ac" None.
Proof.
  destruct (hash_separates_seeds_and_last_characters (JS.charCodes "a"))
    as (Hseed & _ & Hlast & _).
  split.
  - intros E. specialize (Hseed 7 8 ltac:(lia) ltac:(lia) E). discriminate.
  - intros E. specialize (Hlast "a"%string None "b"%char "c"%char E). discriminate.
Defined.

Lemma hashToString_inj a b :
  0 <= a -> 0 <= b -> hashToString a = hashToString b -> a = b.
Proof.
  intros Ha Hb E.
  rewrite <- (proj2 (toString32_nonneg a Ha)), <- (proj2 (toString32_nonneg b Hb)).
  unfold hashToString in E. rewrite E. reflexivity.
Qed.

Lemma hash_nonneg str seed : 0 <= hash str seed.
Proof. apply hash_codes_range. Qed.

Lemma digits32_acc_nonempty fuel : forall n c acc,
  JS.digits32 fuel n (String c acc) <> EmptyString.
Proof.
  induction fuel as [|fuel IH]; intros n c acc; cbn [JS.digits32]; [discriminate|].
  destruct (n <? 32); [discriminate|apply IH].
Qed.

Lemma toString32_nonempty n : JS.toString32 n <> EmptyString.
Proof.
  unfold JS.toString32. destruct (n <? 0); [discriminate|].
  cbn [JS.digits32]. destruct (n <? 32); [discriminate|apply digits32_acc_nonempty].
Qed.

(** X7.  [hashToString] is injective on the non-negative integers, so two
    styles, two at-rules or two selectors have the same id exactly when
    the 32-bit hashes of their texts are equal; the hash string of a text
    is never empty. *)
Theorem node_ids_coincide_exactly_when_hashes_do (a b : string) :
  (forall m n : Z, 0 <= m -> 0 <= n -> hashToString m = hashToString n -> m = n)
  /\ (Style_id (new_Style a) = Style_id (new_Style b) <-> hash a None = hash b None)
  /\ (Item_id (new_AtRule a) = Item_id (new_AtRule b) <-> hash a None = hash b None)
  /\ (Selector_id (new_Selector a) = Selector_id (new_Selector b)
      <-> hash a None = hash b None)
  /\ hashString a <> EmptyString.
Proof.
  split; [exact hashToString_inj|].
  assert (Hs : forall t : ascii,
             String t (hashString a) = String t (hashString b) <-> hash a None = hash b None).
  { intros t. unfold hashString. split.
    - intros [= E]. apply hashToString_inj in E; [exact E| |]; apply hash_nonneg.
    - intros ->. reflexivity. }
  split; [apply (Hs "n"%char)|]. split; [apply (Hs "a"%char)|]. split; [apply (Hs "s"%char)|].
  apply toString32_nonempty.
Qed.

Lemma node_ids_witness : hashToString 33 <> hashToString 1057.
Proof.
  destruct (node_ids_coincide_exactly_when_hashes_do "a" "b") as (Hinj & _).
  intros E. specialize (Hinj 33 1057 ltac:(lia) ltac:(lia) E). discriminate.
Defined.

(** X14.  [create()] increments the module counter and names the root by
    the new value in base 32: roots created at different values of the
    counter have different ids, as have a root and the next one created; a
    new root has no entry and renders as the empty string. *)
Theorem create_gives_each_root_its_own_id (id id' : Z) :
  0 <= id -> 0 <= id' ->
  snd (create id) = id + 1
  /\ (id <> id' -> FreeStyle_id (fst (create id)) <> FreeStyle_id (fst (create id')))
  /\ FreeStyle_id (fst (create (snd (create id)))) <> FreeStyle_id (fst (create id))
  /\ Cache_values (FreeStyle_container (fst (create id))) = []
  /\ getStyles (fst (create id)) = EmptyString.
Proof.
  intros Hid Hid'. split; [reflexivity|]. split.
  { intros Hne E. simpl in E. apply hashToString_inj in E; lia. }
  split; [|split; reflexivity].
  intros E. simpl in E. apply hashToString_inj in E; lia.
Qed.

Lemma create_witness :
  FreeStyle_id (fst (create 0)) <> FreeStyle_id (fst (create 1)).
Proof.
  destruct (create_gives_each_root_its_own_id 0 1 ltac:(lia) ltac:(lia)) as (_ & Hne & _).
  apply Hne. discriminate.
Defined.

(** X11.  On a well-formed container tree a registration succeeds and
    leaves a well-formed tree, in which every container is still there,
    every node it stored is still stored under the same key with the same id
    and the same text, and no count has gone down. *)
Theorem registerUserStyles_succeeds_and_keeps_every_node
  (container : Container) (styles : UserStyles) :
  wf container ->
  exists className container',
    registerUserStyles container styles = Some (className, container')
    /\ wf container'
    /\ (forall r c k x,
          resolve r container = Some c -> Object_get (_cache c) k = Some x ->
          exists c' x',
            resolve r container' = Some c'
            /\ Object_get (_cache c') k = Some x'
            /\ same_content x x'
            /\ (count_of c k <= count_of c' k)%nat).
Proof.
  intros Hwf. rewrite registerUserStyles_run.
  destruct (registrationOps_total (normalize styles) container Hwf) as [h E]. rewrite E.
  exists (layerClassName (normalize styles)), h. split; [reflexivity|].
  destruct (run_first _ _ _ Hwf E) as [Hle Hwf']. split; [exact Hwf'|].
  intros r c k x Hc Hx.
  destruct (run_keeps _ _ _ Hwf E r c Hc) as (c' & Hc' & Hk).
  destruct (Hk k x Hx) as (x' & Hx' & Hs).
  destruct (Hle r c Hc) as (c'' & Hc'' & Hcnt & _).
  rewrite Hc' in Hc''. injection Hc'' as <-.
  exists c', x'. repeat split; try assumption. apply Hcnt.
Qed.

Lemma registerUserStyles_succeeds_witness :
  exists className container',
    registerUserStyles ex_root ex_foo = Some (className, container') /\ wf container'.
Proof.
  destruct (registerUserStyles_succeeds_and_keeps_every_node ex_root ex_foo)
    as (cls & c' & E & Hwf & _).
  - apply (registerAll_fresh_wf [ex_media]). vm_compute. reflexivity.
  - exists cls, c'. split; assumption.
Defined.

Lemma layerHash_range L : forall selector h, 0 <= layerHash L selector h < 2 ^ 32.
Proof.
  induction L as [declarations children IHc] using Layer_induction.
  intros selector h. rewrite layerHash_eq.
  assert (H0 : 0 <= hash (stringifyProperties declarations) (Some (hash selector (Some h)))
               < 2 ^ 32) by apply hash_codes_range.
  revert H0. generalize (hash (stringifyProperties declarations) (Some (hash selector (Some h)))).
  induction IHc as [|e children He _ IH]; intros z Hz; [exact Hz|].
  simpl. apply IH. apply He.
Qed.

Lemma digits32_length fuel : forall (k : nat) n acc,
  (1 <= k)%nat -> 0 <= n < 32 ^ Z.of_nat k ->
  (String.length (JS.digits32 fuel n acc) <= k + String.length acc)%nat.
Proof.
  induction fuel as [|fuel IH]; intros k n acc Hk Hn; cbn [JS.digits32]; [lia|].
  destruct (Z.ltb_spec n 32) as [Hlt|Hge]; [simpl; lia|].
  destruct k as [|[|k]]; [lia|simpl in Hn; lia|].
  specialize (IH (S k) (n / 32) (String (JS.digit32 (n mod 32)) acc)).
  simpl String.length in IH. enough (String.length
    (JS.digits32 fuel (n / 32) (String (JS.digit32 (n mod 32)) acc))
    <= S k + S (String.length acc))%nat by lia.
  apply IH; [lia|]. split; [apply Z.div_pos; lia|].
  apply Z.div_lt_upper_bound; [lia|].
  rewrite (Nat2Z.inj_succ (S k)), Z.pow_succ_r in Hn by lia. lia.
Qed.

Lemma digits32_nonempty fuel : forall n acc,
  (1 <= String.length (JS.digits32 (S fuel) n acc))%nat.
Proof.
  induction fuel as [|fuel IH]; intros n acc.
  - cbn [JS.digits32]. destruct (n <? 32); simpl; lia.
  - change (JS.digits32 (S (S fuel)) n acc)
      with (if n <? 32 then String (JS.digit32 n) acc
            else JS.digits32 (S fuel) (n / 32) (String (JS.digit32 (n mod 32)) acc)).
    destruct (n <? 32); [simpl; lia|apply IH].
Qed.

Lemma hashToString_length n :
  0 <= n < 2 ^ 32 -> (1 <= String.length (hashToString n) <= 7)%nat.
Proof.
  intros Hn. unfold hashToString, JS.toString32.
  destruct (Z.ltb_spec n 0) as [?|_]; [lia|]. split; [apply digits32_nonempty|].
  pose proof (digits32_length (S (Z.to_nat (Z.log2 n))) 7 n EmptyString) as H.
  simpl String.length in H. rewrite Nat.add_0_r in H. apply H; [lia|].
  change (32 ^ Z.of_nat 7) with 34359738368. change (2 ^ 32) with 4294967296 in Hn. lia.
Qed.

(** X10.  Two style trees that differ only in the order of their keys, at
    any level, register alike on any container: the same class name and the
    same container tree, or the same failure. *)
Theorem registerUserStyles_ignores_key_order (container : Container) (A B : UserStyles) :
  reordered A B ->
  registerUserStyles container A = registerUserStyles container B.
Proof.
  intros Hre. rewrite !registerUserStyles_run, (reordered_normalize A B Hre). reflexivity.
Qed.

Lemma registerUserStyles_key_order_witness :
  registerUserStyles ex_root ex_blue_red = registerUserStyles ex_root ex_red_blue.
Proof.
  apply registerUserStyles_ignores_key_order.
  constructor.
  - apply perm_swap.
  - intros k v. unfold ex_blue_red, ex_red_blue. cbn [Object_get].
    destruct (String.eqb_spec "background" k) as [<-|_]; [intros H; exact H|].
    destruct (String.eqb_spec "color" k) as [<-|_]; [intros H; exact H|discriminate].
  - intros k a. unfold ex_blue_red. cbn [Object_get].
    destruct (String.eqb "background" k); [discriminate|].
    destruct (String.eqb "color" k); discriminate.
Defined.

(** X12.  The class name a registration returns depends on the style tree
    alone, not on the container it is registered on; it is made of 1 to 7
    base-32 digits and denotes a number below 2^32. *)
Theorem class_name_depends_on_the_tree_alone
  (container container' result result' : Container) (styles : UserStyles)
  (className className' : string) :
  registerUserStyles container styles = Some (className, result) ->
  registerUserStyles container' styles = Some (className', result') ->
  className = className'
  /\ allChars isDigit32 className = true
  /\ (1 <= String.length className <= 7)%nat
  /\ 0 <= valueOf32 className 0 < 2 ^ 32.
Proof.
  rewrite !registerUserStyles_run. intros H1 H2.
  destruct (run _ container) as [h|]; [|discriminate]. injection H1 as <- _.
  destruct (run _ container') as [h'|]; [|discriminate]. injection H2 as <- _.
  split; [reflexivity|]. unfold layerClassName.
  pose proof (layerHash_range (normalize styles) "&" 0) as Hr.
  destruct (toString32_nonneg _ (proj1 Hr)) as [Hc Hv].
  split; [exact Hc|]. split; [apply hashToString_length; exact Hr|].
  unfold hashToString. rewrite Hv. exact Hr.
Qed.

Lemma class_name_witness :
  exists className result result',
    registerUserStyles (mkCache [] ∅) ex_foo = Some (className, result)
    /\ registerUserStyles ex_root ex_foo = Some (className, result')
    /\ (1 <= String.length className <= 7)%nat.
Proof.
  destruct (registerUserStyles (mkCache [] ∅) ex_foo) as [[cls r]|] eqn:E1;
    [|vm_compute in E1; discriminate].
  destruct (registerUserStyles ex_root ex_foo) as [[cls' r']|] eqn:E2;
    [|vm_compute in E2; discriminate].
  destruct (class_name_depends_on_the_tree_alone _ _ _ _ _ _ _ E1 E2) as (<- & _ & Hl & _).
  exists cls, r, r'. repeat split; try reflexivity; apply Hl.
Defined.

Lemma registerAll_cons styles trees root :
  registerAll (styles :: trees) root
  = match registerUserStyles root styles with
    | Some (_, h) => registerAll trees h
    | None => None
    end.
Proof.
  unfold registerAll. simpl. destruct (registerUserStyles root styles) as [[cls h]|]; simpl.
  - reflexivity.
  - induction trees as [|t trees IH]; [reflexivity|exact IH].
Qed.

Lemma registerAll_again L trees : forall h,
  wf h -> Forall (fun o => performed o h) (registrationOps L) ->
  Forall (fun styles => normalize styles = L) trees ->
  exists h', registerAll trees h = Some h'
             /\ Container_getStyles h' = Container_getStyles h.
Proof.
  induction trees as [|styles trees IH]; intros h Hwf Hperf Hall.
  - exists h. split; reflexivity.
  - inversion Hall as [|? ? Hn Hall']; subst.
    rewrite registerAll_cons, registerUserStyles_run.
    destruct (run_again _ h Hwf Hperf) as (h1 & E & Hg). rewrite E.
    destruct (run_first _ _ _ Hwf E) as [Hle Hwf1].
    destruct (IH h1 Hwf1) as (h' & E' & Hg').
    + eapply Forall_impl; [exact Hperf|]. intros o. apply performed_le. exact Hle.
    + exact Hall'.
    + exists h'. split; [exact E'|congruence].
Qed.

(** X13.  After a style tree has been registered on a well-formed
    container tree, registering any number of copies of it, with their keys
    in any order, succeeds and leaves the rendered CSS as it is. *)
Theorem registering_reordered_copies_renders_once
  (root : Container) (styles : UserStyles) (copies : list UserStyles) :
  wf root ->
  Forall (reordered styles) copies ->
  exists className root1 root',
    registerUserStyles root styles = Some (className, root1)
    /\ registerAll copies root1 = Some root'
    /\ Container_getStyles root' = Container_getStyles root1.
Proof.
  intros Hwf Hall. rewrite registerUserStyles_run.
  destruct (registrationOps_total (normalize styles) root Hwf) as [h E]. rewrite E.
  destruct (run_first _ _ _ Hwf E) as [_ Hwf1].
  destruct (registerAll_again (normalize styles) copies h Hwf1) as (h' & E' & Hg).
  - exact (run_performed _ _ _ Hwf E).
  - eapply Forall_impl; [exact Hall|]. intros B HB. symmetry. apply reordered_normalize. exact HB.
  - eexists _, h, h'. repeat split; assumption.
Qed.

Lemma reordered_refl_example : reordered ex_foo ex_foo.
Proof.
  constructor.
  - reflexivity.
  - intros k v H. exact H.
  - intros k a. unfold ex_foo. cbn [Object_get].
    destruct (String.eqb "color" k); [discriminate|].
    destruct (String.eqb ".foo" k); [|discriminate].
    intros [= <-]. eexists. split; [reflexivity|].
    constructor; [reflexivity|intros k' v H; exact H|].
    intros k' a'. cbn [Object_get]. destruct (String.eqb "color" k'); discriminate.
Qed.

Lemma registering_copies_witness :
  exists className root1 root',
    registerUserStyles ex_root ex_foo = Some (className, root1)
    /\ registerAll [ex_foo; ex_foo; ex_foo] root1 = Some root'
    /\ Container_getStyles root' = Container_getStyles root1.
Proof.
  apply registering_reordered_copies_renders_once.
  - apply (registerAll_fresh_wf [ex_media]). vm_compute. reflexivity.
  - repeat (apply ListDef.Forall_cons; [apply reordered_refl_example|]).
    apply ListDef.Forall_nil.
Defined.

Lemma writesNothing_styleToString name value :
  writesNothing value = true -> styleToString name value = EmptyString.
Proof. destruct value as [| | |[|? ?]|[|? ?]]; try discriminate; reflexivity. Qed.

Lemma insertSorted_split x l :
  exists l1 l2, l = l1 ++ l2 /\ JS.insertSorted x l = l1 ++ x :: l2.
Proof.
  induction l as [|y l (l1 & l2 & -> & E)]; [exists [], []; split; reflexivity|].
  cbn [JS.insertSorted]. destruct (String.leb x y).
  - exists [], (y :: l1 ++ l2). split; reflexivity.
  - exists (y :: l1), l2. rewrite E. split; reflexivity.
Qed.

Lemma append_empty_l (a : string) : EmptyString +:+ a = a.
Proof. reflexivity. Qed.

Lemma stringifyProperties_app p1 p2 :
  stringifyProperties (p1 ++ p2) = stringifyProperties p1 +:+ stringifyProperties p2.
Proof. unfold stringifyProperties. rewrite map_app, join_app. reflexivity. Qed.

Lemma registration_reads_declaration_text d d' children :
  stringifyProperties d = stringifyProperties d' ->
  registrationOps (mkLayer d children) = registrationOps (mkLayer d' children)
  /\ layerClassName (mkLayer d children) = layerClassName (mkLayer d' children).
Proof.
  intros E. unfold registrationOps, layerClassName.
  rewrite !layerOps_eq, !layerInstances_eq, !layerHash_eq, E. split; reflexivity.
Qed.

Lemma flat_map_ext_in {A B : Type} (f g : A -> list B) (l : list A) :
  (forall x, In x l -> f x = g x) -> flat_map f l = flat_map g l.
Proof.
  induction l as [|x l IH]; intros E; [reflexivity|]. simpl.
  rewrite (E x), IH; [reflexivity| |left; reflexivity].
  intros y Hy. apply E. right. exact Hy.
Qed.

(** X17.  A property whose value is [null], [undefined] or an empty array
    is ignored: adding it under a new key to a style object changes neither
    the class name nor the container tree a registration gives. *)
Theorem property_without_value_is_ignored
  (container : Container) (styles : UserStyles) (key : string) (value : PropertyValue) :
  Object_get styles key = None ->
  writesNothing value = true ->
  registerUserStyles container ((key, Prop_ value) :: styles)
  = registerUserStyles container styles.
Proof.
  intros Habs Hv. rewrite !registerUserStyles_run.
  assert (Hd : depth ((key, Prop_ value) :: styles) = depth styles) by reflexivity.
  unfold normalize. rewrite Hd. destruct (depth styles) as [|fuel] eqn:Ed.
  { pose proof (depth_pos styles). lia. }
  cbn [normalize_fuel]. rewrite !parse_properties, !parse_nestedStyles.
  assert (Hnot : ~ In key (Object_keys styles)).
  { intros Hin. apply Object_get_keys in Hin as [v Hin]. congruence. }
  change (Object_keys ((key, Prop_ value) :: styles)) with (key :: Object_keys styles).
  change (JS.sort (key :: Object_keys styles))
    with (JS.insertSorted key (JS.sort (Object_keys styles))).
  assert (Hs : ~ In key (JS.sort (Object_keys styles))) by (rewrite sort_in; exact Hnot).
  destruct (insertSorted_split key (JS.sort (Object_keys styles))) as (l1 & l2 & E1 & E2).
  rewrite E2, E1. rewrite E1 in Hs. clear E1 E2.
  assert (Hget : forall k, In k (l1 ++ l2) ->
            Object_get ((key, Prop_ value) :: styles) k = Object_get styles k).
  { intros k Hk. cbn [Object_get].
    destruct (String.eqb_spec key k) as [<-|_]; [contradiction|reflexivity]. }
  assert (Hkey : Object_get ((key, Prop_ value) :: styles) key = Some (Prop_ value)).
  { cbn [Object_get]. rewrite String.eqb_refl. reflexivity. }
  assert (Hn : flat_map (nestedOf ((key, Prop_ value) :: styles)) (l1 ++ key :: l2)
               = flat_map (nestedOf styles) (l1 ++ l2)).
  { rewrite !flat_map_app. cbn [flat_map]. unfold nestedOf at 2. rewrite Hkey. cbn [app].
    f_equal; apply flat_map_ext_in; intros k Hk; unfold nestedOf;
      rewrite Hget; try reflexivity; apply in_or_app; auto. }
  rewrite Hn.
  destruct (registration_reads_declaration_text
              (flat_map (propertyOf ((key, Prop_ value) :: styles)) (l1 ++ key :: l2))
              (flat_map (propertyOf styles) (l1 ++ l2))
              (map (fun e => (fst e, normalize_fuel fuel (snd e)))
                   (flat_map (nestedOf styles) (l1 ++ l2)))) as [-> ->]; [|reflexivity].
  rewrite !flat_map_app. cbn [flat_map]. rewrite !stringifyProperties_app.
  unfold propertyOf at 2. rewrite Hkey.
  replace (stringifyProperties [(hyphenate (JS.trim key), value)]) with EmptyString.
  - rewrite append_empty_l.
    f_equal; f_equal; apply flat_map_ext_in; intros k Hk; unfold propertyOf;
      rewrite Hget; try reflexivity; apply in_or_app; auto.
  - unfold stringifyProperties. cbn [map fst snd JS.join fold_right].
    rewrite writesNothing_styleToString by exact Hv. reflexivity.
Qed.

Lemma property_without_value_witness :
  registerUserStyles ex_root (("display"%string, Prop_ PVoid) :: ex_foo)
  = registerUserStyles ex_root ex_foo.
Proof. apply property_without_value_is_ignored; reflexivity. Defined.

Lemma interpolate_root h :
  0 <= h -> interpolate "&" ("." +:+ hashToString h) = "." +:+ hashToString h.
Proof.
  intros Hh. unfold interpolate. cbn [JS.includesChar Ascii.eqb Bool.eqb orb].
  rewrite replaceAllChar_plain.
  - cbn [substituteParent Ascii.eqb Bool.eqb]. apply append_nil_r.
  - change ("." +:+ hashToString h) with (String "." (hashToString h)).
    cbn [JS.includesChar]. apply digits_no_dollar. apply toString32_nonneg. exact Hh.
Qed.

Lemma normalize_flat styles :
  nestedStyles (parseUserStyles styles) = [] ->
  normalize styles = mkLayer (properties (parseUserStyles styles)) [].
Proof.
  intros E. unfold normalize, depth. cbn [depthValue normalize_fuel]. rewrite E. reflexivity.
Qed.

Lemma stepStyle_absent (c : Container) (text : string) :
  let s := new_Style text in
  _cacheCount c !! Style_id s = None ->
  Object_get (_cache c) (Style_id s) = None ->
  stepStyle s c
  = Some (mkCache (_cache c ++ [(Style_id s, IStyle s)])
                  (<[Style_id s := 1%nat]> (_cacheCount c))).
Proof.
  intros s Hn Hg. unfold stepStyle, Cache_add, Cache_count.
  change (cache_id (IStyle s)) with (Style_id s). rewrite Hn.
  change (JS.inherited (Style_id s)) with false. cbn [default Nat.eqb Nat.add].
  cbn [_cache _cacheCount]. rewrite Object_set_absent by exact Hg.
  rewrite (Object_get_snoc _ _ _ Hg). reflexivity.
Qed.

Lemma stepStyle_present (c : Container) (s y : Style) (n : nat) :
  _cacheCount c !! Style_id s = Some (S n) ->
  Object_get (_cache c) (Style_id s) = Some (IStyle y) ->
  stepStyle s c
  = Some (mkCache (_cache c) (<[Style_id s := S (S n)]> (_cacheCount c))).
Proof.
  intros Hn Hg. unfold stepStyle, Cache_add, Cache_count.
  change (cache_id (IStyle s)) with (Style_id s). rewrite Hn. cbn [default Nat.eqb].
  cbn [_cache _cacheCount]. rewrite Hg. rewrite Nat.add_1_r. reflexivity.
Qed.

Lemma stepAtRule_absent (c : Container) (name : string) :
  let a := new_AtRule name in
  _cacheCount c !! Item_id a = None ->
  Object_get (_cache c) (Item_id a) = None ->
  stepAtRule a c
  = Some (mkCache (_cache c ++ [(Item_id a, a)]) (<[Item_id a := 1%nat]> (_cacheCount c))).
Proof.
  intros a. unfold a, new_AtRule.
  generalize (eq_refl : JS.inherited ("a" +:+ hashString name) = false).
  generalize ("a" +:+ hashString name). generalize (mkCache (T := Item) [] ∅).
  intros ch id Hp Hn Hg. set (rule := name). clearbody rule.
  unfold stepAtRule, Cache_add, Cache_count.
  change (cache_id (IAtRule id rule ch)) with id in *. cbn [Item_id] in *.
  rewrite Hn, Hp. cbn [default Nat.eqb Nat.add].
  cbn [_cache _cacheCount]. rewrite Object_set_absent by exact Hg.
  rewrite (Object_get_snoc _ _ _ Hg). reflexivity.
Qed.

Lemma stepAtRule_present (c : Container) (a : Item) id rule ch (n : nat) :
  _cacheCount c !! Item_id a = Some (S n) ->
  Object_get (_cache c) (Item_id a) = Some (IAtRule id rule ch) ->
  stepAtRule a c
  = Some (mkCache (_cache c) (<[Item_id a := S (S n)]> (_cacheCount c))).
Proof.
  intros Hn Hg. unfold stepAtRule, Cache_add, Cache_count.
  change (cache_id a) with (Item_id a). rewrite Hn. cbn [default Nat.eqb].
  cbn [_cache _cacheCount]. rewrite Hg. rewrite Nat.add_1_r. reflexivity.
Qed.

(** X18.  Registering a style object without nested styles on a new root
    returns the hash of its declaration text chained after the hash of [&],
    in base 32, and the root renders as the one rule made of a dot, that
    class name and the declarations in braces, or as the empty string when
    the declaration text is empty. *)
Theorem flat_styles_render_one_rule (id : Z) (styles : UserStyles) :
  nestedStyles (parseUserStyles styles) = [] ->
  let text := stringifyProperties (properties (parseUserStyles styles)) in
  let className := hashToString (hash text (Some (hash "&" (Some 0)))) in
  exists this,
    registerStyle (fst (create id)) styles = Some (className, this)
    /\ getStyles this
       = match text with
         | EmptyString => EmptyString
         | _ => "." +:+ className +:+ "{" +:+ text +:+ "}"
         end.
Proof.
  intros Hflat text className. unfold registerStyle, create, getStyles.
  cbn [fst FreeStyle_container]. rewrite registerUserStyles_run.
  rewrite (normalize_flat styles Hflat). unfold registrationOps, layerClassName.
  rewrite layerOps_eq, layerInstances_eq, layerHash_eq. cbn [flat_map fold_left app].
  fold text. fold className. unfold selectorOps. cbn [map fst snd app].
  unfold className at 1. rewrite interpolate_root by apply hash_nonneg. fold className.
  rewrite !run_cons, exec_OStyle. cbn [Container_at].
  rewrite stepStyle_absent by reflexivity. cbn [_cache _cacheCount app].
  rewrite run_cons, exec_OSelector. cbn [fst snd Container_at]. unfold stepSelector.
  cbn [_cache Object_get]. rewrite String.eqb_refl. cbn [run fold_left].
  eexists. split; [reflexivity|]. cbn [FreeStyle_container].
  unfold Container_getStyles, Cache_values. cbn [_cache Object_set map snd].
  rewrite String.eqb_refl. cbn [map snd JS.join fold_right Item_getStyles].
  unfold Style_getStyles. cbn [style new_Style Style_cache Style_id].
  rewrite append_nil_r.
  destruct text as [|c t]; [reflexivity|].
  unfold Cache_add. cbn. reflexivity.
Qed.

Lemma flat_styles_witness :
  exists this,
    registerStyle (fst (create 0)) ex_blue_red
    = Some (hashToString (hash "background:blue;color:red;" (Some (hash "&" (Some 0)))), this)
    /\ getStyles this
       = "." +:+ hashToString (hash "background:blue;color:red;" (Some (hash "&" (Some 0))))
         +:+ "{" +:+ "background:blue;color:red;" +:+ "}".
Proof. exact (flat_styles_render_one_rule 0 ex_blue_red eq_refl). Defined.

Lemma normalize_under_rule rule A :
  normalize [(rule, Nest A)] = mkLayer [] [(JS.trim rule, normalize A)].
Proof.
  unfold normalize at 1.
  change (depth [(rule, Nest A)]) with (S (Nat.max (depth A) 0)).
  rewrite Nat.max_0_r. cbn [normalize_fuel].
  unfold parseUserStyles. cbn [Object_keys map fst JS.sort fold_right JS.insertSorted fold_left].
  unfold parseEntry. cbn [Object_get]. rewrite String.eqb_refl.
  cbn [isNestedStyle properties nestedStyles app asUserStyles map fst snd]. reflexivity.
Qed.

Lemma String_eqb_tag (c : ascii) (a b : string) :
  String.eqb (String c a) (String c b) = String.eqb a b.
Proof. cbn [String.eqb]. rewrite Ascii.eqb_refl. reflexivity. Qed.

Lemma Style_id_eqb a b :
  hash a None <> hash b None ->
  String.eqb (Style_id (new_Style a)) (Style_id (new_Style b)) = false.
Proof.
  intros Hne. apply String.eqb_neq. intros E. apply Hne.
  cbn [Style_id new_Style] in E. injection E as E.
  apply hashToString_inj in E; [exact E|apply hash_nonneg|apply hash_nonneg].
Qed.

(** The operations of a registration of a flat layer under one at-rule. *)
Lemma registrationOps_under_rule name d :
  isAtRule name = true ->
  let text := stringifyProperties d in
  let h := hash text (Some (hash "&" (Some (hash EmptyString (Some (hash "&" (Some 0))))))) in
  layerClassName (mkLayer [] [(name, mkLayer d [])]) = hashToString h
  /\ registrationOps (mkLayer [] [(name, mkLayer d [])])
     = [OStyle [] EmptyString;
        OAtRule [] name;
        OStyle [Item_id (new_AtRule name)] text;
        OSelector ([], Style_id (new_Style EmptyString)) ("." +:+ hashToString h);
        OSelector ([Item_id (new_AtRule name)], Style_id (new_Style text))
                  ("." +:+ hashToString h)].
Proof.
  intros Hrule text h.
  assert (Hc : layerClassName (mkLayer [] [(name, mkLayer d [])]) = hashToString h).
  { unfold layerClassName. rewrite layerHash_eq. cbn [fold_left]. unfold childHash.
    cbn [fst snd]. rewrite Hrule, layerHash_eq. reflexivity. }
  split; [exact Hc|]. unfold registrationOps. rewrite Hc.
  rewrite layerOps_eq, layerInstances_eq. cbn [flat_map]. unfold childOps, childInstances.
  cbn [fst snd]. rewrite Hrule, layerOps_eq, layerInstances_eq. cbn [flat_map app].
  unfold selectorOps. cbn [map fst snd app].
  rewrite interpolate_root by apply hash_nonneg. reflexivity.
Qed.
(** The selectors of a style that has been given one selector. *)
Definition oneSelector (sel : string) : Cache Selector :=
  snd (fst (Cache_add Cache_new (new_Selector sel))).

Lemma tag_eqb_n_a (t u : string) : String.eqb ("n" +:+ t) ("a" +:+ u) = false.
Proof. reflexivity. Qed.

Lemma tag_eqb_a_n (t u : string) : String.eqb ("a" +:+ t) ("n" +:+ u) = false.
Proof. reflexivity. Qed.

Lemma run_under_rule_fresh name text cls :
  let n0 := Style_id (new_Style EmptyString) in
  let aid := Item_id (new_AtRule name) in
  let nT := Style_id (new_Style text) in
  run [OStyle [] EmptyString; OAtRule [] name; OStyle [aid] text;
       OSelector ([], n0) cls; OSelector ([aid], nT) cls]
      (mkCache [] ∅)
  = Some (mkCache
            [(n0, IStyle (mkStyle n0 EmptyString (oneSelector cls)));
             (aid, IAtRule aid name
                     (mkCache [(nT, IStyle (mkStyle nT text (oneSelector cls)))]
                              (<[nT := 1%nat]> ∅)))]
            (<[aid := 1%nat]> (<[n0 := 1%nat]> ∅))).
Proof.
  intros n0 aid nT.
  rewrite run_cons, exec_OStyle. cbn [Container_at].
  rewrite stepStyle_absent by reflexivity. cbn [_cache _cacheCount app]. fold n0.
  rewrite run_cons, exec_OAtRule. cbn [Container_at].
  rewrite stepAtRule_absent.
  2:{ cbn [_cacheCount]. rewrite lookup_insert_ne by discriminate. reflexivity. }
  2:{ reflexivity. }
  cbn [_cache _cacheCount app]. fold aid.
  rewrite run_cons, exec_OStyle. cbn [Container_at _cache Object_get].
  change (String.eqb n0 aid) with false. cbv iota. rewrite ?String.eqb_refl.
  unfold new_AtRule at 1. cbv iota.
  rewrite stepStyle_absent by reflexivity. cbn [_cache _cacheCount app Object_set].
  change (String.eqb n0 aid) with false. cbv iota. rewrite ?String.eqb_refl. fold nT.
  rewrite run_cons, exec_OSelector. cbn [fst snd Container_at]. unfold stepSelector.
  cbn [_cache _cacheCount Object_get Object_set]. rewrite ?String.eqb_refl.
  cbn [Object_set Style_id style Style_cache new_Style]. rewrite ?String.eqb_refl.
  rewrite run_cons, exec_OSelector. cbn [fst snd Container_at _cache Object_get].
  change (String.eqb n0 aid) with false. cbv iota. rewrite ?String.eqb_refl.
  unfold stepSelector. cbn [_cache _cacheCount Object_get Object_set].
  rewrite ?String.eqb_refl. cbn [Object_set].
  change (String.eqb n0 aid) with false. cbv iota. rewrite ?String.eqb_refl.
  reflexivity.
Qed.

Lemma run_under_rule_again name textA textB cls c0 sA :
  let n0 := Style_id (new_Style EmptyString) in
  let aid := Item_id (new_AtRule name) in
  let nA := Style_id (new_Style textA) in
  let nB := Style_id (new_Style textB) in
  hash textA None <> hash textB None ->
  run [OStyle [] EmptyString; OAtRule [] name; OStyle [aid] textB;
       OSelector ([], n0) cls; OSelector ([aid], nB) cls]
      (mkCache
         [(n0, IStyle (mkStyle n0 EmptyString c0));
          (aid, IAtRule aid name (mkCache [(nA, IStyle sA)] (<[nA := 1%nat]> ∅)))]
         (<[aid := 1%nat]> (<[n0 := 1%nat]> ∅)))
  = Some (mkCache
            [(n0, IStyle (mkStyle n0 EmptyString
                            (snd (fst (Cache_add c0 (new_Selector cls))))));
             (aid, IAtRule aid name
                     (mkCache [(nA, IStyle sA);
                               (nB, IStyle (mkStyle nB textB (oneSelector cls)))]
                              (<[nB := 1%nat]> (<[nA := 1%nat]> ∅))))]
            (<[aid := 2%nat]>
               (<[n0 := 2%nat]> (<[aid := 1%nat]> (<[n0 := 1%nat]> ∅))))).
Proof.
  intros n0 aid nA nB Hne.
  pose proof (Style_id_eqb textA textB Hne) as Hab. fold nA nB in Hab.
  assert (Hab' : nB <> nA).
  { intros E. rewrite E, String.eqb_refl in Hab. discriminate. }
  rewrite run_cons, exec_OStyle. cbn [Container_at].
  rewrite (stepStyle_present _ (new_Style EmptyString) (mkStyle n0 EmptyString c0) 0).
  2:{ cbn [_cacheCount]. rewrite lookup_insert_ne by discriminate.
      apply lookup_insert_eq. }
  2:{ cbn [_cache Object_get]. rewrite String.eqb_refl. reflexivity. }
  cbn [_cache _cacheCount]. fold n0.
  rewrite run_cons, exec_OAtRule. cbn [Container_at].
  rewrite (stepAtRule_present _ (new_AtRule name) aid name
             (mkCache [(nA, IStyle sA)] (<[nA := 1%nat]> ∅)) 0).
  2:{ cbn [_cacheCount]. fold aid. rewrite lookup_insert_ne by discriminate.
      apply lookup_insert_eq. }
  2:{ cbn [_cache Object_get]. fold aid. change (String.eqb n0 aid) with false. cbv iota.
      rewrite String.eqb_refl. reflexivity. }
  cbn [_cache _cacheCount]. fold aid.
  rewrite run_cons, exec_OStyle. cbn [Container_at _cache Object_get].
  change (String.eqb n0 aid) with false. cbv iota. rewrite ?String.eqb_refl.
  rewrite stepStyle_absent.
  2:{ cbn [_cacheCount]. fold nB. rewrite lookup_insert_ne by (intros E; apply Hab'; auto).
      reflexivity. }
  2:{ cbn [_cache Object_get]. fold nB. rewrite Hab. reflexivity. }
  cbn [_cache _cacheCount app Object_set].
  change (String.eqb n0 aid) with false. cbv iota. rewrite ?String.eqb_refl. fold nB.
  rewrite run_cons, exec_OSelector. cbn [fst snd Container_at]. unfold stepSelector.
  cbn [_cache _cacheCount Object_get Object_set]. rewrite ?String.eqb_refl.
  cbn [Object_set Style_id style Style_cache new_Style]. rewrite ?String.eqb_refl.
  rewrite run_cons, exec_OSelector. cbn [fst snd Container_at _cache Object_get].
  change (String.eqb n0 aid) with false. cbv iota. rewrite ?String.eqb_refl.
  unfold stepSelector. cbn [_cache _cacheCount Object_get Object_set].
  rewrite ?Hab, ?String.eqb_refl. cbn [Object_set].
  change (String.eqb n0 aid) with false. cbv iota. rewrite ?String.eqb_refl.
  rewrite ?Hab, ?String.eqb_refl.
  reflexivity.
Qed.

Lemma Style_getStyles_one id text sel :
  text <> EmptyString ->
  Style_getStyles (mkStyle id text (oneSelector sel)) = sel +:+ "{" +:+ text +:+ "}".
Proof.
  intros Ht. unfold Style_getStyles. cbn [style Style_cache].
  destruct text as [|c t]; [contradiction|]. reflexivity.
Qed.

(** X19.  Two style objects without nested styles, registered on a new
    root under the same at-rule key, with declaration texts that are not
    empty and have different hashes, share one at-rule block: the root
    renders the rule once, with the two class rules in its braces in the
    order of registration. *)
Theorem registrations_under_one_at_rule_share_its_block
  (id : Z) (rule : string) (A B : UserStyles) :
  isAtRule (JS.trim rule) = true ->
  nestedStyles (parseUserStyles A) = [] ->
  nestedStyles (parseUserStyles B) = [] ->
  let textA := stringifyProperties (properties (parseUserStyles A)) in
  let textB := stringifyProperties (properties (parseUserStyles B)) in
  textA <> EmptyString -> textB <> EmptyString ->
  hash textA None <> hash textB None ->
  exists classA classB this1 this2,
    registerStyle (fst (create id)) [(rule, Nest A)] = Some (classA, this1)
    /\ registerStyle this1 [(rule, Nest B)] = Some (classB, this2)
    /\ getStyles this1
       = JS.trim rule +:+ "{" +:+ ("." +:+ classA +:+ "{" +:+ textA +:+ "}") +:+ "}"
    /\ getStyles this2
       = JS.trim rule +:+ "{"
         +:+ (("." +:+ classA +:+ "{" +:+ textA +:+ "}")
              +:+ ("." +:+ classB +:+ "{" +:+ textB +:+ "}")) +:+ "}".
Proof.
  intros Hrule HA HB textA textB HtA HtB Hne.
  unfold registerStyle, create, getStyles. cbn [fst FreeStyle_container FreeStyle_id].
  rewrite registerUserStyles_run, normalize_under_rule, (normalize_flat A HA).
  destruct (registrationOps_under_rule (JS.trim rule) (properties (parseUserStyles A)) Hrule)
    as [-> ->].
  fold textA. rewrite run_under_rule_fresh.
  eexists _, _, _, _. split; [reflexivity|]. cbn [FreeStyle_container FreeStyle_id].
  rewrite registerUserStyles_run, normalize_under_rule, (normalize_flat B HB).
  destruct (registrationOps_under_rule (JS.trim rule) (properties (parseUserStyles B)) Hrule)
    as [-> ->].
  fold textB. rewrite (run_under_rule_again _ textA textB _ _ _ Hne).
  split; [reflexivity|]. cbn [FreeStyle_container].
  unfold Container_getStyles, Cache_values.
  cbn [_cache map snd JS.join fold_right Item_getStyles].
  rewrite !(Style_getStyles_one _ textA _ HtA), (Style_getStyles_one _ textB _ HtB).
  change (Style_getStyles (mkStyle ?i EmptyString ?c)) with EmptyString.
  rewrite !append_empty_l, !append_nil_r. split; reflexivity.
Qed.

Lemma registrations_under_one_at_rule_witness :
  exists classA classB this1 this2,
    registerStyle (fst (create 0))
      [("@media (min-width: 600px)"%string, Nest [("color"%string, Prop_ (PString "red"))])]
    = Some (classA, this1)
    /\ registerStyle this1
         [("@media (min-width: 600px)"%string,
           Nest [("color"%string, Prop_ (PString "blue"))])]
       = Some (classB, this2)
    /\ getStyles this2
       = "@media (min-width: 600px)" +:+ "{"
         +:+ (("." +:+ classA +:+ "{" +:+ "color:red;" +:+ "}")
              +:+ ("." +:+ classB +:+ "{" +:+ "color:blue;" +:+ "}")) +:+ "}".
Proof.
  destruct (registrations_under_one_at_rule_share_its_block 0 "@media (min-width: 600px)"
              [("color"%string, Prop_ (PString "red"))]
              [("color"%string, Prop_ (PString "blue"))])
    as (classA & classB & this1 & this2 & E1 & E2 & _ & E4).
  - reflexivity.
  - reflexivity.
  - reflexivity.
  - vm_compute. discriminate.
  - vm_compute. discriminate.
  - vm_compute. discriminate.
  - exists classA, classB, this1, this2. repeat split; assumption.
Defined.

Lemma parse_with_nested name C P :
  Object_get P name = None ->
  nestedStyles (parseUserStyles P) = [] ->
  properties (parseUserStyles ((name, Nest C) :: P)) = properties (parseUserStyles P)
  /\ nestedStyles (parseUserStyles ((name, Nest C) :: P)) = [(JS.trim name, C)].
Proof.
  intros Habs Hflat. rewrite !parse_properties, !parse_nestedStyles.
  rewrite parse_nestedStyles in Hflat.
  assert (Hnot : ~ In name (Object_keys P)).
  { intros Hin. apply Object_get_keys in Hin as [v Hin]. congruence. }
  change (Object_keys ((name, Nest C) :: P)) with (name :: Object_keys P).
  change (JS.sort (name :: Object_keys P))
    with (JS.insertSorted name (JS.sort (Object_keys P))).
  assert (Hs : ~ In name (JS.sort (Object_keys P))) by (rewrite sort_in; exact Hnot).
  destruct (insertSorted_split name (JS.sort (Object_keys P))) as (l1 & l2 & E1 & E2).
  rewrite E2, E1. rewrite E1 in Hs, Hflat. clear E1 E2.
  assert (Hget : forall k, In k (l1 ++ l2) ->
            Object_get ((name, Nest C) :: P) k = Object_get P k).
  { intros k Hk. cbn [Object_get].
    destruct (String.eqb_spec name k) as [<-|_]; [contradiction|reflexivity]. }
  assert (Hkey : Object_get ((name, Nest C) :: P) name = Some (Nest C)).
  { cbn [Object_get]. rewrite String.eqb_refl. reflexivity. }
  rewrite flat_map_app in Hflat. apply app_eq_nil in Hflat as [Hf1 Hf2].
  rewrite !flat_map_app. cbn [flat_map].
  assert (Hp : propertyOf ((name, Nest C) :: P) name = []).
  { unfold propertyOf. rewrite Hkey. reflexivity. }
  assert (Hn : nestedOf ((name, Nest C) :: P) name = [(JS.trim name, C)]).
  { unfold nestedOf. rewrite Hkey. reflexivity. }
  rewrite Hp, Hn. cbn [app]. split.
  - f_equal; apply flat_map_ext_in; intros k Hk; unfold propertyOf;
      rewrite Hget; try reflexivity; apply in_or_app; auto.
  - rewrite (flat_map_ext_in (nestedOf ((name, Nest C) :: P)) (nestedOf P) l1).
    2:{ intros k Hk. unfold nestedOf. rewrite Hget; [reflexivity|apply in_or_app; auto]. }
    rewrite (flat_map_ext_in (nestedOf ((name, Nest C) :: P)) (nestedOf P) l2).
    2:{ intros k Hk. unfold nestedOf. rewrite Hget; [reflexivity|apply in_or_app; auto]. }
    rewrite Hf1, Hf2. reflexivity.
Qed.

Lemma normalize_with_nested name C P :
  Object_get P name = None ->
  nestedStyles (parseUserStyles P) = [] ->
  normalize ((name, Nest C) :: P)
  = mkLayer (properties (parseUserStyles P)) [(JS.trim name, normalize C)].
Proof.
  intros Habs Hflat. destruct (parse_with_nested name C P Habs Hflat) as [Ep En].
  unfold normalize at 1.
  change (depth ((name, Nest C) :: P))
    with (S (Nat.max (depth C) (list_max (map (fun p => depthValue (snd p)) P)))).
  cbn [normalize_fuel]. rewrite Ep, En. cbn [map fst snd].
  rewrite (normalize_fuel_enough _ (depth C) C) by lia. reflexivity.
Qed.

(** The operations of a registration of a flat layer with one nested
    selector over a flat layer. *)
Lemma registrationOps_with_nested name dP dC :
  isAtRule name = false ->
  let textP := stringifyProperties dP in
  let textC := stringifyProperties dC in
  let nested := interpolate name "&" in
  let h := hash textC (Some (hash nested (Some (hash textP (Some (hash "&" (Some 0))))))) in
  layerClassName (mkLayer dP [(name, mkLayer dC [])]) = hashToString h
  /\ registrationOps (mkLayer dP [(name, mkLayer dC [])])
     = [OStyle [] textP;
        OStyle [] textC;
        OSelector ([], Style_id (new_Style textP)) ("." +:+ hashToString h);
        OSelector ([], Style_id (new_Style textC))
                  (interpolate nested ("." +:+ hashToString h))].
Proof.
  intros Hrule textP textC nested h.
  assert (Hc : layerClassName (mkLayer dP [(name, mkLayer dC [])]) = hashToString h).
  { unfold layerClassName. rewrite layerHash_eq. cbn [fold_left]. unfold childHash.
    cbn [fst snd]. rewrite Hrule, layerHash_eq. reflexivity. }
  split; [exact Hc|]. unfold registrationOps. rewrite Hc.
  rewrite layerOps_eq, layerInstances_eq. cbn [flat_map]. unfold childOps, childInstances.
  cbn [fst snd]. rewrite Hrule, layerOps_eq, layerInstances_eq. cbn [flat_map app].
  unfold selectorOps. cbn [map fst snd app].
  rewrite interpolate_root by apply hash_nonneg. reflexivity.
Qed.

Lemma oneSelector_eq sel :
  oneSelector sel
  = mkCache [(Selector_id (new_Selector sel), new_Selector sel)]
            (<[Selector_id (new_Selector sel) := 1%nat]> ∅).
Proof. reflexivity. Qed.

Lemma Selector_id_eqb a b :
  String.eqb (Selector_id (new_Selector a)) (Selector_id (new_Selector b))
  = (hash a None =? hash b None).
Proof.
  destruct (Z.eqb_spec (hash a None) (hash b None)) as [E|Hne].
  - apply String.eqb_eq. cbn [Selector_id new_Selector]. unfold hashString. rewrite E.
    reflexivity.
  - apply String.eqb_neq. intros E. apply Hne.
    cbn [Selector_id new_Selector] in E. injection E as E.
    apply hashToString_inj in E; [exact E|apply hash_nonneg|apply hash_nonneg].
Qed.

Lemma secondSelector_values a b :
  map selector (Cache_values (snd (fst (Cache_add (oneSelector a) (new_Selector b)))))
  = if hash a None =? hash b None then [a] else [a; b].
Proof.
  rewrite oneSelector_eq. pose proof (Selector_id_eqb a b) as E.
  unfold Cache_add, Cache_count. cbn [_cache _cacheCount].
  change (cache_id (new_Selector b)) with (Selector_id (new_Selector b)).
  change (JS.inherited (Selector_id (new_Selector b))) with false.
  destruct (Z.eqb_spec (hash a None) (hash b None)) as [Heq|Hne].
  - apply String.eqb_eq in E. rewrite <- E, lookup_insert_eq. reflexivity.
  - apply String.eqb_neq in E. rewrite lookup_insert_ne by exact E.
    rewrite lookup_empty.
    cbn [default Nat.eqb Nat.add snd fst _cache Object_set].
    apply String.eqb_neq in E. rewrite E. reflexivity.
Qed.

Lemma run_nested_distinct textP textC c s :
  let nP := Style_id (new_Style textP) in
  let nC := Style_id (new_Style textC) in
  hash textP None <> hash textC None ->
  run [OStyle [] textP; OStyle [] textC; OSelector ([], nP) c; OSelector ([], nC) s]
      (mkCache [] ∅)
  = Some (mkCache
            [(nP, IStyle (mkStyle nP textP (oneSelector c)));
             (nC, IStyle (mkStyle nC textC (oneSelector s)))]
            (<[nC := 1%nat]> (<[nP := 1%nat]> ∅))).
Proof.
  intros nP nC Hne.
  pose proof (Style_id_eqb textP textC Hne) as Hab. fold nP nC in Hab.
  assert (Hab' : nC <> nP).
  { intros E. rewrite E, String.eqb_refl in Hab. discriminate. }
  rewrite run_cons, exec_OStyle. cbn [Container_at].
  rewrite stepStyle_absent by reflexivity. cbn [_cache _cacheCount app]. fold nP.
  rewrite run_cons, exec_OStyle. cbn [Container_at].
  rewrite stepStyle_absent.
  2:{ cbn [_cacheCount]. fold nC. rewrite lookup_insert_ne by (intros E; apply Hab'; auto).
      reflexivity. }
  2:{ cbn [_cache Object_get]. fold nC. rewrite Hab. reflexivity. }
  cbn [_cache _cacheCount app]. fold nC.
  rewrite run_cons, exec_OSelector. cbn [fst snd Container_at]. unfold stepSelector.
  cbn [_cache _cacheCount Object_get Object_set]. rewrite ?String.eqb_refl.
  cbn [Object_set Style_id style Style_cache new_Style]. rewrite ?String.eqb_refl.
  rewrite run_cons, exec_OSelector. cbn [fst snd Container_at]. unfold stepSelector.
  cbn [_cache _cacheCount Object_get Object_set]. rewrite ?Hab, ?String.eqb_refl.
  cbn [Object_set Style_id style Style_cache new_Style].
  rewrite ?Hab, ?String.eqb_refl. reflexivity.
Qed.

Lemma run_nested_same textP textC c s :
  let nP := Style_id (new_Style textP) in
  let nC := Style_id (new_Style textC) in
  hash textP None = hash textC None ->
  run [OStyle [] textP; OStyle [] textC; OSelector ([], nP) c; OSelector ([], nC) s]
      (mkCache [] ∅)
  = Some (mkCache
            [(nP, IStyle (mkStyle nP textP
                            (snd (fst (Cache_add (oneSelector c) (new_Selector s))))))]
            (<[nP := 2%nat]> (<[nP := 1%nat]> ∅))).
Proof.
  intros nP nC Heq.
  assert (E : nC = nP).
  { unfold nC, nP. cbn [Style_id new_Style]. unfold hashString. rewrite Heq. reflexivity. }
  rewrite E. clear E nC.
  rewrite run_cons, exec_OStyle. cbn [Container_at].
  rewrite stepStyle_absent by reflexivity. cbn [_cache _cacheCount app]. fold nP.
  rewrite run_cons, exec_OStyle. cbn [Container_at].
  assert (Hid : Style_id (new_Style textC) = nP).
  { unfold nP. cbn [Style_id new_Style]. unfold hashString. rewrite Heq. reflexivity. }
  rewrite (stepStyle_present _ (new_Style textC) (new_Style textP) 0).
  2:{ cbn [_cacheCount]. rewrite Hid. apply lookup_insert_eq. }
  2:{ cbn [_cache Object_get]. rewrite Hid, String.eqb_refl. reflexivity. }
  cbn [_cache _cacheCount]. rewrite Hid.
  rewrite run_cons, exec_OSelector. cbn [fst snd Container_at]. unfold stepSelector.
  cbn [_cache _cacheCount Object_get Object_set]. rewrite ?String.eqb_refl.
  cbn [Object_set Style_id style Style_cache new_Style]. rewrite ?String.eqb_refl.
  rewrite run_cons, exec_OSelector. cbn [fst snd Container_at]. unfold stepSelector.
  cbn [_cache _cacheCount Object_get Object_set]. rewrite ?String.eqb_refl.
  cbn [Object_set Style_id style Style_cache new_Style].
  rewrite ?String.eqb_refl. reflexivity.
Qed.

(** X20.  A style object without nested styles but for one nested
    selector key over such an object, both with declarations, registered
    on a new root: when the hashes of the two declaration texts differ,
    the root renders the rule of the class followed by the rule of the
    interpolated selector; when they are equal, nested declarations and
    outer ones share one style, which renders the outer text once, under
    the class selector and the interpolated selector joined by a comma
    (under the class selector alone if the two selectors hash alike). *)
Theorem nested_selector_adds_a_rule_or_a_selector
  (id : Z) (name : string) (C P : UserStyles) :
  Object_get P name = None ->
  isAtRule (JS.trim name) = false ->
  nestedStyles (parseUserStyles P) = [] ->
  nestedStyles (parseUserStyles C) = [] ->
  let textP := stringifyProperties (properties (parseUserStyles P)) in
  let textC := stringifyProperties (properties (parseUserStyles C)) in
  let nested := interpolate (JS.trim name) "&" in
  let className :=
    hashToString
      (hash textC (Some (hash nested (Some (hash textP (Some (hash "&" (Some 0)))))))) in
  let selector := interpolate nested ("." +:+ className) in
  textP <> EmptyString -> textC <> EmptyString ->
  exists this,
    registerStyle (fst (create id)) ((name, Nest C) :: P) = Some (className, this)
    /\ getStyles this
       = if hash textP None =? hash textC None
         then (if hash ("." +:+ className) None =? hash selector None
               then "." +:+ className
               else "." +:+ className +:+ "," +:+ selector)
              +:+ "{" +:+ textP +:+ "}"
         else ("." +:+ className +:+ "{" +:+ textP +:+ "}")
              +:+ (selector +:+ "{" +:+ textC +:+ "}").
Proof.
  intros Habs Hrule HP HC textP textC nested className selector HtP HtC.
  unfold registerStyle, create, getStyles. cbn [fst FreeStyle_container FreeStyle_id].
  rewrite registerUserStyles_run, (normalize_with_nested name C P Habs HP),
    (normalize_flat C HC).
  destruct (registrationOps_with_nested (JS.trim name) (properties (parseUserStyles P))
              (properties (parseUserStyles C)) Hrule) as [-> ->].
  fold textP textC nested. fold className. fold selector.
  destruct (Z.eqb_spec (hash textP None) (hash textC None)) as [Heq|Hne].
  - rewrite (run_nested_same textP textC _ _ Heq).
    eexists. split; [reflexivity|]. cbn [FreeStyle_container].
    unfold Container_getStyles, Cache_values.
    cbn [_cache map snd JS.join fold_right Item_getStyles].
    unfold Style_getStyles. cbn [style Style_cache]. rewrite secondSelector_values.
    rewrite append_nil_r. destruct textP as [|ch t]; [contradiction|].
    destruct (hash ("." +:+ className) None =? hash selector None); reflexivity.
  - rewrite (run_nested_distinct textP textC _ _ Hne).
    eexists. split; [reflexivity|]. cbn [FreeStyle_container].
    unfold Container_getStyles, Cache_values.
    cbn [_cache map snd JS.join fold_right Item_getStyles].
    rewrite (Style_getStyles_one _ textP _ HtP), (Style_getStyles_one _ textC _ HtC).
    rewrite append_nil_r. rewrite !append_assoc. reflexivity.
Qed.

Lemma nested_selector_witness :
  exists className this,
    registerStyle (fst (create 0))
      [(".foo"%string, Nest [("color"%string, Prop_ (PString "red"))]);
       ("color"%string, Prop_ (PString "red"))]
    = Some (className, this)
    /\ getStyles this = "." +:+ className +:+ ",." +:+ className +:+ " .foo{color:red;}".
Proof.
  destruct (nested_selector_adds_a_rule_or_a_selector 0 ".foo"
              [("color"%string, Prop_ (PString "red"))]
              [("color"%string, Prop_ (PString "red"))])
    as (this & E1 & E2).
  - reflexivity.
  - reflexivity.
  - reflexivity.
  - reflexivity.
  - vm_compute. discriminate.
  - vm_compute. discriminate.
  - eexists _, this. split; [exact E1|].
    rewrite E2. vm_compute. reflexivity.
Defined.
